(** * The audio output mixer core: [src/audio_output/mixer.c]

    A shallow embedding of [aout_MixerNew], [aout_MixerDelete],
    [aout_MixerMultiplierSet], [MixBuffer] and [aout_MixerRun], the
    properties the specification states about them, and further
    properties of the code.

    Conventions of the embedding.
    - [mtime_t] (a signed 64-bit count of microseconds) is [Z]; signed
      overflow is undefined in C and is not modelled.  C's [/] on signed
      operands is [Z.quot] (truncation toward zero).
    - A buffer chain linked through [p_next] is a [list]: [NULL] is [[]],
      the first cell is the buffer pointed to, the tail is its [p_next]
      chain.
    - Pointers into payloads ([begin], [p_buffer]) are addresses in [Z];
      a null [begin] is [None].
    - [aout_BufferFree] is an effect: every function that frees returns the
      list of the blocks it handed to [aout_BufferFree], in order.
    - [mdate()] is read once per call of [MixBuffer] (the [now] argument):
      a call is taken to be instantaneous.
    - Locks and log messages have no counterpart.
    - The registered inputs are [pp_inputs[0 .. i_nb_inputs-1]], a list.
      [aout_MixerNew] carries on past a read outside of them, with an
      [input] that is the stream of no input; [aout_MixerNew_checked]
      stops at such a read.
    - A division by a format field that is 0 traps in C, where [Z.quot]
      gives 0: a statement that says a call returns assumes
      [format_divides], which keeps the divisors of lines 280, 299 and 330
      above 0.
    - [aout_MixerRun] calls [MixBuffer] until it returns [-1]: it is given
      the clock readings of its calls as a list, and is still in its loop
      when they are used up. *)

From Stdlib Require Import ZArith Lia Bool.
From stdpp Require Import base list.
From Equations Require Import Equations.

Local Open Scope Z_scope.

(** ** Dates *)

Definition mtime_t := Z.

(** Modelled from the spec: [date_t] and [date_Get], [date_Set],
    [date_Increment] are declared outside [mixer.c].  The spec describes
    the date as a sample-accurate accumulator that advances by an integer
    number of samples at a given rate; the division remainder is carried
    from one increment to the next. *)
Record date_t := mk_date {
  date : mtime_t;
  i_divider_num : Z;
  i_remainder : Z
}.

Definition date_Get (d : date_t) : mtime_t := date d.

Definition date_Set (d : date_t) (i_new_date : mtime_t) : date_t :=
  {| date := i_new_date; i_divider_num := i_divider_num d; i_remainder := 0 |}.

Definition date_Increment (d : date_t) (nb_samples : Z) : date_t :=
  let i_dividend := nb_samples * 1000000 in
  let whole := date d + Z.quot i_dividend (i_divider_num d) in
  let part := i_remainder d + Z.rem i_dividend (i_divider_num d) in
  if i_divider_num d <=? part
  then {| date := whole + 1; i_divider_num := i_divider_num d;
          i_remainder := part - i_divider_num d |}
  else {| date := whole; i_divider_num := i_divider_num d;
          i_remainder := part |}.

(** ** Buffers, FIFOs, inputs *)

Record aout_buffer_t := mk_buffer {
  i_pts : mtime_t;
  i_length : mtime_t;
  i_nb_samples : Z;
  p_buffer : Z;   (* address of the first payload byte *)
  i_buffer : Z    (* payload size in bytes *)
}.

(** Where [pp_last] points: at the FIFO's own [p_first] field, or at the
    [p_next] field of the queued block at address [block]. *)
Inductive pp_last_t :=
| Last_at_first
| Last_at_next (block : Z).

Record aout_fifo_t := mk_fifo {
  p_first : list aout_buffer_t;
  pp_last : pp_last_t;
  end_date : date_t
}.

Record aout_mixer_input_t := mk_mixer_input {
  is_invalid : bool;
  fifo : aout_fifo_t;
  begin : option Z
}.

Record aout_input_t := mk_input {
  b_error : bool;
  b_paused : bool;
  mixer : aout_mixer_input_t
}.

Record audio_sample_format_t := mk_format {
  i_rate : Z;
  i_bytes_per_frame : Z;
  i_frame_length : Z;
  is_linear : bool
}.

(** Modelled from the spec: the macro [AOUT_FMT_NON_LINEAR] is defined
    outside [mixer.c]; the spec gives the format an [is_linear] flag, false
    for compressed and pass-through formats. *)
Definition AOUT_FMT_NON_LINEAR (f : audio_sample_format_t) : bool :=
  negb (is_linear f).

(** The kernel entry point [mix]: it works on the input streams and on the
    payload of the destination block; the destination's time stamps are
    written by [MixBuffer] before the call. *)
Definition mix_fn : Type :=
  list aout_input_t -> aout_buffer_t -> list aout_input_t.

Record aout_mixer_t := mk_mixer {
  fmt : audio_sample_format_t;
  b_alloc : bool;
  multiplier : Z;        (* a C float, carried as its bit pattern *)
  input : nat;           (* the input whose stream [input] points to *)
  mix : option mix_fn;
  sys : option Z;
  module : option Z
}.

Record aout_output_t := mk_output {
  output_fifo : aout_fifo_t;
  output_i_nb_samples : Z
}.

Record aout_instance_t := mk_aout {
  p_mixer : option aout_mixer_t;
  mixer_format : audio_sample_format_t;
  mixer_multiplier : Z;
  pp_inputs : list aout_input_t;   (* pp_inputs[0 .. i_nb_inputs-1] *)
  output : aout_output_t
}.


Definition VLC_SUCCESS : Z := 0.
Definition VLC_EGENERIC : Z := -1.

(** Field updates. *)

Definition fifo_with_first (f : aout_fifo_t) (q : list aout_buffer_t)
  (l : pp_last_t) : aout_fifo_t :=
  {| p_first := q; pp_last := l; end_date := end_date f |}.

Definition input_with_stream (p_input : aout_input_t)
  (q : list aout_buffer_t) (l : pp_last_t) (bg : option Z) : aout_input_t :=
  {| b_error := b_error p_input;
     b_paused := b_paused p_input;
     mixer := {| is_invalid := is_invalid (mixer p_input);
                 fifo := fifo_with_first (fifo (mixer p_input)) q l;
                 begin := bg |} |}.

Definition input_with_invalid (p_input : aout_input_t) (v : bool)
  : aout_input_t :=
  {| b_error := b_error p_input;
     b_paused := b_paused p_input;
     mixer := {| is_invalid := v;
                 fifo := fifo (mixer p_input);
                 begin := begin (mixer p_input) |} |}.

Definition buffer_with_dates (b : aout_buffer_t) (pts len : mtime_t)
  : aout_buffer_t :=
  {| i_pts := pts; i_length := len; i_nb_samples := i_nb_samples b;
     p_buffer := p_buffer b; i_buffer := i_buffer b |}.

Definition buffer_with_samples (b : aout_buffer_t) (n : Z) : aout_buffer_t :=
  {| i_pts := i_pts b; i_length := i_length b; i_nb_samples := n;
     p_buffer := p_buffer b; i_buffer := i_buffer b |}.

Definition aout_with_mixer (p_aout : aout_instance_t)
  (m : option aout_mixer_t) : aout_instance_t :=
  {| p_mixer := m;
     mixer_format := mixer_format p_aout;
     mixer_multiplier := mixer_multiplier p_aout;
     pp_inputs := pp_inputs p_aout;
     output := output p_aout |}.

Definition aout_with_streams (p_aout : aout_instance_t)
  (ins : list aout_input_t) (out : aout_output_t) : aout_instance_t :=
  {| p_mixer := p_mixer p_aout;
     mixer_format := mixer_format p_aout;
     mixer_multiplier := mixer_multiplier p_aout;
     pp_inputs := ins;
     output := out |}.

(** Modelled from the spec: [aout_FifoSet] is defined outside [mixer.c].
    The spec has it clear the FIFO (drain and free) and set its [end_date]
    to the date given; the drained chain is returned as freed. *)
Definition aout_FifoSet (f : aout_fifo_t) (d : mtime_t)
  : aout_fifo_t * list aout_buffer_t :=
  ({| p_first := []; pp_last := Last_at_first;
      end_date := date_Set (end_date f) d |}, p_first f).

(** Modelled from the spec: [aout_FifoPop] is defined outside [mixer.c].
    It unlinks the head; a queue with a tail pointer has it rewound to the
    head field when the last buffer leaves.  [pop_last p_next l] is the
    tail pointer after a pop that leaves the chain [p_next]. *)
Definition pop_last (p_next : list aout_buffer_t) (l : pp_last_t)
  : pp_last_t :=
  match p_next with
  | [] => Last_at_first
  | _ :: _ => l
  end.

Definition aout_FifoPop (f : aout_fifo_t)
  : option aout_buffer_t * aout_fifo_t :=
  match p_first f with
  | [] => (None, f)
  | b :: p_next => (Some b, fifo_with_first f p_next (pop_last p_next (pp_last f)))
  end.

(** ** [aout_MixerNew], [aout_MixerDelete], [aout_MixerMultiplierSet] *)

(** Lines 53-58: the mixer object as [aout_MixerNew] fills it in before
    it looks for a module.  [input] is the address of the stream of
    [pp_inputs[0]]: the index [0], whatever [i_nb_inputs] is. *)
Definition new_mixer_object (p_aout : aout_instance_t) : aout_mixer_t :=
  {| fmt := mixer_format p_aout;
     b_alloc := true;
     multiplier := mixer_multiplier p_aout;
     input := 0%nat;
     mix := None;
     sys := None;
     module := None |}.

Section Attach.

(** [vlc_object_create] either yields an object or fails. *)
Variable vlc_object_create : bool.

(** [module_need]: the plug-in resolver.  On success it gives the module
    handle and the mixer object as the module's activation left it. *)
Variable module_need : aout_mixer_t -> option (Z * aout_mixer_t).

(** [None] is the failed [assert( !p_aout->p_mixer )]. *)
Definition aout_MixerNew (p_aout : aout_instance_t)
  : option (Z * aout_instance_t) :=
  match p_mixer p_aout with
  | Some _ => None
  | None =>
    if negb vlc_object_create then Some (VLC_EGENERIC, p_aout)
    else
      match module_need (new_mixer_object p_aout) with
      | None => Some (VLC_EGENERIC, p_aout)
      | Some (handle, m) =>
        Some (VLC_SUCCESS,
              aout_with_mixer p_aout
                (Some {| fmt := fmt m; b_alloc := b_alloc m;
                         multiplier := multiplier m; input := input m;
                         mix := mix m; sys := sys m;
                         module := Some handle |}))
      end
  end.

End Attach.


Section Attach_checked.

Variable vlc_object_create : bool.
Variable module_need : aout_mixer_t -> option (Z * aout_mixer_t).


End Attach_checked.

Definition aout_MixerDelete (p_aout : aout_instance_t) : aout_instance_t :=
  match p_mixer p_aout with
  | None => p_aout
  | Some _ => aout_with_mixer p_aout None
  end.

Definition aout_MixerMultiplierSet (p_aout : aout_instance_t)
  (f_multiplier : Z) : aout_instance_t :=
  {| p_mixer :=
       match p_mixer p_aout with
       | None => None
       | Some m =>
         Some {| fmt := fmt m; b_alloc := b_alloc m;
                 multiplier := f_multiplier; input := input m;
                 mix := mix m; sys := sys m; module := module m |}
       end;
     mixer_format := mixer_format p_aout;
     mixer_multiplier := f_multiplier;
     pp_inputs := pp_inputs p_aout;
     output := output p_aout |}.

(** ** [MixBuffer] *)

(** The result of one call: [-1] is [NotReady], [0] is [Ready] and carries
    the block handed to [aout_OutputPlay]. *)
Inductive tick_t :=
| NotReady
| Ready (p_outbuf : aout_buffer_t).

(** Lines 111-116: walk a chain and free every block of it. *)
Fixpoint free_chain (chain : list aout_buffer_t) : list aout_buffer_t :=
  match chain with
  | [] => []
  | buf :: p_next => buf :: free_chain p_next
  end.

(** Lines 106-117: the loop of the path without a mixer.  Nothing but the
    local [p_buffer] is assigned, so the inputs are as before; the result
    is the list of freed blocks. *)
Fixpoint free_incoming (ins : list aout_input_t) : list aout_buffer_t :=
  match ins with
  | [] => []
  | p_input :: rest =>
    if b_error p_input then free_incoming rest
    else free_chain (p_first (fifo (mixer p_input))) ++ free_incoming rest
  end.

(** Lines 127-140: read the date of the next buffer, and clear the output
    FIFO when that date is in the past.  Gives [start_date],
    [exact_start_date], the output and the freed blocks. *)
Definition read_output_clock (now : mtime_t) (out : aout_output_t)
  : mtime_t * date_t * aout_output_t * list aout_buffer_t :=
  let exact_start_date := end_date (output_fifo out) in
  let start_date := date_Get exact_start_date in
  if negb (start_date =? 0) && (start_date <? now) then
    let '(f, fr) := aout_FifoSet (output_fifo out) 0 in
    (0, date_Set exact_start_date 0,
     {| output_fifo := f; output_i_nb_samples := output_i_nb_samples out |},
     fr)
  else (start_date, exact_start_date, out, []).

(** Lines 158-167: pop and free the head while its [i_pts] is before
    [mdate()].  Works on the chain [p_first], the tail pointer and [begin];
    gives them back with the freed blocks. *)
Fixpoint trash_late (now : mtime_t) (chain : list aout_buffer_t)
  (l : pp_last_t) (bg : option Z)
  : list aout_buffer_t * pp_last_t * option Z * list aout_buffer_t :=
  match chain with
  | [] => ([], l, bg, [])
  | buf :: p_next =>
    if i_pts buf <? now then
      let '(q, l', bg', fr) := trash_late now p_next (pop_last p_next l) None in
      (q, l', bg', buf :: fr)
    else (chain, l, bg, [])
  end.

(** The state of the loop of lines 149-179 when it is left: [ss_break] says
    it was left by [break], that is with [i < i_nb_inputs]. *)
Record start_scan_t := mk_start_scan {
  ss_break : bool;
  ss_start_date : mtime_t;
  ss_exact : date_t;
  ss_inputs : list aout_input_t;
  ss_freed : list aout_buffer_t
}.

(** Lines 149-179: find the latest start date available. *)
Fixpoint find_start_date (now start_date : mtime_t) (exact : date_t)
  (ins : list aout_input_t) : start_scan_t :=
  match ins with
  | [] => mk_start_scan false start_date exact [] []
  | p_input :: rest =>
    if b_error p_input || b_paused p_input then
      let r := find_start_date now start_date exact rest in
      mk_start_scan (ss_break r) (ss_start_date r) (ss_exact r)
                    (p_input :: ss_inputs r) (ss_freed r)
    else
      let '(q, l, bg, fr) :=
        trash_late now (p_first (fifo (mixer p_input)))
                   (pp_last (fifo (mixer p_input))) (begin (mixer p_input)) in
      let p_input' := input_with_stream p_input q l bg in
      match q with
      | [] => mk_start_scan true start_date exact (p_input' :: rest) fr
      | buf :: _ =>
        let later := (start_date =? 0) || (start_date <? i_pts buf) in
        let sd := if later then i_pts buf else start_date in
        let ex := if later then date_Set exact (i_pts buf) else exact in
        let r := find_start_date now sd ex rest in
        mk_start_scan (ss_break r) (ss_start_date r) (ss_exact r)
                      (p_input' :: ss_inputs r) (fr ++ ss_freed r)
      end
  end.

(** Lines 215-226: free the head while it ends before [start_date - 1]. *)
Fixpoint past_drop (start_date : mtime_t) (chain : list aout_buffer_t)
  (bg : option Z)
  : list aout_buffer_t * option Z * list aout_buffer_t :=
  match chain with
  | [] => ([], bg, [])
  | buf :: p_next =>
    if i_pts buf + i_length buf <? start_date - 1 then
      let '(q, bg', fr) := past_drop start_date p_next None in
      (q, bg', buf :: fr)
    else (chain, bg, [])
  end.

(** Lines 244-256: follow the chain while it is contiguous and ends before
    [end_date].  Gives [b_drop_buffers], the blocks walked over and the
    chain at which the loop stopped ([[]] when it reached [NULL]). *)
Fixpoint contiguous (end_date prev_date : mtime_t)
  (chain : list aout_buffer_t)
  : bool * list aout_buffer_t * list aout_buffer_t :=
  match chain with
  | [] => (false, [], [])
  | buf :: p_next =>
    if negb (prev_date =? i_pts buf) then (true, [], chain)
    else if i_pts buf + i_length buf >=? end_date then (false, [], chain)
    else
      let '(d, walked, stop) :=
        contiguous end_date (i_pts buf + i_length buf) p_next in
      (d, buf :: walked, stop)
  end.

Definition inspect {A : Type} (a : A) : {b : A | a = b} :=
  exist _ a eq_refl.

(** Lines 234-269: check that there are enough samples, dropping what
    precedes a hole and starting again from the new head.  Gives the new
    [p_first], the chain at which [p_buffer] stands when the loop is left
    and the freed blocks ([freed] is what was freed before). *)
Equations? enough_samples (end_date : mtime_t) (chain : list aout_buffer_t)
  (freed : list aout_buffer_t)
  : list aout_buffer_t * list aout_buffer_t * list aout_buffer_t
  by wf (length chain) lt :=
enough_samples end_date [] freed := ([], [], freed);
enough_samples end_date (buf :: p_next) freed
  with (i_pts buf + i_length buf >=? end_date) := {
  | true => (buf :: p_next, buf :: p_next, freed)
  | false
    with inspect (contiguous end_date (i_pts buf + i_length buf) p_next) := {
    | exist _ (true, walked, stop) Heq =>
      enough_samples end_date stop (freed ++ buf :: walked)
    | exist _ (false, walked, stop) Heq =>
      (buf :: p_next, stop, freed) } }.
Proof.
  (* the chain at which [contiguous] stops is no longer than the chain it
     is given *)
  assert (Hlen : forall e c p,
            (length (contiguous e p c).2 <= length c)%nat).
  { intros e. induction c as [|b t IH]; intros p; simpl; [lia|].
    destruct (negb _); simpl; [lia|].
    destruct (_ >=? _); simpl; [lia|].
    specialize (IH (i_pts b + i_length b)).
    destruct (contiguous _ _ t) as [[d w] st]; simpl in *; lia. }
  match goal with
  | Heq : contiguous ?e ?p ?c = _ |- _ =>
    specialize (Hlen e c p); rewrite Heq in Hlen
  end.
  simpl in *; lia.
Qed.

(** What lines 273-313 do with the cursor. *)
Inductive cursor_t :=
| Cursor_set (bg : option Z)          (* go on with the next input *)
| Cursor_negative (bg : option Z).    (* output FIFO cleared, [break] *)

(** Lines 277-312, for the head [buf] and the cursor [bg].  The divisions
    of lines 280 and 299 trap in C when [i_frame_length] or
    [i_bytes_per_frame] is 0, where [Z.quot] gives 0: see
    [format_divides]. *)
Definition place_begin (f : audio_sample_format_t) (start_date : mtime_t)
  (buf : aout_buffer_t) (bg : option Z) : cursor_t :=
  let i_buffer0 :=
    Z.quot (Z.quot ((start_date - i_pts buf) * i_bytes_per_frame f * i_rate f)
                   (i_frame_length f))
           1000000 in
  let begin1 := match bg with None => p_buffer buf | Some a => a end in
  let mixer_nb_bytes := begin1 - p_buffer buf in
  if negb ((i_buffer0 + i_bytes_per_frame f >? mixer_nb_bytes)
           && (i_buffer0 <? i_bytes_per_frame f + mixer_nb_bytes))
  then
    let i_buffer1 :=
      Z.quot i_buffer0 (i_bytes_per_frame f) * i_bytes_per_frame f in
    if i_buffer1 <? 0 then Cursor_negative (Some begin1)
    else Cursor_set (Some (p_buffer buf + i_buffer1))
  else Cursor_set (Some begin1).

(** Lines 208-272 for one input: the loop is left ([Cover_stop]), or the
    FIFO covers the date range and [buf] is its head ([Cover_ok], with the
    new chain, the tail pointer, [begin] and the freed blocks). *)
Inductive cover_t :=
| Cover_stop (p_input : aout_input_t) (freed : list aout_buffer_t)
| Cover_ok (buf : aout_buffer_t) (p_next : list aout_buffer_t)
           (bg : option Z) (freed : list aout_buffer_t).

Definition cover_input (start_date end_date : mtime_t)
  (p_input : aout_input_t) : cover_t :=
  let l0 := pp_last (fifo (mixer p_input)) in
  match p_first (fifo (mixer p_input)) with
  | [] => Cover_stop p_input []
  | _ :: _ =>
    let '(q1, bg1, fr1) :=
      past_drop start_date (p_first (fifo (mixer p_input)))
                (begin (mixer p_input)) in
    match q1 with
    | [] => Cover_stop (input_with_stream p_input [] Last_at_first bg1) fr1
    | _ :: _ =>
      let '(q2, stop, fr2) := enough_samples end_date q1 fr1 in
      match stop, q2 with
      | [], _ => Cover_stop (input_with_stream p_input q2 l0 bg1) fr2
      | _ :: _, [] =>
        (* [p_first] is not [NULL] here, see [enough_samples_head] *)
        Cover_stop (input_with_stream p_input q2 l0 bg1) fr2
      | _ :: _, buf :: p_next => Cover_ok buf p_next bg1 fr2
      end
    end
  end.

(** One turn of the loop of lines 193-314 for an input that is not
    invalid: it goes on to the next input, or leaves the loop ([cleared]
    says the output FIFO was cleared first, lines 304-307). *)
Inductive scan_t :=
| Scan_next (p_input : aout_input_t) (freed : list aout_buffer_t)
| Scan_stop (p_input : aout_input_t) (freed : list aout_buffer_t)
            (cleared : bool).

(** Lines 208-313. *)
Definition scan_input (f : audio_sample_format_t)
  (start_date end_date : mtime_t) (p_input : aout_input_t) : scan_t :=
  let l0 := pp_last (fifo (mixer p_input)) in
  match cover_input start_date end_date p_input with
  | Cover_stop p fr => Scan_stop p fr false
  | Cover_ok buf p_next bg1 fr =>
    if AOUT_FMT_NON_LINEAR f
    then Scan_next (input_with_stream p_input (buf :: p_next) l0 bg1) fr
    else
      match place_begin f start_date buf bg1 with
      | Cursor_set bg =>
        Scan_next (input_with_stream p_input (buf :: p_next) l0 bg) fr
      | Cursor_negative bg =>
        Scan_stop (input_with_stream p_input (buf :: p_next) l0 bg) fr true
      end
  end.

(** The state of the loop of lines 193-314 when it is left. *)
Record scan_loop_t := mk_scan_loop {
  sl_break : bool;            (* left by [break]: [i < i_nb_inputs] *)
  sl_cleared : bool;          (* lines 304-307 ran *)
  sl_first_input : nat;       (* [i_first_input] *)
  sl_inputs : list aout_input_t;
  sl_freed : list aout_buffer_t
}.

(** Lines 193-314; [i] is the index of the head of [ins]. *)
Fixpoint scan_inputs (f : audio_sample_format_t)
  (start_date end_date : mtime_t) (i i_first_input : nat)
  (ins : list aout_input_t) : scan_loop_t :=
  match ins with
  | [] => mk_scan_loop false false i_first_input [] []
  | p_input0 :: rest =>
    let p_input :=
      input_with_invalid p_input0 (b_error p_input0 || b_paused p_input0) in
    if is_invalid (mixer p_input) then
      let r :=
        scan_inputs f start_date end_date (S i)
          (if Nat.eqb i_first_input i then S i_first_input else i_first_input)
          rest in
      mk_scan_loop (sl_break r) (sl_cleared r) (sl_first_input r)
                   (p_input :: sl_inputs r) (sl_freed r)
    else
      match scan_input f start_date end_date p_input with
      | Scan_stop p fr cleared =>
        mk_scan_loop true cleared i_first_input (p :: rest) fr
      | Scan_next p fr =>
        let r := scan_inputs f start_date end_date (S i) i_first_input rest in
        mk_scan_loop (sl_break r) (sl_cleared r) (sl_first_input r)
                     (p :: sl_inputs r) (fr ++ sl_freed r)
      end
  end.

(** Where lines 126-187 leave the call: at the [return -1] of line 185
    ([Start_break]), or at line 188 with the start date found
    ([Start_at]). *)
Inductive start_t :=
| Start_break (ins : list aout_input_t) (out : aout_output_t)
              (freed : list aout_buffer_t)
| Start_at (start_date : mtime_t) (exact_start_date : date_t)
           (ins : list aout_input_t) (out : aout_output_t)
           (freed : list aout_buffer_t).

(** Lines 126-187. *)
Definition start_of_tick (now : mtime_t) (p_aout : aout_instance_t)
  : start_t :=
  let '(start_date, exact_start_date, out, fr0) :=
    read_output_clock now (output p_aout) in
  if start_date =? 0 then
    let d := find_start_date now start_date exact_start_date
                             (pp_inputs p_aout) in
    if ss_break d then Start_break (ss_inputs d) out (fr0 ++ ss_freed d)
    else Start_at (ss_start_date d) (ss_exact d) (ss_inputs d) out
                  (fr0 ++ ss_freed d)
  else Start_at start_date exact_start_date (pp_inputs p_aout) out fr0.

(** Line 335 and lines 341-342 when the kernel does not allocate: the
    destination is the head of the first valid input's FIFO, so the dates
    are written into that queued block. *)
Definition stamp_head (p_input : aout_input_t) (pts len : mtime_t)
  : aout_input_t :=
  match p_first (fifo (mixer p_input)) with
  | [] => p_input
  | buf :: p_next =>
    input_with_stream p_input (buffer_with_dates buf pts len :: p_next)
                      (pp_last (fifo (mixer p_input))) (begin (mixer p_input))
  end.

(** The product of line 328 is taken in 32-bit unsigned arithmetic (the
    format's fields are 32-bit unsigned). *)
Definition UINT32_MOD : Z := 4294967296.

Section Host.

(** [block_Alloc], from the size in bytes; [None] is a failed allocation. *)
Variable block_Alloc : Z -> option aout_buffer_t.

(** [aout_OutputPlay]: what the output pipeline does with its FIFO and
    clock when it is handed a block. *)
Variable aout_OutputPlay : aout_output_t -> aout_buffer_t -> aout_output_t.

(** Lines 326-336: the destination block, and the inputs it may be part
    of.  The division of line 330 traps in C when [i_frame_length] is 0,
    where [Z.quot] gives 0: see [format_divides]. *)
Definition destination (m : aout_mixer_t) (out : aout_output_t)
  (i_first_input : nat) (ins : list aout_input_t) : option aout_buffer_t :=
  if b_alloc m then
    match block_Alloc
            (Z.quot ((output_i_nb_samples out * i_bytes_per_frame (fmt m))
                       mod UINT32_MOD)
                    (i_frame_length (fmt m))) with
    | Some blk => Some (buffer_with_samples blk (output_i_nb_samples out))
    | None => None
    end
  else
    match ins !! i_first_input with
    | Some p_input => head (p_first (fifo (mixer p_input)))
    | None => None
    end.

(** Lines 323-350, once both loops have run to their end. *)
Definition run_mixer (p_aout : aout_instance_t) (m : aout_mixer_t)
  (start_date end_date : mtime_t) (i_first_input : nat)
  (ins : list aout_input_t) (out : aout_output_t)
  (freed : list aout_buffer_t)
  : option (tick_t * aout_instance_t * list aout_buffer_t) :=
  match destination m out i_first_input ins with
  | None => Some (NotReady, aout_with_streams p_aout ins out, freed)
  | Some blk =>
    let p_outbuf := buffer_with_dates blk start_date (end_date - start_date) in
    let ins1 :=
      if b_alloc m then ins
      else
        match ins !! i_first_input with
        | Some p_input =>
          <[i_first_input := stamp_head p_input start_date
                                        (end_date - start_date)]> ins
        | None => ins
        end in
    match mix m with
    | None => None     (* a call through a null [mix] *)
    | Some kernel =>
      Some (Ready p_outbuf,
            aout_with_streams p_aout (kernel ins1 p_outbuf)
                              (aout_OutputPlay out p_outbuf),
            freed)
    end
  end.

(** Lines 188-350, from the start date on. *)
Definition mix_from (p_aout : aout_instance_t) (m : aout_mixer_t)
  (start_date : mtime_t) (exact_start_date : date_t)
  (ins : list aout_input_t) (out : aout_output_t)
  (freed : list aout_buffer_t)
  : option (tick_t * aout_instance_t * list aout_buffer_t) :=
  let exact_end := date_Increment exact_start_date (output_i_nb_samples out) in
  let end_date := date_Get exact_end in
  let r := scan_inputs (fmt m) start_date end_date 0 0 ins in
  let '(out1, fr_out) :=
    if sl_cleared r then
      let '(f, fr) := aout_FifoSet (output_fifo out) 0 in
      ({| output_fifo := f; output_i_nb_samples := output_i_nb_samples out |},
       fr)
    else (out, []) in
  if sl_break r || Nat.eqb (sl_first_input r) (length ins) then
    Some (NotReady, aout_with_streams p_aout (sl_inputs r) out1,
          freed ++ sl_freed r ++ fr_out)
  else
    run_mixer p_aout m start_date end_date (sl_first_input r) (sl_inputs r)
              out1 (freed ++ sl_freed r ++ fr_out).

(** [MixBuffer]: try to prepare one output buffer.  [None] stands for a
    call that does not return (a null [mix] is called). *)
Definition MixBuffer (now : mtime_t) (p_aout : aout_instance_t)
  : option (tick_t * aout_instance_t * list aout_buffer_t) :=
  match p_mixer p_aout with
  | None =>
    (* lines 102-120 *)
    Some (NotReady, p_aout, free_incoming (pp_inputs p_aout))
  | Some m =>
    match start_of_tick now p_aout with
    | Start_break ins out fr =>
      (* lines 181-186 *)
      Some (NotReady, aout_with_streams p_aout ins out, fr)
    | Start_at start_date exact_start_date ins out fr =>
      mix_from p_aout m start_date exact_start_date ins out fr
    end
  end.

End Host.

(** ** [aout_MixerRun] *)

Section Run.

Variable block_Alloc : Z -> option aout_buffer_t.
Variable aout_OutputPlay : aout_output_t -> aout_buffer_t -> aout_output_t.

(** How a run of [aout_MixerRun] stands: it has returned, or it is still
    in its loop when the clock readings given to it are used up, or it
    called a null [mix]. *)
Inductive run_end_t :=
| Returned
| Looping
| Crashed.

Record run_t := mk_run {
  run_end : run_end_t;
  run_aout : aout_instance_t;
  run_played : list aout_buffer_t;   (* handed to [aout_OutputPlay] *)
  run_freed : list aout_buffer_t
}.

(** Lines 358-361: call [MixBuffer] until it returns [-1].  The calls read
    the clock as [clock] says, one reading for each call. *)
Fixpoint aout_MixerRun (clock : list mtime_t) (p_aout : aout_instance_t)
  : run_t :=
  match clock with
  | [] => mk_run Looping p_aout [] []
  | now :: later =>
    match MixBuffer block_Alloc aout_OutputPlay now p_aout with
    | None => mk_run Crashed p_aout [] []
    | Some (NotReady, p_aout', fr) => mk_run Returned p_aout' [] fr
    | Some (Ready p_outbuf, p_aout', fr) =>
      let r := aout_MixerRun later p_aout' in
      mk_run (run_end r) (run_aout r) (p_outbuf :: run_played r)
             (fr ++ run_freed r)
    end
  end.

End Run.

(** ** Notions used by the statements *)

(** Cursor validity: a non-null [begin] lies within the payload of the
    head of the input's FIFO. *)
Definition cursor_valid (p_input : aout_input_t) : bool :=
  match begin (mixer p_input) with
  | None => true
  | Some a =>
    match p_first (fifo (mixer p_input)) with
    | [] => false
    | buf :: _ => (p_buffer buf <=? a) && (a <=? p_buffer buf + i_buffer buf)
    end
  end.

(** An input is valid in a call when it is neither in error nor paused. *)
Definition valid_input (p_input : aout_input_t) : bool :=
  negb (b_error p_input || b_paused p_input).

(** The date the output clock reads. *)
Definition output_clock (p_aout : aout_instance_t) : mtime_t :=
  date_Get (end_date (output_fifo (output p_aout))).

(** A block that ends before [start_date - 1] (line 216). *)
Definition past (start_date : mtime_t) (buf : aout_buffer_t) : Prop :=
  i_pts buf + i_length buf < start_date - 1.

(** The output after lines 304-307, when they ran. *)
Definition output_after (cleared : bool) (out : aout_output_t)
  : aout_output_t :=
  if cleared then
    {| output_fifo := (aout_FifoSet (output_fifo out) 0).1;
       output_i_nb_samples := output_i_nb_samples out |}
  else out.

(** What remains of a chain once its leading blocks dated before [now]
    are gone (the test of line 159). *)
Fixpoint drop_late (now : mtime_t) (chain : list aout_buffer_t)
  : list aout_buffer_t :=
  match chain with
  | [] => []
  | buf :: p_next => if i_pts buf <? now then drop_late now p_next else chain
  end.

(** The inputs as the loop of lines 149-179 leaves them when it runs to
    its end: an invalid input is as before, a valid one has lost its late
    leading blocks. *)
Definition pruned (now : mtime_t) (p_input p_input' : aout_input_t) : Prop :=
  if valid_input p_input then
    b_error p_input' = b_error p_input
    /\ b_paused p_input' = b_paused p_input
    /\ p_first (fifo (mixer p_input'))
       = drop_late now (p_first (fifo (mixer p_input)))
  else p_input' = p_input.

(** The head dates of the valid inputs. *)
Fixpoint head_dates (ins : list aout_input_t) : list mtime_t :=
  match ins with
  | [] => []
  | p_input :: rest =>
    if valid_input p_input then
      match p_first (fifo (mixer p_input)) with
      | [] => head_dates rest
      | buf :: _ => i_pts buf :: head_dates rest
      end
    else head_dates rest
  end.

(** Modelled from the spec: the kernel behind [mix] is a plug-in outside
    [mixer.c].  By its contract it reads the head buffers of the inputs
    that are not marked invalid: the stream of an input marked invalid is
    as before after the call. *)
Definition kernel_spares_invalid (kernel : mix_fn) : Prop :=
  forall ins p_outbuf j p_input,
    ins !! j = Some p_input ->
    is_invalid (mixer p_input) = true ->
    exists p_input',
      kernel ins p_outbuf !! j = Some p_input'
      /\ fifo (mixer p_input') = fifo (mixer p_input)
      /\ begin (mixer p_input') = begin (mixer p_input).

(** The ideal offset of [start_date] in the payload of [buf], in bytes,
    with C's division. *)
Definition ideal_offset (f : audio_sample_format_t) (start_date : mtime_t)
  (buf : aout_buffer_t) : Z :=
  Z.quot ((start_date - i_pts buf) * i_bytes_per_frame f * i_rate f)
         (i_frame_length f * 1000000).

(** Where the cursor stands: [begin], or the start of the payload when
    [begin] is null. *)
Definition cursor_of (buf : aout_buffer_t) (bg : option Z) : Z :=
  match bg with
  | None => p_buffer buf
  | Some a => a
  end.

(** The test of lines 290-293, negated: the ideal offset is less than one
    frame away from the cursor's offset. *)
Definition near (i_buffer mixer_nb_bytes bytes_per_frame : Z) : Prop :=
  mixer_nb_bytes - bytes_per_frame < i_buffer
  < mixer_nb_bytes + bytes_per_frame.

(** Lines 299-300: a multiple of the frame size, by C's division. *)
Definition round_to_frame (i_buffer bytes_per_frame : Z) : Z :=
  Z.quot i_buffer bytes_per_frame * bytes_per_frame.

(** The spec's words: rounded down to a multiple of the frame size. *)
Definition round_down_to_frame (i_buffer bytes_per_frame : Z) : Z :=
  (i_buffer / bytes_per_frame) * bytes_per_frame.

(** Modelled from the spec: [aout_OutputPlay] is defined outside
    [mixer.c].  The spec has it push the block to the output FIFO, whose
    [end_date] is the date of the next sample the output expects: once a
    block is handed over, the date at which the block ends. *)
Definition play_sets_clock
  (play : aout_output_t -> aout_buffer_t -> aout_output_t) : Prop :=
  forall out blk,
    date_Get (end_date (output_fifo (play out blk)))
    = i_pts blk + i_length blk.

(** A call resets the clock when the output date is late (lines 130-140)
    or when a cursor would be negative (lines 301-309). *)
Definition clock_reset (now : mtime_t) (p_aout : aout_instance_t) : bool :=
  match p_mixer p_aout with
  | None => false
  | Some m =>
    (negb (output_clock p_aout =? 0) && (output_clock p_aout <? now))
    || match start_of_tick now p_aout with
       | Start_break _ _ _ => false
       | Start_at start_date exact ins out _ =>
         sl_cleared
           (scan_inputs (fmt m) start_date
              (date_Get (date_Increment exact (output_i_nb_samples out)))
              0 0 ins)
       end
  end.

Section Idle.

Variable block_Alloc : Z -> option aout_buffer_t.
Variable aout_OutputPlay : aout_output_t -> aout_buffer_t -> aout_output_t.

(** What may happen between two outputs with no clock reset: anything
    that leaves the date of the output FIFO alone (producers queue
    buffers, inputs are paused, the device takes blocks), and calls of
    [MixBuffer] that return [-1] without a reset. *)
Inductive idle : aout_instance_t -> aout_instance_t -> Prop :=
| idle_refl p_aout : idle p_aout p_aout
| idle_outside p_aout p_aout1 p_aout2 :
    end_date (output_fifo (output p_aout1))
    = end_date (output_fifo (output p_aout)) ->
    idle p_aout1 p_aout2 ->
    idle p_aout p_aout2
| idle_tick now p_aout p_aout1 freed p_aout2 :
    MixBuffer block_Alloc aout_OutputPlay now p_aout
    = Some (NotReady, p_aout1, freed) ->
    clock_reset now p_aout = false ->
    idle p_aout1 p_aout2 ->
    idle p_aout p_aout2.

End Idle.





(** The divisions of lines 280, 299 and 330 have a divisor above 0: the
    frame length and, for a linear format, the frame size (both fields are
    unsigned).  With a divisor of 0 the code traps. *)
Definition format_divides (f : audio_sample_format_t) : Prop :=
  0 < i_frame_length f /\ (is_linear f = true -> 0 < i_bytes_per_frame f).

(** ** Notions used by the further properties *)

(** The gain is in step: a bound mixer carries the multiplier of the
    instance. *)
Definition multiplier_in_step (p_aout : aout_instance_t) : Prop :=
  forall m, p_mixer p_aout = Some m -> multiplier m = mixer_multiplier p_aout.

(** A chain that goes on from [prev_date] with no hole up to a block that
    ends at or after [end_date]. *)
Fixpoint covers_from (end_date prev_date : mtime_t)
  (chain : list aout_buffer_t) : bool :=
  match chain with
  | [] => false
  | buf :: p_next =>
    (prev_date =? i_pts buf)
    && ((end_date <=? i_pts buf + i_length buf)
        || covers_from end_date (i_pts buf + i_length buf) p_next)
  end.

(** A chain whose head ends at or after [end_date], or is followed with
    no hole by blocks up to one that does. *)
Definition covers (end_date : mtime_t) (chain : list aout_buffer_t) : bool :=
  match chain with
  | [] => false
  | buf :: p_next =>
    (end_date <=? i_pts buf + i_length buf)
    || covers_from end_date (i_pts buf + i_length buf) p_next
  end.

(** The inputs as the loop of lines 193-314 leaves them when none is
    valid: line 201 has marked each of them. *)
Definition all_marked (ins : list aout_input_t) : list aout_input_t :=
  map (fun p_input => input_with_invalid p_input true) ins.

(** The tail pointer [l] of a queue once the leading blocks [d] have left
    it and [q] remains: rewound to the head field when the queue was
    emptied, as it was otherwise. *)
Definition tail_after (l : pp_last_t) (d q : list aout_buffer_t)
  : pp_last_t :=
  match d, q with
  | _ :: _, [] => Last_at_first
  | _, _ => l
  end.

(** [p_input'] is [p_input] with the leading blocks [d] of its queue
    removed: same flags, same date, the tail pointer still right. *)
Definition heads_removed (p_input p_input' : aout_input_t)
  (d : list aout_buffer_t) : Prop :=
  b_error p_input' = b_error p_input
  /\ b_paused p_input' = b_paused p_input
  /\ p_first (fifo (mixer p_input)) = d ++ p_first (fifo (mixer p_input'))
  /\ pp_last (fifo (mixer p_input'))
     = tail_after (pp_last (fifo (mixer p_input))) d
                  (p_first (fifo (mixer p_input')))
  /\ end_date (fifo (mixer p_input')) = end_date (fifo (mixer p_input)).

(** The instance with its output FIFO cleared and the output date set to
    [0], as lines 137-139 leave it. *)
Definition flushed (p_aout : aout_instance_t) : aout_instance_t :=
  aout_with_streams p_aout (pp_inputs p_aout)
                    (output_after true (output p_aout)).

(** The result of a call, with [fr] freed before it. *)
Definition freed_before (fr : list aout_buffer_t)
  (res : option (tick_t * aout_instance_t * list aout_buffer_t))
  : option (tick_t * aout_instance_t * list aout_buffer_t) :=
  match res with
  | Some (t, p_aout, freed) => Some (t, p_aout, fr ++ freed)
  | None => None
  end.

(** What can not be mixed: there is no mixer, no valid input, or a valid
    input whose FIFO is empty. *)
Definition nothing_to_mix (p_aout : aout_instance_t) : Prop :=
  p_mixer p_aout = None
  \/ Forall (fun p_input => valid_input p_input = false) (pp_inputs p_aout)
  \/ exists p_input,
       p_input ∈ pp_inputs p_aout /\ valid_input p_input = true
       /\ p_first (fifo (mixer p_input)) = [].

(** Every queued block ends at or before [T]. *)
Definition ends_by (T : mtime_t) (ins : list aout_input_t) : Prop :=
  forall p_input buf,
    p_input ∈ ins -> buf ∈ p_first (fifo (mixer p_input)) ->
    i_pts buf + i_length buf <= T.

(** Modelled from the spec: the kernel behind [mix] reads the head buffers
    of the inputs and consumes them; buffers are queued by the producers
    only.  A block that is queued after the call was queued before it. *)
Definition kernel_queues_nothing (kernel : mix_fn) : Prop :=
  forall ins p_outbuf p_input' buf,
    p_input' ∈ kernel ins p_outbuf ->
    buf ∈ p_first (fifo (mixer p_input')) ->
    exists p_input,
      p_input ∈ ins /\ buf ∈ p_first (fifo (mixer p_input)).

(** Modelled from the spec: [aout_OutputPlay] pushes the block to the
    output FIFO; the rate at which the date of the FIFO advances and the
    size of the output blocks are as before. *)
Definition play_keeps_rate
  (play : aout_output_t -> aout_buffer_t -> aout_output_t) : Prop :=
  forall out blk,
    i_divider_num (end_date (output_fifo (play out blk)))
    = i_divider_num (end_date (output_fifo out))
    /\ output_i_nb_samples (play out blk) = output_i_nb_samples out.

(** The output advances by at least one microsecond for each block: the
    rate of its date is positive and a block is not shorter than that. *)
Definition output_advances (out : aout_output_t) : Prop :=
  0 < i_divider_num (end_date (output_fifo out))
    <= output_i_nb_samples out * 1000000.

(** ** Concrete formats, blocks and hosts *)

Definition fmt_pcm : audio_sample_format_t :=
  {| i_rate := 48000; i_bytes_per_frame := 4; i_frame_length := 1;
     is_linear := true |}.

Definition fmt_spdif : audio_sample_format_t :=
  {| i_rate := 48000; i_bytes_per_frame := 6144; i_frame_length := 1536;
     is_linear := false |}.

Definition clock_at (d : mtime_t) : date_t :=
  {| date := d; i_divider_num := 48000; i_remainder := 0 |}.

(** A kernel that leaves the input streams as they are. *)
Definition kernel_idle : mix_fn := fun ins _ => ins.

Definition mixer_of (f : audio_sample_format_t) (alloc : bool)
  : aout_mixer_t :=
  {| fmt := f; b_alloc := alloc; multiplier := 0; input := 0%nat;
     mix := Some kernel_idle; sys := None; module := Some 1 |}.

(** An allocator that never fails: a block of the size asked, at a fixed
    address. *)
Definition alloc_block (size : Z) : option aout_buffer_t :=
  Some {| i_pts := 0; i_length := 0; i_nb_samples := 0;
          p_buffer := 900000; i_buffer := size |}.

(** An output that queues the block and sets its clock to the end of the
    block. *)
Definition play_block (out : aout_output_t) (blk : aout_buffer_t)
  : aout_output_t :=
  {| output_fifo :=
       {| p_first := p_first (output_fifo out) ++ [blk];
          pp_last := Last_at_next (p_buffer blk);
          end_date :=
            date_Set (end_date (output_fifo out)) (i_pts blk + i_length blk) |};
     output_i_nb_samples := output_i_nb_samples out |}.

Definition output_at (d : mtime_t) : aout_output_t :=
  {| output_fifo :=
       {| p_first := []; pp_last := Last_at_first; end_date := clock_at d |};
     output_i_nb_samples := 1024 |}.

Definition input_of (err paused : bool) (q : list aout_buffer_t)
  (bg : option Z) : aout_input_t :=
  {| b_error := err; b_paused := paused;
     mixer := {| is_invalid := false;
                 fifo := {| p_first := q; pp_last := Last_at_first;
                            end_date := clock_at 0 |};
                 begin := bg |} |}.

Definition aout_of (m : option aout_mixer_t) (ins : list aout_input_t)
  (out : aout_output_t) : aout_instance_t :=
  {| p_mixer := m; mixer_format := fmt_pcm; mixer_multiplier := 0;
     pp_inputs := ins; output := out |}.

(** A resolver that finds the module [7], whose activation sets [mix]. *)
Definition resolve_idle (m : aout_mixer_t) : option (Z * aout_mixer_t) :=
  Some (7, {| fmt := fmt m; b_alloc := b_alloc m; multiplier := multiplier m;
              input := input m; mix := Some kernel_idle; sys := sys m;
              module := module m |}).

(** A resolver that finds no module. *)
Definition resolve_none (m : aout_mixer_t) : option (Z * aout_mixer_t) := None.

(** A block of 1024 samples at 48 kHz, dated [pts], with its payload at
    [addr]. *)
Definition pcm_block (pts : mtime_t) (addr : Z) : aout_buffer_t :=
  {| i_pts := pts; i_length := 21333; i_nb_samples := 1024;
     p_buffer := addr; i_buffer := 4096 |}.

(** One input whose first block is late. *)
Definition aout_stale_head : aout_instance_t :=
  aout_of (Some (mixer_of fmt_pcm true))
          [input_of false false
                    [pcm_block 50000 10000; pcm_block 200000 20000] None]
          (output_at 0).

(** Two inputs with a block dated 100000 each; the second one is paused
    and has a cursor.  The kernel mixes in place. *)
Definition aout_one_paused : aout_instance_t :=
  aout_of (Some (mixer_of fmt_pcm false))
          [input_of false false [pcm_block 100000 10000] None;
           input_of false true [pcm_block 100000 20000] (Some 20004)]
          (output_at 0).

(** A block of 10 ms (480 samples) dated 100000, with its payload at
    10000. *)
Definition short_block : aout_buffer_t :=
  {| i_pts := 100000; i_length := 10000; i_nb_samples := 480;
     p_buffer := 10000; i_buffer := 1920 |}.

(** An input holding [short_block] and, after a hole of 10 ms, a second
    block; its cursor stands 2 ms (384 bytes) into the first block. *)
Definition input_with_hole : aout_input_t :=
  input_of false false [short_block; pcm_block 120000 20000] (Some 10384).

(** An input holding [short_block], all of it consumed, and after a hole
    of 10 microseconds a second block. *)
Definition input_with_small_hole : aout_input_t :=
  input_of false false [short_block; pcm_block 110010 20000] (Some 11920).

(** A cold start: the output date is not set, one input holds three
    contiguous blocks. *)
Definition aout_cold_start : aout_instance_t :=
  aout_of (Some (mixer_of fmt_pcm true))
          [input_of false false
                    [pcm_block 100000 10000; pcm_block 121333 20000;
                     pcm_block 142666 30000] None]
          (output_at 0).

(** The instance after one, and after two calls of [MixBuffer]. *)
Definition aout_after_first : aout_instance_t :=
  Eval vm_compute in
    match MixBuffer alloc_block play_block 90000 aout_cold_start with
    | Some (_, p_aout, _) => p_aout
    | None => aout_cold_start
    end.

Definition aout_after_second : aout_instance_t :=
  Eval vm_compute in
    match MixBuffer alloc_block play_block 95000 aout_after_first with
    | Some (_, p_aout, _) => p_aout
    | None => aout_after_first
    end.

(** * Properties *)

(** ** [aout_MixerNew] *)

(** C8. Attach failure atomicity: when [aout_MixerNew] cannot create the
    mixer object or finds no module for it, it returns [VLC_EGENERIC] and
    leaves the instance as it was, so [p_mixer] is still null; [p_mixer] is
    non-null afterwards exactly when [VLC_SUCCESS] is returned. *)
Theorem aout_MixerNew_failure_keeps_unbound
  (vlc_object_create : bool)
  (module_need : aout_mixer_t -> option (Z * aout_mixer_t))
  (p_aout : aout_instance_t) :
  p_mixer p_aout = None ->
  (vlc_object_create = false \/ module_need (new_mixer_object p_aout) = None ->
   aout_MixerNew vlc_object_create module_need p_aout
   = Some (VLC_EGENERIC, p_aout))
  /\ (forall code p_aout',
        aout_MixerNew vlc_object_create module_need p_aout
        = Some (code, p_aout') ->
        (code = VLC_EGENERIC /\ p_aout' = p_aout /\ p_mixer p_aout' = None
         /\ (vlc_object_create = false
             \/ module_need (new_mixer_object p_aout) = None))
        \/ (code = VLC_SUCCESS /\ is_Some (p_mixer p_aout')
            /\ vlc_object_create = true
            /\ is_Some (module_need (new_mixer_object p_aout)))).
Proof.
  intros Hnull. unfold aout_MixerNew. rewrite Hnull. split.
  - intros [-> | Hnone]; simpl; [reflexivity|].
    destruct vlc_object_create; simpl; [|reflexivity].
    rewrite Hnone. reflexivity.
  - intros code p_aout'.
    destruct vlc_object_create; simpl.
    + destruct (module_need (new_mixer_object p_aout)) as [[handle m]|] eqn:Hm;
        intros H; inversion H; subst; clear H.
      * right. repeat split; eauto.
      * left. repeat split; auto.
    + intros H; inversion H; subst. left. repeat split; auto.
Qed.

Lemma aout_MixerNew_failure_keeps_unbound_witness :
  aout_MixerNew true resolve_none (aout_of None [] (output_at 0))
  = Some (VLC_EGENERIC, aout_of None [] (output_at 0)).
Proof.
  apply (aout_MixerNew_failure_keeps_unbound true resolve_none
           (aout_of None [] (output_at 0)) eq_refl).
  right. reflexivity.
Defined.



(** ** [MixBuffer]: the path without a mixer *)

Lemma MixBuffer_without_mixer alloc play now p_aout :
  p_mixer p_aout = None ->
  MixBuffer alloc play now p_aout
  = Some (NotReady, p_aout, free_incoming (pp_inputs p_aout)).
Proof. intros H. unfold MixBuffer. rewrite H. reflexivity. Qed.

Lemma free_chain_id chain : free_chain chain = chain.
Proof. induction chain as [|b t IH]; simpl; congruence. Qed.

Lemma free_incoming_elem blk ins :
  blk ∈ free_incoming ins
  <-> exists p_input, p_input ∈ ins /\ b_error p_input = false
                      /\ blk ∈ p_first (fifo (mixer p_input)).
Proof.
  induction ins as [|p rest IH]; simpl.
  - split; [intros H; inversion H | intros (p & H & _); inversion H].
  - destruct (b_error p) eqn:He.
    + rewrite IH. split.
      * intros (q & Hq & H1 & H2). exists q. split; [right; exact Hq | auto].
      * intros (q & Hq & H1 & H2). apply elem_of_cons in Hq as [-> | Hq].
        -- congruence.
        -- exists q; auto.
    + rewrite elem_of_app, free_chain_id, IH. split.
      * intros [H | (q & Hq & H1 & H2)].
        -- exists p. split; [left | auto].
        -- exists q. split; [right; exact Hq | auto].
      * intros (q & Hq & H1 & H2). apply elem_of_cons in Hq as [-> | Hq].
        -- left; exact H2.
        -- right; exists q; auto.
Qed.

(** ** Packets in the past *)

Lemma past_drop_spec start_date chain bg :
  exists dropped kept,
    past_drop start_date chain bg
    = (kept, match dropped with [] => bg | _ :: _ => None end, dropped)
    /\ chain = dropped ++ kept
    /\ Forall (past start_date) dropped
    /\ match kept with
       | [] => True
       | buf :: _ => ~ past start_date buf
       end.
Proof.
  revert bg; induction chain as [|buf p_next IH]; intros bg; simpl.
  - exists [], []. repeat split; auto.
  - unfold past in *.
    destruct (Z.ltb_spec (i_pts buf + i_length buf) (start_date - 1))
      as [Hlt|Hge].
    + destruct (IH None) as (dropped & kept & Heq & Happ & Hall & Hkept).
      rewrite Heq. exists (buf :: dropped), kept. simpl.
      repeat split; auto.
      * destruct dropped; reflexivity.
      * congruence.
    + exists [], (buf :: p_next). simpl. repeat split; auto. lia.
Qed.


Lemma scan_inputs_app f sd ed pre rest i k :
  let r1 := scan_inputs f sd ed i k pre in
  let r := scan_inputs f sd ed i k (pre ++ rest) in
  if sl_break r1 then
    sl_break r = true /\ sl_cleared r = sl_cleared r1
    /\ sl_first_input r = sl_first_input r1
    /\ sl_inputs r = sl_inputs r1 ++ rest /\ sl_freed r = sl_freed r1
  else
    let r2 := scan_inputs f sd ed (i + length pre) (sl_first_input r1) rest in
    sl_break r = sl_break r2 /\ sl_cleared r = sl_cleared r2
    /\ sl_first_input r = sl_first_input r2
    /\ sl_inputs r = sl_inputs r1 ++ sl_inputs r2
    /\ sl_freed r = sl_freed r1 ++ sl_freed r2.
Proof.
  revert i k. induction pre as [|p pre IH]; intros i k; simpl.
  - replace (i + 0)%nat with i by lia. repeat split; reflexivity.
  - destruct (b_error p || b_paused p) eqn:Hinv; simpl.
    + specialize (IH (S i) (if Nat.eqb k i then S k else k)). simpl in IH.
      destruct (sl_break (scan_inputs f sd ed (S i) _ pre)) eqn:Hb.
      * destruct IH as (-> & -> & -> & -> & ->). repeat split; reflexivity.
      * replace (i + S (length pre))%nat with (S i + length pre)%nat by lia.
        destruct IH as (-> & -> & -> & -> & ->). repeat split; reflexivity.
    + destruct (scan_input f sd ed _) as [p' fr | p' fr c]; simpl.
      * specialize (IH (S i) k). simpl in IH.
        destruct (sl_break (scan_inputs f sd ed (S i) k pre)) eqn:Hb.
        -- destruct IH as (-> & -> & -> & -> & ->). repeat split; reflexivity.
        -- replace (i + S (length pre))%nat with (S i + length pre)%nat by lia.
           destruct IH as (-> & -> & -> & -> & ->).
           rewrite app_assoc. repeat split; reflexivity.
      * repeat split; reflexivity.
Qed.

Lemma mix_from_break alloc play p_aout m sd ex ins out fr0 :
  let r := scan_inputs (fmt m) sd
             (date_Get (date_Increment ex (output_i_nb_samples out))) 0 0 ins in
  sl_break r = true ->
  mix_from alloc play p_aout m sd ex ins out fr0
  = Some (NotReady,
          aout_with_streams p_aout (sl_inputs r) (output_after (sl_cleared r) out),
          fr0 ++ sl_freed r
              ++ (if sl_cleared r then p_first (output_fifo out) else [])).
Proof.
  intros r Hb. unfold mix_from. fold r. rewrite Hb. simpl.
  unfold output_after. destruct (sl_cleared r); reflexivity.
Qed.


Lemma scan_inputs_length f sd ed i k ins :
  length (sl_inputs (scan_inputs f sd ed i k ins)) = length ins.
Proof.
  revert i k; induction ins as [|q ins IH]; intros i k; simpl; [reflexivity|].
  destruct (b_error q || b_paused q); simpl.
  - f_equal. apply IH.
  - destruct (scan_input f sd ed _); simpl; [|reflexivity].
    f_equal. apply IH.
Qed.

Lemma scan_inputs_stop f sd ed pre p_input post p fr c :
  valid_input p_input = true ->
  scan_input f sd ed (input_with_invalid p_input false) = Scan_stop p fr c ->
  let r := scan_inputs f sd ed 0 0 (pre ++ p_input :: post) in
  sl_break r = true
  /\ (sl_break (scan_inputs f sd ed 0 0 pre) = false ->
      sl_cleared r = c /\ sl_inputs r !! length pre = Some p).
Proof.
  intros Hv Hs r.
  pose proof (scan_inputs_app f sd ed pre (p_input :: post) 0 0) as H.
  cbv zeta in H. fold r in H.
  change (0 + length pre)%nat with (length pre) in H.
  assert (Hturn : forall i k,
    let r2 := scan_inputs f sd ed i k (p_input :: post) in
    sl_break r2 = true /\ sl_cleared r2 = c /\ sl_inputs r2 = p :: post).
  { intros i k. simpl. unfold valid_input in Hv.
    apply negb_true_iff in Hv. rewrite Hv. simpl. rewrite Hs. simpl. auto. }
  destruct (sl_break (scan_inputs f sd ed 0 0 pre)) eqn:Hb.
  - destruct H as (H1 & _). split; [exact H1 | intros Hf; discriminate].
  - destruct H as (H1 & H2 & _ & H4 & _).
    destruct (Hturn (length pre) (sl_first_input (scan_inputs f sd ed 0 0 pre)))
      as (T1 & T2 & T3).
    split; [congruence|]. intros _. split; [congruence|].
    rewrite H4, T3.
    pose proof (scan_inputs_length f sd ed 0 0 pre) as Hlen.
    rewrite lookup_app_r by lia. rewrite Hlen, Nat.sub_diag. reflexivity.
Qed.

Lemma MixBuffer_break alloc play now p_aout m sd ex ins out fr0 :
  p_mixer p_aout = Some m ->
  start_of_tick now p_aout = Start_at sd ex ins out fr0 ->
  let r := scan_inputs (fmt m) sd
             (date_Get (date_Increment ex (output_i_nb_samples out))) 0 0 ins in
  sl_break r = true ->
  MixBuffer alloc play now p_aout
  = Some (NotReady,
          aout_with_streams p_aout (sl_inputs r) (output_after (sl_cleared r) out),
          fr0 ++ sl_freed r
              ++ (if sl_cleared r then p_first (output_fifo out) else [])).
Proof.
  intros Hm Hs r Hb. unfold MixBuffer. rewrite Hm, Hs.
  apply mix_from_break. exact Hb.
Qed.

(** Two blocks in the past of an output date of 200000: both are freed,
    the tail pointer is set back and the call returns [-1]. *)
Example past_packets_empty_the_queue :
  MixBuffer alloc_block play_block 90000
    (aout_of (Some (mixer_of fmt_pcm true))
             [{| b_error := false; b_paused := false;
                 mixer := {| is_invalid := false;
                             fifo := {| p_first := [pcm_block 100000 10000;
                                                    pcm_block 121333 20000];
                                        pp_last := Last_at_next 20000;
                                        end_date := clock_at 0 |};
                             begin := Some 10000 |} |}]
             (output_at 200000))
  = Some (NotReady,
          aout_of (Some (mixer_of fmt_pcm true))
                  [input_of false false [] None] (output_at 200000),
          [pcm_block 100000 10000; pcm_block 121333 20000]).
Proof. reflexivity. Qed.

(** ** The search for the start date *)

(** An output date of 10000 at a time of 1000000 is late: the output FIFO
    is cleared and the start date is looked for again. *)
Example late_output_is_reset :
  read_output_clock 1000000 (output_at 10000)
  = (0, clock_at 0, output_at 0, []).
Proof. reflexivity. Qed.

(** One turn of the loop of lines 159-167 is a pop of the FIFO. *)
Lemma trash_late_pops now f bg buf p_next :
  p_first f = buf :: p_next ->
  i_pts buf < now ->
  aout_FifoPop f
  = (Some buf, fifo_with_first f p_next (pop_last p_next (pp_last f)))
  /\ trash_late now (p_first f) (pp_last f) bg
     = let '(q, l, bg', fr) :=
         trash_late now (p_first (aout_FifoPop f).2)
                    (pp_last (aout_FifoPop f).2) None in
       (q, l, bg', buf :: fr).
Proof.
  intros Hq Hlate. unfold aout_FifoPop. rewrite Hq. simpl.
  split; [reflexivity|].
  destruct (Z.ltb_spec (i_pts buf) now); [reflexivity | lia].
Qed.

Lemma trash_late_spec now chain l bg :
  exists l' dropped,
    trash_late now chain l bg
    = (drop_late now chain, l',
       match dropped with [] => bg | _ :: _ => None end, dropped)
    /\ chain = dropped ++ drop_late now chain
    /\ Forall (fun buf => i_pts buf < now) dropped.
Proof.
  revert l bg; induction chain as [|buf p_next IH]; intros l bg; simpl.
  - exists l, []. repeat split; auto.
  - destruct (Z.ltb_spec (i_pts buf) now) as [Hlt|Hge].
    + destruct (IH (pop_last p_next l) None) as (l' & dropped & Heq & Happ & Hall).
      rewrite Heq. exists l', (buf :: dropped). simpl. repeat split; auto.
      * destruct dropped; reflexivity.
      * congruence.
    + exists l, []. repeat split; auto.
Qed.

Lemma drop_late_head now chain buf p_next :
  drop_late now chain = buf :: p_next -> now <= i_pts buf.
Proof.
  induction chain as [|b t IH]; simpl; [discriminate|].
  destruct (Z.ltb_spec (i_pts b) now); [exact IH|].
  intros Heq; inversion Heq; subst; lia.
Qed.

Lemma find_start_date_spec now ins : forall sd ex,
  0 <= now -> (sd = 0 \/ now <= sd) ->
  let d := find_start_date now sd ex ins in
  (ss_break d = true
   <-> exists p_input, p_input ∈ ins /\ valid_input p_input = true
         /\ drop_late now (p_first (fifo (mixer p_input))) = [])
  /\ (ss_break d = false ->
      Forall2 (pruned now) ins (ss_inputs d)
      /\ (ss_start_date d = 0 \/ now <= ss_start_date d)
      /\ sd <= ss_start_date d
      /\ Forall (fun t => t <= ss_start_date d) (head_dates (ss_inputs d))
      /\ (ss_start_date d = sd \/ ss_start_date d ∈ head_dates (ss_inputs d))
      /\ (sd = date_Get ex -> ss_start_date d = date_Get (ss_exact d))).
Proof.
  induction ins as [|p rest IH]; intros sd ex Hnow Hsd; simpl.
  - split.
    + split; [discriminate | intros (q & Hq & _); inversion Hq].
    + intros _. repeat split; auto; try lia; constructor.
  - destruct (b_error p || b_paused p) eqn:Hinv; simpl.
    + specialize (IH sd ex Hnow Hsd). simpl in IH. destruct IH as (IHb & IHs).
      split.
      * rewrite IHb. split.
        -- intros (q & Hq & H1 & H2). exists q. split; [right; exact Hq|auto].
        -- intros (q & Hq & H1 & H2). apply elem_of_cons in Hq as [-> | Hq].
           ++ unfold valid_input in H1. rewrite Hinv in H1. discriminate.
           ++ exists q; auto.
      * intros Hb. destruct (IHs Hb) as (F2 & Hlow & Hle & Hall & Hmax & Hex).
        assert (Hvp : valid_input p = false)
          by (unfold valid_input; rewrite Hinv; reflexivity).
        rewrite !Hvp.
        repeat split; auto.
        constructor; [|exact F2]. unfold pruned. rewrite Hvp.
        reflexivity.
    + destruct (trash_late_spec now (p_first (fifo (mixer p)))
                  (pp_last (fifo (mixer p))) (begin (mixer p)))
        as (l' & dropped & Heq & Happ & Hall).
      rewrite Heq.
      destruct (drop_late now (p_first (fifo (mixer p)))) as [|buf q] eqn:Hq;
        simpl.
      * split; [|discriminate]. split; [|reflexivity]. intros _.
        exists p. split; [left|]. split; [|exact Hq].
        unfold valid_input. rewrite Hinv. reflexivity.
      * pose proof (drop_late_head _ _ _ _ Hq) as Hhead.
        set (sd' := if (sd =? 0) || (sd <? i_pts buf) then i_pts buf else sd).
        set (ex' := if (sd =? 0) || (sd <? i_pts buf)
                    then date_Set ex (i_pts buf) else ex).
        assert (Hsd' : (sd' = 0 \/ now <= sd') /\ sd <= sd' /\ i_pts buf <= sd'
                       /\ (sd' = sd \/ sd' = i_pts buf)).
        { unfold sd'. destruct (Z.eqb_spec sd 0) as [->|Hne]; simpl.
          - repeat split; auto; lia.
          - destruct (Z.ltb_spec sd (i_pts buf)); repeat split; auto; lia. }
        destruct Hsd' as (Hlow' & Hle' & Hbuf' & Hor').
        specialize (IH sd' ex' Hnow Hlow'). simpl in IH.
        destruct IH as (IHb & IHs). split.
        -- rewrite IHb. split.
           ++ intros (q0 & Hq0 & H1 & H2). exists q0.
              split; [right; exact Hq0|auto].
           ++ intros (q0 & Hq0 & H1 & H2).
              apply elem_of_cons in Hq0 as [-> | Hq0].
              ** rewrite Hq in H2. discriminate.
              ** exists q0; auto.
        -- intros Hb. destruct (IHs Hb) as (F2 & Hlow & Hle & Hall' & Hmax & Hex).
           assert (Hvp : valid_input
                     (input_with_stream p (buf :: q) l'
                        match dropped with [] => begin (mixer p) | _ :: _ => None end)
                   = true)
             by (unfold valid_input; simpl; rewrite Hinv; reflexivity).
           rewrite !Hvp. simpl.
           repeat split.
           ++ constructor; [|exact F2]. unfold pruned, valid_input.
              rewrite Hinv. simpl. rewrite Hq. auto.
           ++ exact Hlow.
           ++ lia.
           ++ constructor; [lia | exact Hall'].
           ++ destruct Hmax as [Hm | Hm].
              ** destruct Hor' as [Ho | Ho]; [left; congruence|].
                 right. rewrite Hm, Ho. left.
              ** right. right. exact Hm.
           ++ intros Hget. apply Hex. unfold sd', ex'.
              destruct ((sd =? 0) || (sd <? i_pts buf)); [reflexivity|exact Hget].
Qed.

Lemma head_dates_elem t ins :
  t ∈ head_dates ins
  <-> exists p_input buf p_next,
        p_input ∈ ins /\ valid_input p_input = true
        /\ p_first (fifo (mixer p_input)) = buf :: p_next /\ i_pts buf = t.
Proof.
  induction ins as [|p rest IH]; simpl.
  - split; [intros H; inversion H | intros (q & ? & ? & H & _); inversion H].
  - assert (Hrest :
      t ∈ head_dates rest ->
      exists p_input buf p_next,
        p_input ∈ p :: rest /\ valid_input p_input = true
        /\ p_first (fifo (mixer p_input)) = buf :: p_next /\ i_pts buf = t).
    { intros H. apply IH in H as (q & buf & nx & Hq & H1 & H2 & H3).
      exists q, buf, nx. split; [right; exact Hq | auto]. }
    destruct (valid_input p) eqn:Hv.
    + destruct (p_first (fifo (mixer p))) as [|b nx] eqn:Hq.
      * split; [exact Hrest|].
        intros (q & buf & nx & Hin & H1 & H2 & H3).
        apply elem_of_cons in Hin as [-> | Hin]; [congruence|].
        apply IH. exists q, buf, nx. auto.
      * rewrite elem_of_cons. split.
        -- intros [-> | H]; [|exact (Hrest H)].
           exists p, b, nx. split; [left | auto].
        -- intros (q & buf & nx' & Hin & H1 & H2 & H3).
           apply elem_of_cons in Hin as [-> | Hin].
           ++ left. rewrite Hq in H2. inversion H2; subst. reflexivity.
           ++ right. apply IH. exists q, buf, nx'. auto.
    + split; [exact Hrest|].
      intros (q & buf & nx & Hin & H1 & H2 & H3).
      apply elem_of_cons in Hin as [-> | Hin]; [congruence|].
      apply IH. exists q, buf, nx. auto.
Qed.

Lemma start_of_tick_unset now p_aout :
  output_clock p_aout = 0 ->
  let d := find_start_date now 0 (end_date (output_fifo (output p_aout)))
                           (pp_inputs p_aout) in
  start_of_tick now p_aout
  = if ss_break d then Start_break (ss_inputs d) (output p_aout) (ss_freed d)
    else Start_at (ss_start_date d) (ss_exact d) (ss_inputs d)
                  (output p_aout) (ss_freed d).
Proof.
  unfold output_clock, start_of_tick, read_output_clock. intros ->. reflexivity.
Qed.

(** C7, as amended.  When the output clock reads [0] and [mdate()] is not
    negative, the loop of lines 149-179 is left before its end exactly when
    some valid input holds nothing but blocks dated before [mdate()], and
    [MixBuffer] then returns [-1].  Otherwise every valid input has lost
    its late leading blocks and is not empty, the start date is the latest
    of the head dates of the valid inputs ([0] when no input is valid), and
    no valid input's head starts after it. *)
Theorem start_date_is_latest_head (now : mtime_t) (p_aout : aout_instance_t)
  (m : aout_mixer_t) :
  p_mixer p_aout = Some m ->
  output_clock p_aout = 0 ->
  0 <= now ->
  let d := find_start_date now 0 (end_date (output_fifo (output p_aout)))
                           (pp_inputs p_aout) in
  (ss_break d = true
   <-> exists p_input, p_input ∈ pp_inputs p_aout
         /\ valid_input p_input = true
         /\ drop_late now (p_first (fifo (mixer p_input))) = [])
  /\ (ss_break d = true ->
      forall alloc play, exists p_aout' freed,
        MixBuffer alloc play now p_aout = Some (NotReady, p_aout', freed))
  /\ (ss_break d = false ->
      start_of_tick now p_aout
      = Start_at (ss_start_date d) (ss_exact d) (ss_inputs d)
                 (output p_aout) (ss_freed d)
      /\ Forall2 (pruned now) (pp_inputs p_aout) (ss_inputs d)
      /\ (forall p_input, p_input ∈ ss_inputs d ->
            valid_input p_input = true ->
            exists buf p_next,
              p_first (fifo (mixer p_input)) = buf :: p_next
              /\ now <= i_pts buf <= ss_start_date d)
      /\ ((exists p_input buf p_next,
             p_input ∈ ss_inputs d /\ valid_input p_input = true
             /\ p_first (fifo (mixer p_input)) = buf :: p_next
             /\ i_pts buf = ss_start_date d)
          \/ ((forall p_input, p_input ∈ ss_inputs d ->
                 valid_input p_input = false)
              /\ ss_start_date d = 0))
      /\ date_Get (ss_exact d) = ss_start_date d).
Proof.
  intros Hm Hclock Hnow d.
  pose proof (find_start_date_spec now (pp_inputs p_aout) 0
                (end_date (output_fifo (output p_aout))) Hnow (or_introl eq_refl))
    as (Hbreak & Hgo).
  fold d in Hbreak, Hgo.
  pose proof (start_of_tick_unset now p_aout Hclock) as Hstart.
  cbv zeta in Hstart. fold d in Hstart.
  split; [exact Hbreak|]. split.
  - intros Hb alloc play. rewrite Hb in Hstart.
    unfold MixBuffer. rewrite Hm, Hstart. eauto.
  - intros Hb. rewrite Hb in Hstart.
    destruct (Hgo Hb) as (F2 & Hlow & _ & Hall & Hmax & Hex).
    assert (Hheads : forall p_input, p_input ∈ ss_inputs d ->
              valid_input p_input = true ->
              exists buf p_next,
                p_first (fifo (mixer p_input)) = buf :: p_next
                /\ now <= i_pts buf <= ss_start_date d).
    { intros p' Hin Hv.
      apply list_elem_of_lookup in Hin as (j & Hj).
      destruct (Forall2_lookup_r _ _ _ _ _ F2 Hj) as (p & Hp & Hpr).
      unfold pruned in Hpr. destruct (valid_input p) eqn:Hvp.
      - destruct Hpr as (_ & _ & Hq).
        destruct (p_first (fifo (mixer p'))) as [|buf nx] eqn:Hq'.
        + exfalso. assert (ss_break d = true); [|congruence].
          apply Hbreak. exists p. split; [|auto].
          apply list_elem_of_lookup. eauto.
        + exists buf, nx. split; [reflexivity|]. split.
          * eapply drop_late_head. symmetry. exact Hq.
          * rewrite Forall_forall in Hall. apply Hall.
            apply head_dates_elem. exists p', buf, nx.
            split; [apply list_elem_of_lookup; eauto | auto].
      - subst p'. congruence. }
    split; [exact Hstart|]. split; [exact F2|]. split; [exact Hheads|].
    split; [|symmetry; apply Hex; exact (eq_sym Hclock)].
    destruct (head_dates (ss_inputs d)) as [|t ts] eqn:Hhd.
    + right. split.
      * intros p' Hin. destruct (valid_input p') eqn:Hv; [|reflexivity].
        destruct (Hheads p' Hin Hv) as (buf & nx & Hq & _).
        assert (Hel : i_pts buf ∈ head_dates (ss_inputs d)).
        { apply head_dates_elem. exists p', buf, nx. auto. }
        rewrite Hhd in Hel. inversion Hel.
      * destruct Hmax as [H0 | Hel]; [exact H0 | inversion Hel].
    + left. assert (Hel : ss_start_date d ∈ t :: ts).
      { destruct Hmax as [H0 | Hel]; [|exact Hel].
        assert (Ht : t ∈ head_dates (ss_inputs d)) by (rewrite Hhd; left).
        pose proof Ht as Ht'.
        apply head_dates_elem in Ht' as (p' & buf & nx & Hin & Hv & Hq & Hpts).
        destruct (Hheads p' Hin Hv) as (buf' & nx' & Hq' & Hrange).
        rewrite Hq in Hq'. injection Hq' as Hb1 Hb2. rewrite <- Hb1 in Hrange.
        assert (Heq : t = ss_start_date d) by lia. rewrite <- Heq. left. }
      rewrite <- Hhd in Hel. apply head_dates_elem in Hel.
      exact Hel.
Qed.

Lemma start_date_is_latest_head_witness :
  start_of_tick 150000 aout_stale_head
  = Start_at 200000 (clock_at 200000)
             [input_of false false [pcm_block 200000 20000] None]
             (output_at 0) [pcm_block 50000 10000].
Proof.
  pose proof (start_date_is_latest_head 150000 aout_stale_head
                (mixer_of fmt_pcm true) eq_refl eq_refl ltac:(lia))
    as (_ & _ & H).
  destruct (H eq_refl) as (Hs & _). rewrite Hs. reflexivity.
Defined.

(** C7, as stated, fails: with two valid inputs whose only blocks are
    dated 100 and 200 (each 20 long), the start date is 200, the latest
    head date, and the first input has no block that reaches it. *)
Lemma latest_head_leaves_input_behind :
  let ins := [input_of false false [mk_buffer 100 20 1 1000 4] None;
              input_of false false [mk_buffer 200 20 1 2000 4] None] in
  let d := find_start_date 50 0 (clock_at 0) ins in
  ss_break d = false
  /\ ss_start_date d = 200
  /\ ~ (forall p_input, p_input ∈ ss_inputs d ->
          valid_input p_input = true ->
          exists buf, buf ∈ p_first (fifo (mixer p_input))
                      /\ ss_start_date d <= i_pts buf + i_length buf).
Proof.
  cbv zeta. split; [reflexivity|]. split; [reflexivity|].
  intros H.
  destruct (H (input_of false false [mk_buffer 100 20 1 1000 4] None))
    as (buf & Hin & Hle).
  - vm_compute. left.
  - reflexivity.
  - simpl in Hin. apply list_elem_of_singleton in Hin. subst buf.
    vm_compute in Hle. apply Hle. reflexivity.
Qed.

(** ** Inputs in error or paused *)

Lemma find_start_date_invalid now ins : forall sd ex j p_input,
  ins !! j = Some p_input ->
  valid_input p_input = false ->
  ss_inputs (find_start_date now sd ex ins) !! j = Some p_input.
Proof.
  induction ins as [|p rest IH]; intros sd ex j q Hj Hv; [inversion Hj|].
  simpl. destruct (b_error p || b_paused p) eqn:Hinv; simpl.
  - destruct j as [|j]; simpl in *; [exact Hj|]. apply IH; assumption.
  - destruct (trash_late now _ _ _) as [[[q1 l1] bg1] fr1].
    destruct j as [|j]; simpl in Hj.
    + inversion Hj; subst q. unfold valid_input in Hv. rewrite Hinv in Hv.
      discriminate.
    + destruct q1 as [|buf q1]; simpl; [exact Hj|]. apply IH; assumption.
Qed.

Lemma scan_inputs_invalid f sd ed ins : forall i k j p_input,
  ins !! j = Some p_input ->
  valid_input p_input = false ->
  let r := scan_inputs f sd ed i k ins in
  (sl_break r = false ->
   sl_inputs r !! j = Some (input_with_invalid p_input true))
  /\ exists v, sl_inputs r !! j = Some (input_with_invalid p_input v).
Proof.
  induction ins as [|p rest IH]; intros i k j q Hj Hv; [inversion Hj|].
  simpl. destruct (b_error p || b_paused p) eqn:Hinv; simpl.
  - destruct j as [|j]; simpl in *.
    + inversion Hj; subst q. split; eauto.
    + apply IH; assumption.
  - destruct j as [|j]; simpl in Hj.
    { inversion Hj; subst q. unfold valid_input in Hv. rewrite Hinv in Hv.
      discriminate. }
    destruct (scan_input f sd ed _) as [p' fr | p' fr c]; simpl.
    + apply IH; assumption.
    + split; [discriminate|].
      exists (is_invalid (mixer q)). rewrite Hj. f_equal.
      destruct q as [e pa [iv ff bg]]; reflexivity.
Qed.

Lemma scan_input_flag f sd ed p_input :
  match scan_input f sd ed p_input with
  | Scan_next p _ | Scan_stop p _ _ =>
    is_invalid (mixer p) = is_invalid (mixer p_input)
  end.
Proof.
  unfold scan_input, cover_input.
  destruct (p_first (fifo (mixer p_input))) as [|b t] eqn:Hq; [reflexivity|].
  destruct (past_drop sd (b :: t) _) as [[q1 bg1] fr1].
  destruct q1 as [|b1 q1]; [reflexivity|].
  destruct (enough_samples ed (b1 :: q1) fr1) as [[q2 stop] fr2].
  destruct stop as [|s0 stop]; [reflexivity|].
  destruct q2 as [|buf q2]; [reflexivity|].
  destruct (AOUT_FMT_NON_LINEAR f); [reflexivity|].
  destruct (place_begin f sd buf bg1); reflexivity.
Qed.

(** [i_first_input], when the loop of lines 193-314 runs to its end: it is
    kept once an input was valid, and counts the invalid inputs met until
    then. *)
Lemma scan_inputs_first f sd ed ins : forall i k,
  let r := scan_inputs f sd ed i k ins in
  sl_break r = false ->
  ((k < i)%nat -> sl_first_input r = k)
  /\ (k = i ->
      (i <= sl_first_input r <= i + length ins)%nat
      /\ forall p_input,
           sl_inputs r !! (sl_first_input r - i)%nat = Some p_input ->
           is_invalid (mixer p_input) = false).
Proof.
  induction ins as [|p rest IH]; intros i k; simpl.
  - intros _. split; [reflexivity|]. intros ->. split; [lia|].
    intros q Hq. rewrite lookup_nil in Hq. discriminate.
  - destruct (b_error p || b_paused p) eqn:Hinv; simpl.
    + intros Hb. destruct (IH (S i) (if Nat.eqb k i then S k else k) Hb)
        as (IH1 & IH2).
      split.
      * intros Hlt. destruct (Nat.eqb_spec k i) as [->|_]; [lia|].
        apply IH1. lia.
      * intros ->. rewrite Nat.eqb_refl in *. destruct (IH2 eq_refl) as (Hr & Hq).
        split; [lia|]. intros q.
        replace (sl_first_input _ - i)%nat
          with (S (sl_first_input
                     (scan_inputs f sd ed (S i) (S i) rest) - S i))%nat by lia.
        simpl. apply Hq.
    + pose proof (scan_input_flag f sd ed (input_with_invalid p false)) as Hfl.
      destruct (scan_input f sd ed _) as [p' fr | p' fr c]; simpl;
        [|discriminate].
      intros Hb. destruct (IH (S i) k Hb) as (IH1 & IH2). split.
      * intros Hlt. apply IH1. lia.
      * intros ->. rewrite (IH1 ltac:(lia)). split; [lia|].
        rewrite Nat.sub_diag. simpl. intros q Hq. inversion Hq; subst q.
        exact Hfl.
Qed.

Lemma start_of_tick_invalid now p_aout :
  match start_of_tick now p_aout with
  | Start_break ins _ _ | Start_at _ _ ins _ _ =>
    forall j p_input,
      pp_inputs p_aout !! j = Some p_input ->
      valid_input p_input = false ->
      ins !! j = Some p_input
  end.
Proof.
  unfold start_of_tick.
  destruct (read_output_clock now (output p_aout)) as [[[sd ex] out] fr0].
  destruct (sd =? 0).
  - destruct (ss_break _) eqn:Hb; intros j q Hj Hv;
      apply find_start_date_invalid; assumption.
  - intros j q Hj Hv. exact Hj.
Qed.

Lemma mix_from_invalid alloc play p_aout m sd ex ins out fr0 t p_aout' freed :
  mix_from alloc play p_aout m sd ex ins out fr0 = Some (t, p_aout', freed) ->
  (forall kernel, mix m = Some kernel -> kernel_spares_invalid kernel) ->
  forall j p_input,
    ins !! j = Some p_input ->
    valid_input p_input = false ->
    exists p_input',
      pp_inputs p_aout' !! j = Some p_input'
      /\ fifo (mixer p_input') = fifo (mixer p_input)
      /\ begin (mixer p_input') = begin (mixer p_input).
Proof.
  intros Hmix Hk j q Hj Hv. unfold mix_from in Hmix.
  set (ed := date_Get (date_Increment ex (output_i_nb_samples out))) in *.
  set (r := scan_inputs (fmt m) sd ed 0 0 ins) in *.
  destruct (scan_inputs_invalid (fmt m) sd ed ins 0 0 j q Hj Hv)
    as (Hgo & v & Hsome).
  fold r in Hgo, Hsome.
  assert (Hany : forall out1,
    exists p_input',
      pp_inputs (aout_with_streams p_aout (sl_inputs r) out1) !! j
      = Some p_input'
      /\ fifo (mixer p_input') = fifo (mixer q)
      /\ begin (mixer p_input') = begin (mixer q)).
  { intros out1. simpl. rewrite Hsome. eexists. split; [reflexivity|].
    split; reflexivity. }
  destruct (if sl_cleared r
            then let '(f, fr) := aout_FifoSet (output_fifo out) 0 in
                 ({| output_fifo := f;
                     output_i_nb_samples := output_i_nb_samples out |}, fr)
            else (out, [])) as [out1 fr_out].
  destruct (sl_break r || Nat.eqb (sl_first_input r) (length ins)) eqn:Hbr.
  - inversion Hmix; subst. apply Hany.
  - apply orb_false_iff in Hbr as (Hb & Hfirst).
    unfold run_mixer in Hmix.
    destruct (destination alloc m out1 (sl_first_input r) (sl_inputs r))
      as [blk|]; [|inversion Hmix; subst; apply Hany].
    destruct (mix m) as [kernel|] eqn:Hmx; [|discriminate].
    inversion Hmix; subst; clear Hmix. simpl.
    specialize (Hgo Hb).
    destruct (scan_inputs_first (fmt m) sd ed ins 0 0 Hb) as (_ & Hfst).
    fold r in Hfst. destruct (Hfst eq_refl) as (_ & Hvalid).
    rewrite Nat.sub_0_r in Hvalid.
    assert (Hj1 :
      (if b_alloc m then sl_inputs r
       else match sl_inputs r !! sl_first_input r with
            | Some p_input =>
              <[sl_first_input r := stamp_head p_input sd (ed - sd)]>
                (sl_inputs r)
            | None => sl_inputs r
            end) !! j = Some (input_with_invalid q true)).
    { destruct (b_alloc m); [exact Hgo|].
      destruct (sl_inputs r !! sl_first_input r) as [p1|] eqn:H1; [|exact Hgo].
      rewrite list_lookup_insert_ne; [exact Hgo|].
      intros Heq.
      assert (Hno : is_invalid (mixer (input_with_invalid q true)) = false).
      { apply Hvalid. rewrite Heq, Hgo in H1. symmetry. exact H1. }
      discriminate. }
    destruct (Hk kernel eq_refl _ (buffer_with_dates blk sd (ed - sd)) _ _
                 Hj1 eq_refl) as (p' & Hp' & Hf & Hbg).
    exists p'. split; [exact Hp'|]. split; assumption.
Qed.

(** C9. Invalid inputs are untouched while a mixer is attached.  For an
    input that is in error or paused, the loop that looks for the start
    date leaves the input as it is, the loop of lines 193-314 writes
    nothing but its [is_invalid] flag, and after a call of [MixBuffer]
    whose kernel keeps to its contract the input's FIFO and [begin] are as
    they were. *)
Theorem invalid_inputs_are_untouched (p_aout : aout_instance_t)
  (m : aout_mixer_t) (j : nat) (p_input : aout_input_t) :
  p_mixer p_aout = Some m ->
  pp_inputs p_aout !! j = Some p_input ->
  valid_input p_input = false ->
  (forall now start_date exact,
     ss_inputs (find_start_date now start_date exact (pp_inputs p_aout)) !! j
     = Some p_input)
  /\ (forall f start_date end_date,
        exists v,
          sl_inputs (scan_inputs f start_date end_date 0 0 (pp_inputs p_aout))
            !! j
          = Some (input_with_invalid p_input v))
  /\ (forall alloc play now t p_aout' freed,
        (forall kernel, mix m = Some kernel -> kernel_spares_invalid kernel) ->
        MixBuffer alloc play now p_aout = Some (t, p_aout', freed) ->
        exists p_input',
          pp_inputs p_aout' !! j = Some p_input'
          /\ fifo (mixer p_input') = fifo (mixer p_input)
          /\ begin (mixer p_input') = begin (mixer p_input)).
Proof.
  intros Hm Hj Hv. split; [|split].
  - intros now sd ex. apply find_start_date_invalid; assumption.
  - intros f sd ed.
    destruct (scan_inputs_invalid f sd ed (pp_inputs p_aout) 0 0 j p_input
                Hj Hv) as (_ & Hsome).
    exact Hsome.
  - intros alloc play now t p_aout' freed Hk Hrun.
    unfold MixBuffer in Hrun. rewrite Hm in Hrun.
    pose proof (start_of_tick_invalid now p_aout) as Hst.
    destruct (start_of_tick now p_aout) as [ins out fr0 | sd ex ins out fr0].
    + inversion Hrun; subst. simpl. rewrite (Hst j p_input Hj Hv).
      eexists. split; [reflexivity|]. split; reflexivity.
    + eapply mix_from_invalid; eauto.
Qed.

Lemma kernel_idle_spares_invalid : kernel_spares_invalid kernel_idle.
Proof.
  intros ins p_outbuf j p_input Hj _. exists p_input.
  split; [exact Hj|]. split; reflexivity.
Qed.

Lemma invalid_inputs_are_untouched_witness :
  match MixBuffer alloc_block play_block 90000 aout_one_paused with
  | Some (t, p_aout', _) =>
    t = Ready (pcm_block 100000 10000)
    /\ exists p_input',
         pp_inputs p_aout' !! 1%nat = Some p_input'
         /\ fifo (mixer p_input')
            = fifo (mixer (input_of false true [pcm_block 100000 20000]
                                    (Some 20004)))
         /\ begin (mixer p_input') = Some 20004
  | None => False
  end.
Proof.
  destruct (MixBuffer alloc_block play_block 90000 aout_one_paused)
    as [[[t p_aout'] freed]|] eqn:Hrun; [|vm_compute in Hrun; discriminate].
  split; [vm_compute in Hrun; injection Hrun as <- _ _; reflexivity|].
  pose proof (invalid_inputs_are_untouched aout_one_paused
                (mixer_of fmt_pcm false) 1
                (input_of false true [pcm_block 100000 20000] (Some 20004))
                eq_refl eq_refl eq_refl) as (_ & _ & H).
  apply (H alloc_block play_block 90000 t p_aout' freed); [|exact Hrun].
  intros kernel Hk. inversion Hk; subst. exact kernel_idle_spares_invalid.
Defined.

(** ** The cursor of a linear format *)

Lemma place_begin_cases f start_date buf bg :
  0 < i_frame_length f ->
  let i_buffer := ideal_offset f start_date buf in
  let cursor := cursor_of buf bg in
  let bpf := i_bytes_per_frame f in
  (near i_buffer (cursor - p_buffer buf) bpf ->
   place_begin f start_date buf bg = Cursor_set (Some cursor))
  /\ (~ near i_buffer (cursor - p_buffer buf) bpf ->
      round_to_frame i_buffer bpf < 0 ->
      place_begin f start_date buf bg = Cursor_negative (Some cursor))
  /\ (~ near i_buffer (cursor - p_buffer buf) bpf ->
      0 <= round_to_frame i_buffer bpf ->
      place_begin f start_date buf bg
      = Cursor_set (Some (p_buffer buf + round_to_frame i_buffer bpf))).
Proof.
  intros Hfl. cbv zeta. unfold place_begin, ideal_offset, near, round_to_frame.
  rewrite Z.quot_quot by lia.
  fold (cursor_of buf bg).
  set (i := Z.quot _ (i_frame_length f * 1000000)).
  set (nb := cursor_of buf bg - p_buffer buf).
  set (bpf := i_bytes_per_frame f).
  destruct (Z.gtb_spec (i + bpf) nb) as [H1|H1];
    destruct (Z.ltb_spec i (bpf + nb)) as [H2|H2]; simpl;
    destruct (Z.ltb_spec (Z.quot i bpf * bpf) 0) as [H3|H3];
    repeat split; intros; try lia; reflexivity.
Qed.

Lemma round_to_frame_toward_zero i_buffer bpf :
  0 < bpf ->
  (0 <= i_buffer ->
   i_buffer - bpf < round_to_frame i_buffer bpf <= i_buffer)
  /\ (i_buffer <= 0 ->
      i_buffer <= round_to_frame i_buffer bpf < i_buffer + bpf)
  /\ (round_to_frame i_buffer bpf < 0 <-> i_buffer <= - bpf).
Proof.
  intros Hb. unfold round_to_frame.
  pose proof (Z.quot_rem' i_buffer bpf) as Hqr.
  assert (Hpos : 0 <= i_buffer -> 0 <= Z.rem i_buffer bpf < bpf)
    by (intros; apply Z.rem_bound_pos; lia).
  assert (Hneg : i_buffer <= 0 -> - bpf < Z.rem i_buffer bpf <= 0).
  { intros Hi. apply Z.rem_bound_pos_neg; lia. }
  generalize dependent (Z.rem i_buffer bpf).
  generalize dependent (Z.quot i_buffer bpf).
  intros q r Hqr Hpos Hneg.
  split; [|split].
  - intros Hi. specialize (Hpos Hi). lia.
  - intros Hi. specialize (Hneg Hi). lia.
  - destruct (Z_le_gt_dec 0 i_buffer) as [Hi|Hi].
    + specialize (Hpos Hi).
      destruct (Z_lt_le_dec q 0); split; intros; nia.
    + specialize (Hneg ltac:(lia)).
      destruct (Z_lt_le_dec q 0); split; intros; nia.
Qed.

Lemma scan_input_linear f start_date end_date p_input buf p_next bg fr :
  is_linear f = true ->
  cover_input start_date end_date p_input = Cover_ok buf p_next bg fr ->
  scan_input f start_date end_date p_input
  = match place_begin f start_date buf bg with
    | Cursor_set c =>
      Scan_next (input_with_stream p_input (buf :: p_next)
                                   (pp_last (fifo (mixer p_input))) c) fr
    | Cursor_negative c =>
      Scan_stop (input_with_stream p_input (buf :: p_next)
                                   (pp_last (fifo (mixer p_input))) c) fr true
    end.
Proof.
  intros Hlin Hcov. unfold scan_input. rewrite Hcov.
  unfold AOUT_FMT_NON_LINEAR. rewrite Hlin. reflexivity.
Qed.

(** C5, as amended.  For a linear format and an input whose FIFO covers
    the date range, with head [buf]: the ideal offset is
    [(start_date - buf.i_pts) * i_bytes_per_frame * i_rate
     / (i_frame_length * 1000000)] in C's integer arithmetic.  When it is
    less than one frame away from the cursor's offset ([begin] standing
    for the start of the payload when null), [begin] is that cursor.
    Otherwise the offset is brought to a multiple of the frame size by C's
    division, that is toward zero; when the result is negative (the ideal
    offset is at most one frame below zero) the output FIFO is cleared, its
    date is set to 0 and [MixBuffer] returns [-1]; otherwise [begin] is the
    start of the payload plus the result. *)
Theorem cursor_is_reconciled (f : audio_sample_format_t)
  (start_date : mtime_t) (buf : aout_buffer_t) (bg : option Z) :
  0 < i_frame_length f ->
  0 < i_bytes_per_frame f ->
  let i_buffer := ideal_offset f start_date buf in
  let cursor := cursor_of buf bg in
  let bpf := i_bytes_per_frame f in
  (near i_buffer (cursor - p_buffer buf) bpf ->
   place_begin f start_date buf bg = Cursor_set (Some cursor))
  /\ (~ near i_buffer (cursor - p_buffer buf) bpf ->
      round_to_frame i_buffer bpf < 0 ->
      place_begin f start_date buf bg = Cursor_negative (Some cursor))
  /\ (~ near i_buffer (cursor - p_buffer buf) bpf ->
      0 <= round_to_frame i_buffer bpf ->
      place_begin f start_date buf bg
      = Cursor_set (Some (p_buffer buf + round_to_frame i_buffer bpf)))
  /\ ((0 <= i_buffer ->
       i_buffer - bpf < round_to_frame i_buffer bpf <= i_buffer)
      /\ (i_buffer <= 0 ->
          i_buffer <= round_to_frame i_buffer bpf < i_buffer + bpf)
      /\ (round_to_frame i_buffer bpf < 0 <-> i_buffer <= - bpf))
  /\ (forall end_date p_input p_next fr,
        is_linear f = true ->
        cover_input start_date end_date p_input = Cover_ok buf p_next bg fr ->
        scan_input f start_date end_date p_input
        = match place_begin f start_date buf bg with
          | Cursor_set c =>
            Scan_next (input_with_stream p_input (buf :: p_next)
                         (pp_last (fifo (mixer p_input))) c) fr
          | Cursor_negative c =>
            Scan_stop (input_with_stream p_input (buf :: p_next)
                         (pp_last (fifo (mixer p_input))) c) fr true
          end)
  /\ (forall alloc play now p_aout m exact pre p_input post out fr0
             p_next fr c,
        p_mixer p_aout = Some m ->
        fmt m = f ->
        is_linear f = true ->
        start_of_tick now p_aout
        = Start_at start_date exact (pre ++ p_input :: post) out fr0 ->
        sl_break
          (scan_inputs f start_date
             (date_Get (date_Increment exact (output_i_nb_samples out)))
             0 0 pre) = false ->
        valid_input p_input = true ->
        cover_input start_date
          (date_Get (date_Increment exact (output_i_nb_samples out)))
          (input_with_invalid p_input false)
        = Cover_ok buf p_next bg fr ->
        place_begin f start_date buf bg = Cursor_negative c ->
        exists p_aout' freed,
          MixBuffer alloc play now p_aout = Some (NotReady, p_aout', freed)
          /\ p_first (output_fifo (output p_aout')) = []
          /\ output_clock p_aout' = 0).
Proof.
  intros Hfl Hbpf. cbv zeta.
  destruct (place_begin_cases f start_date buf bg Hfl) as (H1 & H2 & H3).
  split; [exact H1|]. split; [exact H2|]. split; [exact H3|].
  split; [apply round_to_frame_toward_zero; exact Hbpf|].
  split; [intros; apply scan_input_linear; assumption|].
  intros alloc play now p_aout m exact pre p_input post out fr0 p_next fr c
         Hm Hf Hlin Hs Hpre Hv Hcov Hneg.
  subst f.
  pose proof (scan_input_linear _ _ _ _ _ _ _ _ Hlin Hcov) as Hturn.
  rewrite Hneg in Hturn.
  destruct (scan_inputs_stop _ _ _ pre p_input post _ _ _ Hv Hturn)
    as (Hb & Hc).
  destruct (Hc Hpre) as (Hcl & _).
  eexists _, _. split; [eapply MixBuffer_break; eassumption|].
  rewrite Hcl. split; reflexivity.
Qed.

Lemma cursor_is_reconciled_witness :
  place_begin fmt_pcm 110666 (pcm_block 100000 10000) None
  = Cursor_set (Some 12044).
Proof.
  pose proof (cursor_is_reconciled fmt_pcm 110666 (pcm_block 100000 10000)
                None ltac:(simpl; lia) ltac:(simpl; lia))
    as (_ & _ & H & _).
  apply H.
  - unfold near. vm_compute. intros [_ H1]. discriminate H1.
  - vm_compute. discriminate.
Defined.

(** C5, as stated, fails: rounding down sends the ideal offset [-1] to
    [-4], a negative value, and the claim then has the output FIFO cleared
    and the call return [-1]; the code's division sends it to [0], and
    [begin] is set to the start of the payload. *)
Lemma negative_offset_is_not_rounded_down :
  let buf := pcm_block 110 1000 in
  let bg := Some 1008 in
  let i_buffer := ideal_offset fmt_pcm 100 buf in
  ~ (~ near i_buffer (cursor_of buf bg - p_buffer buf)
             (i_bytes_per_frame fmt_pcm) ->
     (round_down_to_frame i_buffer (i_bytes_per_frame fmt_pcm) < 0 ->
      exists c, place_begin fmt_pcm 100 buf bg = Cursor_negative c)
     /\ (0 <= round_down_to_frame i_buffer (i_bytes_per_frame fmt_pcm) ->
         place_begin fmt_pcm 100 buf bg
         = Cursor_set
             (Some (p_buffer buf
                    + round_down_to_frame i_buffer
                                          (i_bytes_per_frame fmt_pcm))))).
Proof.
  cbv zeta. intros H.
  destruct H as (Hneg & _).
  - unfold near. vm_compute. intros [H1 _]. discriminate H1.
  - destruct Hneg as (c & Hc); [vm_compute; reflexivity|].
    vm_compute in Hc. discriminate Hc.
Qed.

(** ** The search for a hole *)

Lemma contiguous_app end_date prev_date chain :
  forall d walked stop,
    contiguous end_date prev_date chain = (d, walked, stop) ->
    chain = walked ++ stop
    /\ (d = true -> stop <> [])
    /\ (d = false ->
        match stop with
        | [] => True
        | buf :: _ => end_date <= i_pts buf + i_length buf
        end).
Proof.
  revert prev_date; induction chain as [|buf p_next IH];
    intros prev_date d walked stop; simpl.
  - intros H; inversion H; subst. repeat split; auto.
  - destruct (negb (prev_date =? i_pts buf)).
    { intros H; inversion H; subst. repeat split; auto; try discriminate. }
    destruct (Z.geb_spec (i_pts buf + i_length buf) end_date) as [Hge|Hlt].
    { intros H; inversion H; subst. repeat split; auto; try discriminate. }
    destruct (contiguous end_date (i_pts buf + i_length buf) p_next)
      as [[d' w'] s'] eqn:Hc.
    intros H; inversion H; subst.
    destruct (IH _ _ _ _ Hc) as (Happ & Hd & Hs).
    simpl. rewrite Happ. repeat split; auto.
Qed.

(** The loop of lines 234-269: what is freed is a leading part of the
    chain, what is left is the rest; when [p_buffer] is not null at the
    end neither is [p_first], and [p_buffer] ends at or after [end_date]. *)
Lemma enough_samples_spec end_date chain freed :
  exists dropped,
    let '(q, stop, fr) := enough_samples end_date chain freed in
    chain = dropped ++ q
    /\ fr = freed ++ dropped
    /\ (stop <> [] -> q <> [])
    /\ match stop with
       | [] => True
       | buf :: _ => end_date <= i_pts buf + i_length buf
       end.
Proof.
  funelim (enough_samples end_date chain freed).
  - exists []. simpl. rewrite !app_nil_r. repeat split; auto.
  - exists []. simpl. rewrite !app_nil_r. repeat split; auto.
    apply Z.geb_le in Heq. lia.
  - destruct H as (dropped & H).
    destruct (contiguous_app _ _ _ _ _ _ Heq) as (Happ & _).
    exists (buf :: walked ++ dropped).
    destruct (enough_samples _ stop (freed ++ buf :: walked))
      as [[q stop0] fr].
    destruct H as (H1 & H2 & H3 & H4).
    repeat split; auto.
    + simpl. rewrite Happ, H1, app_assoc. reflexivity.
    + rewrite H2, <- app_assoc. reflexivity.
  - exists []. simpl. rewrite !app_nil_r. repeat split; auto.
    destruct (contiguous_app _ _ _ _ _ _ Heq) as (_ & _ & Hs).
    exact (Hs eq_refl).
Qed.

(** With [p_buffer] not null after the loop of lines 234-269, [p_first]
    is not null at line 272. *)
Lemma enough_samples_head end_date chain freed q stop fr :
  enough_samples end_date chain freed = (q, stop, fr) ->
  stop <> [] -> q <> [].
Proof.
  intros Heq. destruct (enough_samples_spec end_date chain freed) as (d & H).
  rewrite Heq in H. tauto.
Qed.

(** An input whose FIFO does not cover the date range makes the call
    return [-1]: the queue was empty, was emptied by the drop of past
    packets, or the scan reached its end before [end_date]. *)
Lemma MixBuffer_cover_stop alloc play now p_aout m start_date exact pre
  p_input post out fr0 p fr :
  p_mixer p_aout = Some m ->
  start_of_tick now p_aout
  = Start_at start_date exact (pre ++ p_input :: post) out fr0 ->
  valid_input p_input = true ->
  cover_input start_date
    (date_Get (date_Increment exact (output_i_nb_samples out)))
    (input_with_invalid p_input false)
  = Cover_stop p fr ->
  exists p_aout' freed,
    MixBuffer alloc play now p_aout = Some (NotReady, p_aout', freed).
Proof.
  intros Hm Hs Hv Hcov.
  assert (Hstop :
    scan_input (fmt m) start_date
      (date_Get (date_Increment exact (output_i_nb_samples out)))
      (input_with_invalid p_input false)
    = Scan_stop p fr false).
  { unfold scan_input. rewrite Hcov. reflexivity. }
  destruct (scan_inputs_stop _ _ _ pre p_input post _ _ _ Hv Hstop)
    as (Hb & _).
  eexists _, _. eapply MixBuffer_break; eassumption.
Qed.

(** A chain with no hole that ends before [end_date]: the scan reaches the
    end of the queue and the loop over the inputs is left. *)
Example short_queue_is_not_enough :
  cover_input 100000 150000
    (input_of false false
              [pcm_block 100000 10000; pcm_block 121333 20000] None)
  = Cover_stop
      (input_of false false
                [pcm_block 100000 10000; pcm_block 121333 20000] None)
      [].
Proof. reflexivity. Qed.

(** ** Packets in the past: the block that is kept *)

Lemma contiguous_hole end_date chain : forall prev_date walked stop,
  contiguous end_date prev_date chain = (true, walked, stop) -> stop <> [].
Proof.
  induction chain as [|buf p_next IH]; intros prev_date walked stop; simpl;
    [discriminate|].
  destruct (negb _); [intros H; inversion H; subst; discriminate|].
  destruct (_ >=? _); [discriminate|].
  specialize (IH (i_pts buf + i_length buf)).
  destruct (contiguous _ _ p_next) as [[d w] st].
  intros H; inversion H; subst. eapply IH; reflexivity.
Qed.

Lemma enough_samples_keeps_head end_date chain freed :
  chain <> [] -> (enough_samples end_date chain freed).1.1 <> [].
Proof.
  funelim (enough_samples end_date chain freed); intros Hne.
  - contradiction.
  - simpl. discriminate.
  - apply H.
    match goal with
    | Hc : contiguous _ _ _ = _ |- _ => exact (contiguous_hole _ _ _ _ _ Hc)
    end.
  - simpl. discriminate.
Qed.










(** ** The defect of the path without a mixer *)

(** C2.  [MixBuffer] without a mixer, on one input that is not in error
    and holds one block: the block is freed and [-1] is returned, but the
    instance is as before, so the FIFO still links the freed block (the
    loop of lines 111-116 moves the local [p_buffer] only).  A second call
    frees the same block again. *)
Theorem detached_queue_keeps_freed_block :
  let blk := pcm_block 100000 10000 in
  let p_aout := aout_of None [input_of false false [blk] None] (output_at 0) in
  MixBuffer alloc_block play_block 90000 p_aout = Some (NotReady, p_aout, [blk])
  /\ (forall p_aout' freed,
        MixBuffer alloc_block play_block 90000 p_aout
        = Some (NotReady, p_aout', freed) ->
        exists p_input,
          pp_inputs p_aout' !! 0%nat = Some p_input
          /\ p_first (fifo (mixer p_input)) = [blk]
          /\ MixBuffer alloc_block play_block 90001 p_aout'
             = Some (NotReady, p_aout', [blk])).
Proof.
  cbv zeta. split; [reflexivity|].
  intros p_aout' freed H. inversion H; subst; clear H.
  eexists. split; [reflexivity|]. split; reflexivity.
Qed.

(** ** The defect of the drop at a hole *)

(** C4.  At a hole before [end_date] the blocks before the hole are freed
    and the scan starts again from the new head, but [begin] is not
    reset: it still points into the freed block (lines 257-267 do not
    assign it, lines 166 and 225 do when they free a head).  With a linear
    format the stale cursor is then measured against the new head. *)
Theorem hole_drop_keeps_begin :
  cover_input 102000 123333 input_with_hole
  = Cover_ok (pcm_block 120000 20000) [] (Some 10384) [short_block]
  /\ scan_input fmt_pcm 102000 123333 input_with_hole
     = Scan_stop (input_of false false [pcm_block 120000 20000] (Some 10384))
                 [short_block] true
  /\ begin (mixer input_with_hole) = Some 10384.
Proof. repeat split; reflexivity. Qed.

(** C3.  Cursor validity is lost by a call that drops blocks at a hole:
    before the call [begin] lies in the payload of the head, where the
    output date asks for it; after the call the head is the block after
    the hole and [begin] still points into the freed one. *)
Theorem hole_drop_breaks_cursor_validity :
  let p_aout :=
    aout_of (Some (mixer_of fmt_pcm true)) [input_with_hole]
            (output_at 102000) in
  cursor_valid input_with_hole = true
  /\ place_begin fmt_pcm 102000 short_block (Some 10384)
     = Cursor_set (Some 10384)
  /\ exists p_aout' p_input,
       MixBuffer alloc_block play_block 90000 p_aout
       = Some (NotReady, p_aout', [short_block])
       /\ pp_inputs p_aout' !! 0%nat = Some p_input
       /\ p_first (fifo (mixer p_input)) = [pcm_block 120000 20000]
       /\ begin (mixer p_input) = Some 10384
       /\ cursor_valid p_input = false.
Proof.
  cbv zeta. split; [reflexivity|]. split; [reflexivity|].
  eexists _, _. split; [reflexivity|].
  split; [reflexivity|]. repeat split; reflexivity.
Qed.

(** The stale cursor makes the rounding of a negative offset visible in a
    whole call: after a hole of 10 microseconds the ideal offset in the new
    head is [-1]; it is brought to [0], [begin] is set to the start of the
    new payload and the call mixes a block. *)
Lemma small_hole_is_mixed :
  let p_aout :=
    aout_of (Some (mixer_of fmt_pcm true)) [input_with_small_hole]
            (output_at 110000) in
  ideal_offset fmt_pcm 110000 (pcm_block 110010 20000) = -1
  /\ MixBuffer alloc_block play_block 90000 p_aout
     = Some (Ready (pcm_block 110000 900000),
             aout_of (Some (mixer_of fmt_pcm true))
                     [input_of false false [pcm_block 110010 20000]
                               (Some 20000)]
                     (play_block (output_at 110000)
                                 (pcm_block 110000 900000)),
             [short_block]).
Proof. cbv zeta. split; reflexivity. Qed.

(** ** The dates of the output *)

Lemma sl_cleared_break f sd ed ins : forall i k,
  sl_cleared (scan_inputs f sd ed i k ins) = true ->
  sl_break (scan_inputs f sd ed i k ins) = true.
Proof.
  induction ins as [|p rest IH]; intros i k; simpl; [discriminate|].
  destruct (b_error p || b_paused p); simpl; [apply IH|].
  destruct (scan_input f sd ed _); simpl; [apply IH | reflexivity].
Qed.

Lemma read_output_clock_running now out :
  date_Get (end_date (output_fifo out)) <> 0 ->
  now <= date_Get (end_date (output_fifo out)) ->
  read_output_clock now out
  = (date_Get (end_date (output_fifo out)), end_date (output_fifo out),
     out, []).
Proof.
  intros Hne Hle. unfold read_output_clock.
  destruct (Z.ltb_spec (date_Get (end_date (output_fifo out))) now); [lia|].
  rewrite andb_false_r. reflexivity.
Qed.

Lemma start_of_tick_running now p_aout :
  output_clock p_aout <> 0 ->
  now <= output_clock p_aout ->
  start_of_tick now p_aout
  = Start_at (output_clock p_aout) (end_date (output_fifo (output p_aout)))
             (pp_inputs p_aout) (output p_aout) [].
Proof.
  intros Hne Hle. unfold start_of_tick, output_clock in *.
  rewrite read_output_clock_running by assumption.
  destruct (Z.eqb_spec (date_Get (end_date (output_fifo (output p_aout)))) 0);
    [contradiction | reflexivity].
Qed.

Lemma start_of_tick_output now p_aout :
  (negb (output_clock p_aout =? 0) && (output_clock p_aout <? now)) = false ->
  match start_of_tick now p_aout with
  | Start_break _ out _ | Start_at _ _ _ out _ => out = output p_aout
  end.
Proof.
  intros Hlate. unfold start_of_tick, read_output_clock.
  unfold output_clock in Hlate. rewrite Hlate.
  destruct (date_Get (end_date (output_fifo (output p_aout))) =? 0);
    [|reflexivity].
  destruct (ss_break _); reflexivity.
Qed.

Lemma MixBuffer_Ready alloc play now p_aout p_outbuf p_aout' freed :
  MixBuffer alloc play now p_aout = Some (Ready p_outbuf, p_aout', freed) ->
  exists m start_date exact ins out fr0,
    p_mixer p_aout = Some m
    /\ start_of_tick now p_aout = Start_at start_date exact ins out fr0
    /\ i_pts p_outbuf = start_date
    /\ i_length p_outbuf
       = date_Get (date_Increment exact (output_i_nb_samples out)) - start_date
    /\ output p_aout' = play out p_outbuf.
Proof.
  unfold MixBuffer. destruct (p_mixer p_aout) as [m|]; [|discriminate].
  destruct (start_of_tick now p_aout) as [ins out fr0 | sd ex ins out fr0];
    [discriminate|].
  intros H. exists m, sd, ex, ins, out, fr0.
  split; [reflexivity|]. split; [reflexivity|].
  unfold mix_from in H.
  pose proof (sl_cleared_break (fmt m) sd
                (date_Get (date_Increment ex (output_i_nb_samples out)))
                ins 0 0) as Hcl.
  destruct (sl_cleared _).
  { rewrite (Hcl eq_refl) in H. simpl in H. discriminate. }
  destruct (sl_break _ || _); [discriminate|].
  unfold run_mixer in H.
  destruct (destination alloc m out _ _) as [blk|]; [|discriminate].
  destruct (mix m) as [kernel|]; [|discriminate].
  inversion H; subst; clear H. simpl. repeat split; reflexivity.
Qed.

Lemma MixBuffer_NotReady_output alloc play now p_aout p_aout' freed :
  MixBuffer alloc play now p_aout = Some (NotReady, p_aout', freed) ->
  clock_reset now p_aout = false ->
  output p_aout' = output p_aout.
Proof.
  unfold MixBuffer, clock_reset.
  destruct (p_mixer p_aout) as [m|]; [|intros H _; inversion H; reflexivity].
  intros H Hreset. apply orb_false_iff in Hreset as (Hlate & Hclear).
  pose proof (start_of_tick_output now p_aout Hlate) as Hout.
  destruct (start_of_tick now p_aout) as [ins out fr0 | sd ex ins out fr0].
  - inversion H; subst. reflexivity.
  - subst out. unfold mix_from in H. rewrite Hclear in H.
    destruct (sl_break _ || _); [inversion H; reflexivity|].
    unfold run_mixer in H.
    destruct (destination alloc m (output p_aout) _ _) as [blk|];
      [|inversion H; reflexivity].
    destruct (mix m); discriminate.
Qed.

Lemma idle_clock alloc play p_aout p_aout' :
  idle alloc play p_aout p_aout' ->
  end_date (output_fifo (output p_aout'))
  = end_date (output_fifo (output p_aout)).
Proof.
  induction 1 as [s | s s1 s2 Hout _ IH | now s s1 fr s2 Hrun Hreset _ IH].
  - reflexivity.
  - rewrite IH. exact Hout.
  - rewrite IH.
    rewrite (MixBuffer_NotReady_output _ _ _ _ _ _ Hrun Hreset). reflexivity.
Qed.

(** C1. Output monotonicity.  Let [MixBuffer] emit the block [A], then,
    with nothing in between but events that leave the output date alone
    and calls that return [-1] without a clock reset, the block [B] in a
    call that does not reset the clock either.  Then [B] starts where [A]
    ends, because the start date of a call is the date of the output FIFO,
    and its end date is that date advanced by [output.i_nb_samples]
    samples.  ([0] is how the code marks a date as not set: the date at
    which [A] ends is taken not to be [0].) *)
Theorem output_dates_are_contiguous
  (alloc : Z -> option aout_buffer_t)
  (play : aout_output_t -> aout_buffer_t -> aout_output_t)
  (now0 now1 : mtime_t) (p_aout0 p_aout1 p_aout1' p_aout2 : aout_instance_t)
  (A B : aout_buffer_t) (freed1 freed2 : list aout_buffer_t) :
  play_sets_clock play ->
  MixBuffer alloc play now0 p_aout0 = Some (Ready A, p_aout1, freed1) ->
  idle alloc play p_aout1 p_aout1' ->
  MixBuffer alloc play now1 p_aout1' = Some (Ready B, p_aout2, freed2) ->
  clock_reset now1 p_aout1' = false ->
  i_pts A + i_length A <> 0 ->
  i_pts B = i_pts A + i_length A
  /\ i_pts B = date_Get (end_date (output_fifo (output p_aout1')))
  /\ i_pts B + i_length B
     = date_Get (date_Increment (end_date (output_fifo (output p_aout1')))
                                (output_i_nb_samples (output p_aout1'))).
Proof.
  intros Hplay HA Hidle HB Hreset Hset.
  destruct (MixBuffer_Ready _ _ _ _ _ _ _ HA)
    as (mA & sdA & exA & insA & outA & frA & _ & _ & _ & _ & HoutA).
  destruct (MixBuffer_Ready _ _ _ _ _ _ _ HB)
    as (mB & sdB & exB & insB & outB & frB & HmB & HsB & HptsB & HlenB & _).
  assert (Hclock : output_clock p_aout1' = i_pts A + i_length A).
  { unfold output_clock. rewrite (idle_clock _ _ _ _ Hidle), HoutA.
    apply Hplay. }
  unfold clock_reset in Hreset. rewrite HmB in Hreset.
  apply orb_false_iff in Hreset as (Hlate & _).
  assert (Hle : now1 <= output_clock p_aout1').
  { destruct (Z.eqb_spec (output_clock p_aout1') 0) as [H0|_]; [lia|].
    simpl in Hlate. apply Z.ltb_ge. exact Hlate. }
  rewrite start_of_tick_running in HsB by lia.
  inversion HsB; subst sdB exB insB outB frB.
  unfold output_clock in *. repeat split; lia.
Qed.

Lemma play_block_sets_clock : play_sets_clock play_block.
Proof. intros out blk. reflexivity. Qed.

Lemma output_dates_are_contiguous_witness :
  i_pts (pcm_block 121333 900000)
  = i_pts (pcm_block 100000 900000) + i_length (pcm_block 100000 900000).
Proof.
  apply (output_dates_are_contiguous alloc_block play_block 90000 95000
           aout_cold_start aout_after_first aout_after_first
           aout_after_second (pcm_block 100000 900000)
           (pcm_block 121333 900000) [] []).
  - exact play_block_sets_clock.
  - vm_compute. reflexivity.
  - apply idle_refl.
  - vm_compute. reflexivity.
  - vm_compute. reflexivity.
  - vm_compute. discriminate.
Defined.

(** * Further properties *)

(** ** Attach and detach, and the gain *)

(** [aout_MixerDelete] leaves no mixer bound whatever the instance,
    touches nothing else, and a second call changes nothing. *)
Lemma aout_MixerDelete_unbinds (p_aout : aout_instance_t) :
  p_mixer (aout_MixerDelete p_aout) = None
  /\ pp_inputs (aout_MixerDelete p_aout) = pp_inputs p_aout
  /\ output (aout_MixerDelete p_aout) = output p_aout
  /\ mixer_format (aout_MixerDelete p_aout) = mixer_format p_aout
  /\ mixer_multiplier (aout_MixerDelete p_aout) = mixer_multiplier p_aout
  /\ (p_mixer p_aout = None -> aout_MixerDelete p_aout = p_aout)
  /\ aout_MixerDelete (aout_MixerDelete p_aout) = aout_MixerDelete p_aout.
Proof.
  unfold aout_MixerDelete.
  destruct (p_mixer p_aout) as [m|] eqn:Hm; simpl; rewrite ?Hm;
    repeat split; auto; discriminate.
Qed.

(** X1. Attach, then detach: whether [aout_MixerNew] succeeds or fails,
    [aout_MixerDelete] gives back the instance as it was before the
    attach, and [aout_MixerNew] can be called on it again. *)
Theorem attach_then_detach_restores
  (vlc_object_create : bool)
  (module_need : aout_mixer_t -> option (Z * aout_mixer_t))
  (p_aout p_aout' : aout_instance_t) (code : Z) :
  p_mixer p_aout = None ->
  aout_MixerNew vlc_object_create module_need p_aout = Some (code, p_aout') ->
  aout_MixerDelete p_aout' = p_aout
  /\ forall c r, aout_MixerNew c r (aout_MixerDelete p_aout') <> None.
Proof.
  intros Hnull Hnew.
  assert (Hdel : aout_MixerDelete p_aout' = p_aout).
  { unfold aout_MixerNew in Hnew. rewrite Hnull in Hnew.
    destruct (negb vlc_object_create).
    - inversion Hnew; subst. unfold aout_MixerDelete. rewrite Hnull.
      reflexivity.
    - destruct (module_need (new_mixer_object p_aout)) as [[handle m]|].
      + inversion Hnew; subst. unfold aout_MixerDelete. simpl.
        destruct p_aout; simpl in *. subst. reflexivity.
      + inversion Hnew; subst. unfold aout_MixerDelete. rewrite Hnull.
        reflexivity. }
  split; [exact Hdel|].
  intros c r. rewrite Hdel. unfold aout_MixerNew. rewrite Hnull.
  destruct (negb c); [discriminate|].
  destruct (r (new_mixer_object p_aout)) as [[h m]|]; discriminate.
Qed.

Lemma attach_then_detach_restores_witness :
  aout_MixerDelete
    (aout_of (Some {| fmt := fmt_pcm; b_alloc := true; multiplier := 0;
                      input := 0%nat; mix := Some kernel_idle;
                      sys := None; module := Some 7 |})
             [] (output_at 0))
  = aout_of None [] (output_at 0).
Proof.
  apply (attach_then_detach_restores true resolve_idle
           (aout_of None [] (output_at 0)) _ VLC_SUCCESS eq_refl).
  reflexivity.
Defined.

(** X2. A second [aout_MixerNew] with no [aout_MixerDelete] in between
    stops at the assertion of line 46, whatever the resolver; after an
    attach that failed the assertion holds and attach can be tried
    again. *)
Theorem attach_twice_fails_the_assertion
  (vlc_object_create : bool)
  (module_need : aout_mixer_t -> option (Z * aout_mixer_t))
  (p_aout p_aout' : aout_instance_t) (code : Z) :
  aout_MixerNew vlc_object_create module_need p_aout = Some (code, p_aout') ->
  (code = VLC_SUCCESS -> forall c r, aout_MixerNew c r p_aout' = None)
  /\ (code <> VLC_SUCCESS -> forall c r, aout_MixerNew c r p_aout' <> None).
Proof.
  intros Hnew. unfold aout_MixerNew in Hnew.
  destruct (p_mixer p_aout) as [m0|] eqn:Hnull; [discriminate|].
  assert (Hagain : forall c r, aout_MixerNew c r p_aout <> None).
  { intros c r. unfold aout_MixerNew. rewrite Hnull.
    destruct (negb c); [discriminate|].
    destruct (r (new_mixer_object p_aout)) as [[h m]|]; discriminate. }
  destruct (negb vlc_object_create).
  - inversion Hnew; subst. split; [discriminate | intros _; exact Hagain].
  - destruct (module_need (new_mixer_object p_aout)) as [[handle m]|].
    + inversion Hnew; subst. split; [|congruence].
      intros _ c r. reflexivity.
    + inversion Hnew; subst. split; [discriminate | intros _; exact Hagain].
Qed.

Lemma attach_twice_fails_the_assertion_witness :
  aout_MixerNew true resolve_idle
    (aout_of (Some {| fmt := fmt_pcm; b_alloc := true; multiplier := 0;
                      input := 0%nat; mix := Some kernel_idle;
                      sys := None; module := Some 7 |})
             [] (output_at 0))
  = None.
Proof.
  apply (proj1 (attach_twice_fails_the_assertion true resolve_idle
                  (aout_of None [] (output_at 0)) _ VLC_SUCCESS eq_refl)
               eq_refl).
Defined.

Lemma aout_MixerMultiplierSet_writes (p_aout : aout_instance_t) (f g : Z) :
  mixer_multiplier (aout_MixerMultiplierSet p_aout f) = f
  /\ multiplier_in_step (aout_MixerMultiplierSet p_aout f)
  /\ (p_mixer (aout_MixerMultiplierSet p_aout f) = None
      <-> p_mixer p_aout = None)
  /\ pp_inputs (aout_MixerMultiplierSet p_aout f) = pp_inputs p_aout
  /\ output (aout_MixerMultiplierSet p_aout f) = output p_aout
  /\ aout_MixerMultiplierSet (aout_MixerMultiplierSet p_aout f) g
     = aout_MixerMultiplierSet p_aout g.
Proof.
  unfold aout_MixerMultiplierSet, multiplier_in_step.
  destruct (p_mixer p_aout) as [m|] eqn:Hm; simpl; rewrite ?Hm; simpl.
  - repeat split; auto; try discriminate.
    intros m' H; inversion H; subst; reflexivity.
  - repeat split; auto; discriminate.
Qed.

Lemma MixBuffer_keeps_mixer alloc play now p_aout t p_aout' freed :
  MixBuffer alloc play now p_aout = Some (t, p_aout', freed) ->
  p_mixer p_aout' = p_mixer p_aout
  /\ mixer_multiplier p_aout' = mixer_multiplier p_aout
  /\ mixer_format p_aout' = mixer_format p_aout.
Proof.
  unfold MixBuffer. destruct (p_mixer p_aout) as [m|] eqn:Hm.
  - destruct (start_of_tick now p_aout) as [ins out fr0 | sd ex ins out fr0].
    + intros H; inversion H; subst. simpl. auto.
    + unfold mix_from.
      destruct (if sl_cleared _ then _ else _) as [out1 fr_out].
      destruct (sl_break _ || _).
      * intros H; inversion H; subst. simpl. auto.
      * unfold run_mixer. destruct (destination _ _ _ _ _) as [blk|].
        -- destruct (mix m); [|discriminate].
           intros H; inversion H; subst. simpl. auto.
        -- intros H; inversion H; subst. simpl. auto.
  - intros H; inversion H; subst. auto.
Qed.

(** X3. The gain stays in step.  [aout_MixerMultiplierSet] writes the
    multiplier of the instance and of the bound mixer, so that the two
    agree afterwards whatever they were; it binds and unbinds nothing.
    The agreement is kept by [aout_MixerDelete] and by [MixBuffer].
    [aout_MixerNew] hands the module an object that carries the gain and
    the format of the instance (lines 53 and 55): with a module that
    leaves the multiplier it was handed, the mixer attached carries the
    gain of the instance, so a mixer attached after a gain was set carries
    that gain; with a module that leaves the format, it works in the
    mixer format of the instance. *)
Theorem gain_stays_in_step (p_aout : aout_instance_t) (f : Z) :
  (multiplier_in_step (aout_MixerMultiplierSet p_aout f)
   /\ mixer_multiplier (aout_MixerMultiplierSet p_aout f) = f
   /\ (p_mixer (aout_MixerMultiplierSet p_aout f) = None
       <-> p_mixer p_aout = None))
  /\ multiplier_in_step (aout_MixerDelete p_aout)
  /\ (forall alloc play now t p_aout' freed,
        multiplier_in_step p_aout ->
        MixBuffer alloc play now p_aout = Some (t, p_aout', freed) ->
        multiplier_in_step p_aout')
  /\ (forall vlc_object_create module_need code p_aout',
        (forall obj handle m,
           module_need obj = Some (handle, m) ->
           multiplier m = multiplier obj) ->
        aout_MixerNew vlc_object_create module_need p_aout
        = Some (code, p_aout') ->
        multiplier_in_step p_aout'
        /\ mixer_multiplier p_aout' = mixer_multiplier p_aout
        /\ (code = VLC_SUCCESS ->
            exists m, p_mixer p_aout' = Some m
                      /\ multiplier m = mixer_multiplier p_aout))
  /\ (forall vlc_object_create module_need code p_aout',
        (forall obj handle m,
           module_need obj = Some (handle, m) ->
           multiplier m = multiplier obj) ->
        aout_MixerNew vlc_object_create module_need
                      (aout_MixerMultiplierSet p_aout f)
        = Some (code, p_aout') ->
        multiplier_in_step p_aout'
        /\ mixer_multiplier p_aout' = f
        /\ (code = VLC_SUCCESS ->
            exists m, p_mixer p_aout' = Some m /\ multiplier m = f))
  /\ (forall vlc_object_create module_need p_aout',
        (forall obj handle m,
           module_need obj = Some (handle, m) -> fmt m = fmt obj) ->
        aout_MixerNew vlc_object_create module_need p_aout
        = Some (VLC_SUCCESS, p_aout') ->
        exists m, p_mixer p_aout' = Some m
                  /\ fmt m = mixer_format p_aout
                  /\ mixer_format p_aout' = mixer_format p_aout).
Proof.
  destruct (aout_MixerMultiplierSet_writes p_aout f f)
    as (Hf & Hstep & Hnone & _).
  assert (Hnew : forall p c need code p',
    (forall obj handle m,
       need obj = Some (handle, m) -> multiplier m = multiplier obj) ->
    aout_MixerNew c need p = Some (code, p') ->
    multiplier_in_step p'
    /\ mixer_multiplier p' = mixer_multiplier p
    /\ (code = VLC_SUCCESS ->
        exists m, p_mixer p' = Some m
                  /\ multiplier m = mixer_multiplier p)).
  { intros p c need code p' Hkeep Hrun. unfold aout_MixerNew in Hrun.
    destruct (p_mixer p) as [m0|] eqn:Hm0; [discriminate|].
    assert (Hsame : multiplier_in_step p
                    /\ mixer_multiplier p = mixer_multiplier p
                    /\ (VLC_EGENERIC = VLC_SUCCESS ->
                        exists m, p_mixer p = Some m
                                  /\ multiplier m = mixer_multiplier p)).
    { split; [|split; [reflexivity | discriminate]].
      intros m Hm. congruence. }
    destruct (negb c); [inversion Hrun; subst; exact Hsame|].
    destruct (need (new_mixer_object p)) as [[handle m]|] eqn:Hneed;
      [|inversion Hrun; subst; exact Hsame].
    inversion Hrun; subst; clear Hrun. simpl.
    (* line 55: the object handed to the module has the gain of the
       instance *)
    pose proof (Hkeep _ _ _ Hneed) as Hmul.
    change (multiplier (new_mixer_object p)) with (mixer_multiplier p)
      in Hmul.
    split; [|split].
    - intros m' Hm'. simpl in Hm'. injection Hm' as <-. simpl. exact Hmul.
    - reflexivity.
    - intros _. eexists. split; [reflexivity|]. exact Hmul. }
  split; [auto|]. split; [|split; [|split; [|split]]].
  - intros m Hm.
    destruct (aout_MixerDelete_unbinds p_aout) as (Hn & _). congruence.
  - intros alloc play now t p_aout' freed Hin Hrun m Hm.
    destruct (MixBuffer_keeps_mixer _ _ _ _ _ _ _ Hrun) as (H1 & H2 & _).
    rewrite H2. apply Hin. congruence.
  - intros c need code p' Hkeep Hrun. exact (Hnew _ _ _ _ _ Hkeep Hrun).
  - intros c need code p' Hkeep Hrun.
    destruct (Hnew _ _ _ _ _ Hkeep Hrun) as (H1 & H2 & H3).
    rewrite Hf in H2, H3. auto.
  - intros c need p' Hkeep Hrun. unfold aout_MixerNew in Hrun.
    destruct (p_mixer p_aout) as [m0|]; [discriminate|].
    destruct (negb c); [inversion Hrun|].
    destruct (need (new_mixer_object p_aout)) as [[handle m]|] eqn:Hneed;
      [|inversion Hrun].
    inversion Hrun; subst; clear Hrun. simpl.
    eexists. split; [reflexivity|]. simpl.
    (* line 53: the object handed to the module has the format of the
       instance *)
    split; [exact (Hkeep _ _ _ Hneed) | reflexivity].
Qed.

Lemma gain_stays_in_step_witness :
  exists m,
    p_mixer
      (aout_with_mixer
         (aout_MixerMultiplierSet
            (aout_of None [input_of false false [] None] (output_at 0)) 5)
         (Some {| fmt := fmt_pcm; b_alloc := true; multiplier := 5;
                  input := 0%nat; mix := Some kernel_idle; sys := None;
                  module := Some 7 |}))
    = Some m
    /\ multiplier m = 5.
Proof.
  destruct (gain_stays_in_step
              (aout_of None [input_of false false [] None] (output_at 0)) 5)
    as (_ & _ & _ & _ & Hset & _).
  apply (Hset true resolve_idle VLC_SUCCESS).
  - intros obj handle m H. injection H as _ <-. reflexivity.
  - reflexivity.
  - reflexivity.
Defined.

(** ** What a block is mixed from *)

Lemma contiguous_covers end_date prev_date chain :
  match contiguous end_date prev_date chain with
  | (false, _, _ :: _) => covers_from end_date prev_date chain = true
  | _ => covers_from end_date prev_date chain = false
  end.
Proof.
  revert prev_date; induction chain as [|buf p_next IH]; intros prev_date;
    simpl; [reflexivity|].
  destruct (Z.eqb_spec prev_date (i_pts buf)) as [Heq|Hne]; simpl;
    [|reflexivity].
  destruct (Z.geb_spec (i_pts buf + i_length buf) end_date) as [Hge|Hlt].
  - destruct (Z.leb_spec end_date (i_pts buf + i_length buf)); [|lia].
    reflexivity.
  - destruct (Z.leb_spec end_date (i_pts buf + i_length buf)); [lia|]. simpl.
    specialize (IH (i_pts buf + i_length buf)).
    destruct (contiguous end_date (i_pts buf + i_length buf) p_next)
      as [[d w] st].
    destruct d; [exact IH|]. destruct st; exact IH.
Qed.

Lemma enough_samples_covers end_date chain freed :
  let '(q, stop, _) := enough_samples end_date chain freed in
  covers end_date q = match stop with [] => false | _ :: _ => true end.
Proof.
  funelim (enough_samples end_date chain freed).
  - reflexivity.
  - simpl. rewrite Z.geb_leb in Heq. rewrite Heq. reflexivity.
  - exact H.
  - simpl. rewrite Z.geb_leb in Heq0. rewrite Heq0. simpl.
    match goal with
    | Hc : contiguous ?e ?p ?c = _ |- _ =>
      pose proof (contiguous_covers e p c) as Hcov; rewrite Hc in Hcov
    end.
    destruct stop; exact Hcov.
Qed.

Lemma cover_input_covers start_date end_date p_input :
  match cover_input start_date end_date p_input with
  | Cover_ok buf p_next _ _ => covers end_date (buf :: p_next) = true
  | Cover_stop p _ => covers end_date (p_first (fifo (mixer p))) = false
  end.
Proof.
  unfold cover_input.
  destruct (p_first (fifo (mixer p_input))) as [|b t] eqn:Hq.
  { rewrite Hq. reflexivity. }
  destruct (past_drop start_date (b :: t) (begin (mixer p_input)))
    as [[q1 bg1] fr1].
  destruct q1 as [|b1 q1]; [reflexivity|].
  pose proof (enough_samples_covers end_date (b1 :: q1) fr1) as Hc.
  pose proof (enough_samples_head end_date (b1 :: q1) fr1) as Hh.
  destruct (enough_samples end_date (b1 :: q1) fr1) as [[q2 stop] fr2].
  destruct stop as [|s0 stop]; [exact Hc|].
  destruct q2 as [|buf q2]; [|exact Hc].
  exfalso. eapply Hh; [reflexivity | discriminate | reflexivity].
Qed.

(** What the loop of lines 193-314 made of the input at index [j], when it
    ran to its end: an invalid input is flagged, a valid one went through
    [scan_input]. *)
Lemma scan_inputs_turn f sd ed ins : forall i k j p',
  sl_break (scan_inputs f sd ed i k ins) = false ->
  sl_inputs (scan_inputs f sd ed i k ins) !! j = Some p' ->
  exists p_input,
    ins !! j = Some p_input
    /\ ((valid_input p_input = false
         /\ p' = input_with_invalid p_input true)
        \/ (valid_input p_input = true
            /\ exists fr,
                 scan_input f sd ed (input_with_invalid p_input false)
                 = Scan_next p' fr)).
Proof.
  induction ins as [|p rest IH]; intros i k j p'; simpl.
  - intros _ H. rewrite lookup_nil in H. discriminate.
  - unfold valid_input.
    destruct (b_error p || b_paused p) eqn:Hinv; simpl.
    + intros Hb Hj. destruct j as [|j]; simpl in *.
      * inversion Hj; subst. exists p. split; [reflexivity|].
        left. rewrite Hinv. auto.
      * eapply IH; eassumption.
    + destruct (scan_input f sd ed (input_with_invalid p false))
        as [q fr | q fr c] eqn:Hs; simpl; [|discriminate].
      intros Hb Hj. destruct j as [|j]; simpl in *.
      * inversion Hj; subst. exists p. split; [reflexivity|].
        right. rewrite Hinv. eauto.
      * eapply IH; eassumption.
Qed.

Lemma scan_input_stream f sd ed p_input p' fr :
  scan_input f sd ed p_input = Scan_next p' fr ->
  b_error p' = b_error p_input
  /\ b_paused p' = b_paused p_input
  /\ is_invalid (mixer p') = is_invalid (mixer p_input)
  /\ covers ed (p_first (fifo (mixer p'))) = true.
Proof.
  unfold scan_input.
  pose proof (cover_input_covers sd ed p_input) as Hc.
  destruct (cover_input sd ed p_input) as [q fr0 | buf nx bg fr0];
    [discriminate|].
  destruct (AOUT_FMT_NON_LINEAR f).
  - intros H; inversion H; subst. simpl. auto.
  - destruct (place_begin f sd buf bg); [|discriminate].
    intros H; inversion H; subst. simpl. auto.
Qed.

(** X4. What the kernel may rely on.  When [MixBuffer] emits a block, the
    loop of lines 193-314 ran to its end on the inputs: every input has an
    [is_invalid] flag that says whether it is in error or paused, and the
    FIFO of every input that is not invalid holds blocks that follow each
    other with no hole from its head up to a block that ends at or after
    the end date of the emitted block. *)
Theorem emitted_block_is_covered
  (alloc : Z -> option aout_buffer_t)
  (play : aout_output_t -> aout_buffer_t -> aout_output_t)
  (now : mtime_t) (p_aout p_aout' : aout_instance_t)
  (p_outbuf : aout_buffer_t) (freed : list aout_buffer_t) :
  MixBuffer alloc play now p_aout = Some (Ready p_outbuf, p_aout', freed) ->
  exists m start_date exact ins out fr0,
    p_mixer p_aout = Some m
    /\ start_of_tick now p_aout = Start_at start_date exact ins out fr0
    /\ i_pts p_outbuf = start_date
    /\ let end_date :=
         date_Get (date_Increment exact (output_i_nb_samples out)) in
       let r := scan_inputs (fmt m) start_date end_date 0 0 ins in
       i_pts p_outbuf + i_length p_outbuf = end_date
       /\ sl_break r = false
       /\ forall j p_input,
            sl_inputs r !! j = Some p_input ->
            is_invalid (mixer p_input) = negb (valid_input p_input)
            /\ (valid_input p_input = true ->
                covers end_date (p_first (fifo (mixer p_input))) = true).
Proof.
  intros Hrun.
  destruct (MixBuffer_Ready _ _ _ _ _ _ _ Hrun)
    as (m & sd & ex & ins & out & fr0 & Hm & Hs & Hpts & Hlen & _).
  exists m, sd, ex, ins, out, fr0.
  split; [exact Hm|]. split; [exact Hs|]. split; [exact Hpts|].
  cbv zeta. split; [lia|].
  assert (Hb : sl_break
                 (scan_inputs (fmt m) sd
                    (date_Get (date_Increment ex (output_i_nb_samples out)))
                    0 0 ins) = false).
  { unfold MixBuffer in Hrun. rewrite Hm, Hs in Hrun. unfold mix_from in Hrun.
    destruct (if sl_cleared _ then _ else _) as [out1 fr_out].
    destruct (sl_break _); [discriminate | reflexivity]. }
  split; [exact Hb|].
  intros j p' Hj.
  destruct (scan_inputs_turn _ _ _ _ _ _ _ _ Hb Hj)
    as (p & _ & [(Hv & ->) | (Hv & fr & Hturn)]).
  - unfold valid_input in *. simpl. rewrite Hv. split; [reflexivity|].
    discriminate.
  - destruct (scan_input_stream _ _ _ _ _ _ Hturn) as (He & Hp & Hi & Hc).
    simpl in He, Hp, Hi.
    assert (Hv' : valid_input p' = true).
    { unfold valid_input in *. rewrite He, Hp. exact Hv. }
    rewrite Hv', Hi. split; [reflexivity | intros _; exact Hc].
Qed.

Lemma emitted_block_is_covered_witness :
  covers 121333
         [pcm_block 100000 10000; pcm_block 121333 20000;
          pcm_block 142666 30000] = true.
Proof.
  destruct (emitted_block_is_covered alloc_block play_block 90000
              aout_cold_start aout_after_first (pcm_block 100000 900000) []
              ltac:(vm_compute; reflexivity))
    as (m & sd & ex & ins & out & fr0 & Hm & Hs & _ & _ & _ & Hall).
  vm_compute in Hm. injection Hm as <-.
  vm_compute in Hs. injection Hs as <- <- <- <- <-.
  destruct (Hall 0%nat
              (input_of false false
                        [pcm_block 100000 10000; pcm_block 121333 20000;
                         pcm_block 142666 30000] (Some 10000))
              ltac:(vm_compute; reflexivity)) as (_ & Hc).
  exact (Hc eq_refl).
Defined.




(** ** Calls with no valid input, and the date of a block *)

Lemma find_start_date_none_valid now ins : forall sd ex,
  Forall (fun p_input => valid_input p_input = false) ins ->
  find_start_date now sd ex ins = mk_start_scan false sd ex ins [].
Proof.
  induction ins as [|p rest IH]; intros sd ex Hall; [reflexivity|].
  inversion Hall as [|? ? Hp Hrest]; subst.
  unfold valid_input in Hp. apply negb_false_iff in Hp.
  simpl. rewrite Hp. rewrite (IH sd ex Hrest). reflexivity.
Qed.

Lemma scan_inputs_none_valid f sd ed ins : forall i,
  Forall (fun p_input => valid_input p_input = false) ins ->
  scan_inputs f sd ed i i ins
  = mk_scan_loop false false (i + length ins) (all_marked ins) [].
Proof.
  induction ins as [|p rest IH]; intros i Hall.
  - simpl. f_equal. lia.
  - inversion Hall as [|? ? Hp Hrest]; subst.
    unfold valid_input in Hp. apply negb_false_iff in Hp.
    simpl. rewrite Hp. rewrite Nat.eqb_refl. rewrite (IH (S i) Hrest).
    simpl. rewrite ?Hp. f_equal. lia.
Qed.

Lemma read_output_clock_cases now out :
  let '(sd, ex, out', fr) := read_output_clock now out in
  output_i_nb_samples out' = output_i_nb_samples out
  /\ (sd = 0 \/ now <= sd)
  /\ sd = date_Get ex.
Proof.
  unfold read_output_clock.
  destruct (negb _ && _) eqn:Hlate.
  - simpl. auto.
  - split; [reflexivity|]. split; [|reflexivity].
    apply andb_false_iff in Hlate. destruct Hlate as [H|H].
    + apply negb_false_iff in H. apply Z.eqb_eq in H. auto.
    + apply Z.ltb_ge in H. auto.
Qed.

(** X6. Without a valid input nothing is mixed.  When a mixer is bound
    and every input is in error or paused (or there is no input at all),
    [MixBuffer] returns [-1] and does not call [mix], not even a null one:
    line 316 finds [i_first_input == i_nb_inputs].  All it does is set
    [is_invalid] on every input and clear the output FIFO when its date is
    late; nothing is freed from the inputs, whose queues and cursors are
    as before. *)
Theorem no_valid_input_no_block
  (alloc : Z -> option aout_buffer_t)
  (play : aout_output_t -> aout_buffer_t -> aout_output_t)
  (now : mtime_t) (p_aout : aout_instance_t) (m : aout_mixer_t) :
  p_mixer p_aout = Some m ->
  Forall (fun p_input => valid_input p_input = false) (pp_inputs p_aout) ->
  let '(_, _, out, freed) := read_output_clock now (output p_aout) in
  MixBuffer alloc play now p_aout
  = Some (NotReady,
          aout_with_streams p_aout (all_marked (pp_inputs p_aout)) out,
          freed).
Proof.
  intros Hm Hall. unfold MixBuffer, start_of_tick. rewrite Hm.
  destruct (read_output_clock now (output p_aout)) as [[[sd ex] out] fr0].
  assert (Hgo : forall sd' ex',
    mix_from alloc play p_aout m sd' ex' (pp_inputs p_aout) out fr0
    = Some (NotReady,
            aout_with_streams p_aout (all_marked (pp_inputs p_aout)) out,
            fr0)).
  { intros sd' ex'. unfold mix_from.
    rewrite (scan_inputs_none_valid _ _ _ _ 0%nat Hall). simpl.
    rewrite Nat.eqb_refl. rewrite !app_nil_r. reflexivity. }
  destruct (sd =? 0).
  - rewrite (find_start_date_none_valid _ _ _ _ Hall). simpl.
    rewrite app_nil_r. apply Hgo.
  - apply Hgo.
Qed.

Lemma no_valid_input_no_block_witness :
  MixBuffer alloc_block play_block 90000
    (aout_of (Some (mixer_of fmt_pcm true))
             [input_of true false [pcm_block 100000 10000] None;
              input_of false true [pcm_block 100000 20000] (Some 20004)]
             (output_at 100000))
  = Some (NotReady,
          aout_of (Some (mixer_of fmt_pcm true))
             (all_marked
                [input_of true false [pcm_block 100000 10000] None;
                 input_of false true [pcm_block 100000 20000] (Some 20004)])
             (output_at 100000),
          []).
Proof.
  exact (no_valid_input_no_block alloc_block play_block 90000
           (aout_of (Some (mixer_of fmt_pcm true))
              [input_of true false [pcm_block 100000 10000] None;
               input_of false true [pcm_block 100000 20000] (Some 20004)]
              (output_at 100000))
           (mixer_of fmt_pcm true) eq_refl
           ltac:(repeat constructor)).
Defined.

(** What a call that returns [0] went through: both loops ran to their
    end, a valid input was found, the destination is not [NULL] and [mix]
    was called. *)
Lemma MixBuffer_Ready_inv alloc play now p_aout p_outbuf p_aout' freed :
  MixBuffer alloc play now p_aout = Some (Ready p_outbuf, p_aout', freed) ->
  exists m start_date exact ins out fr0 blk kernel,
    p_mixer p_aout = Some m
    /\ start_of_tick now p_aout = Start_at start_date exact ins out fr0
    /\ mix m = Some kernel
    /\ let end_date :=
         date_Get (date_Increment exact (output_i_nb_samples out)) in
       let r := scan_inputs (fmt m) start_date end_date 0 0 ins in
       sl_break r = false
       /\ sl_cleared r = false
       /\ sl_first_input r <> length ins
       /\ destination alloc m out (sl_first_input r) (sl_inputs r) = Some blk
       /\ p_outbuf = buffer_with_dates blk start_date (end_date - start_date)
       /\ freed = fr0 ++ sl_freed r
       /\ output p_aout' = play out p_outbuf
       /\ pp_inputs p_aout'
          = kernel
              (if b_alloc m then sl_inputs r
               else match sl_inputs r !! sl_first_input r with
                    | Some p_input =>
                      <[sl_first_input r :=
                          stamp_head p_input start_date
                                     (end_date - start_date)]> (sl_inputs r)
                    | None => sl_inputs r
                    end)
              p_outbuf.
Proof.
  unfold MixBuffer. destruct (p_mixer p_aout) as [m|]; [|discriminate].
  destruct (start_of_tick now p_aout) as [ins out fr0 | sd ex ins out fr0];
    [discriminate|].
  intros H. unfold mix_from in H.
  pose proof (sl_cleared_break (fmt m) sd
                (date_Get (date_Increment ex (output_i_nb_samples out)))
                ins 0 0) as Hcl.
  destruct (sl_cleared _) eqn:Hc.
  { rewrite (Hcl eq_refl) in H. simpl in H. discriminate. }
  destruct (sl_break _) eqn:Hb; [discriminate|].
  destruct (Nat.eqb _ _) eqn:Hf; [discriminate|]. simpl in H.
  unfold run_mixer in H.
  destruct (destination alloc m out _ _) as [blk|] eqn:Hd; [|discriminate].
  destruct (mix m) as [kernel|] eqn:Hk; [|discriminate].
  inversion H; subst; clear H.
  exists m, sd, ex, ins, out, fr0, blk, kernel. cbv zeta.
  rewrite Hb, Hc. apply Nat.eqb_neq in Hf.
  rewrite !app_nil_r.
  repeat split; auto.
Qed.

Lemma find_start_date_not_before now ins : forall sd ex,
  (sd = 0 \/ now <= sd) ->
  let d := find_start_date now sd ex ins in
  ss_break d = false ->
  (now <= ss_start_date d
   \/ (ss_start_date d = sd
       /\ Forall (fun p_input => valid_input p_input = false) (ss_inputs d))).
Proof.
  induction ins as [|p rest IH]; intros sd ex Hsd; simpl.
  - intros _. right. split; [reflexivity | constructor].
  - destruct (b_error p || b_paused p) eqn:Hinv.
    + simpl. intros Hb. destruct (IH sd ex Hsd Hb) as [H | (H1 & H2)];
        [left; exact H|].
      right. split; [exact H1|]. constructor; [|exact H2].
      unfold valid_input. rewrite Hinv. reflexivity.
    + destruct (trash_late_spec now (p_first (fifo (mixer p)))
                  (pp_last (fifo (mixer p))) (begin (mixer p)))
        as (l' & dropped & Ht & Hq & Hlate).
      rewrite Ht.
      pose proof (drop_late_head now (p_first (fifo (mixer p)))) as Hhead.
      destruct (drop_late now (p_first (fifo (mixer p)))) as [|buf q];
        [simpl; discriminate|].
      specialize (Hhead buf q eq_refl).
      simpl. intros Hb. left.
      set (later := (sd =? 0) || (sd <? i_pts buf)) in *.
      assert (Hsd' : now <= (if later then i_pts buf else sd)).
      { unfold later. destruct (Z.eqb_spec sd 0) as [H0|H0]; simpl.
        - exact Hhead.
        - destruct (Z.ltb_spec sd (i_pts buf)); [exact Hhead | lia]. }
      destruct (IH (if later then i_pts buf else sd)
                   (if later then date_Set ex (i_pts buf) else ex)
                   (or_intror Hsd') Hb) as [H | (H1 & _)].
      * exact H.
      * eapply Z.le_trans; [exact Hsd'|].
        apply Z.eq_le_incl. symmetry. exact H1.
Qed.

Lemma start_of_tick_not_before now p_aout sd ex ins out fr :
  start_of_tick now p_aout = Start_at sd ex ins out fr ->
  now <= sd \/ Forall (fun p_input => valid_input p_input = false) ins.
Proof.
  unfold start_of_tick. intros Hs.
  pose proof (read_output_clock_cases now (output p_aout)) as Hclock.
  destruct (read_output_clock now (output p_aout)) as [[[sd0 ex0] out0] fr0].
  destruct Hclock as (_ & Hsd0 & _).
  destruct (Z.eqb_spec sd0 0) as [H0|H0].
  - destruct (ss_break (find_start_date now sd0 ex0 (pp_inputs p_aout)))
      eqn:Hb; [discriminate|].
    destruct (find_start_date_not_before now (pp_inputs p_aout) sd0 ex0
                Hsd0 Hb) as [Hle | (_ & Hnone)].
    + injection Hs as <- _ _ _ _. left. exact Hle.
    + injection Hs as _ _ <- _ _. right. exact Hnone.
  - injection Hs as <- _ _ _ _. left. lia.
Qed.

(** X7. No block is dated in the past.  A block that [MixBuffer] hands
    to the output starts at or after the clock reading of the call: the
    date of the output FIFO is used only when it is not late, and a start
    date that is looked for again is the date of the head of a queue from
    which the late blocks have been popped. *)
Theorem emitted_block_is_not_late
  (alloc : Z -> option aout_buffer_t)
  (play : aout_output_t -> aout_buffer_t -> aout_output_t)
  (now : mtime_t) (p_aout p_aout' : aout_instance_t)
  (p_outbuf : aout_buffer_t) (freed : list aout_buffer_t) :
  MixBuffer alloc play now p_aout = Some (Ready p_outbuf, p_aout', freed) ->
  now <= i_pts p_outbuf.
Proof.
  intros Hrun.
  destruct (MixBuffer_Ready_inv _ _ _ _ _ _ _ Hrun)
    as (m & sd & ex & ins & out & fr0 & blk & kernel & Hm & Hs & _ & Hr).
  cbv zeta in Hr.
  destruct Hr as (_ & _ & Hfirst & _ & -> & _). simpl.
  destruct (start_of_tick_not_before _ _ _ _ _ _ _ Hs) as [Hle | Hnone];
    [exact Hle|].
  (* with no valid input line 316 returns -1 *)
  rewrite (scan_inputs_none_valid _ _ _ _ 0%nat Hnone) in Hfirst.
  simpl in Hfirst. congruence.
Qed.

Lemma emitted_block_is_not_late_witness :
  90000 <= i_pts (pcm_block 100000 900000).
Proof.
  exact (emitted_block_is_not_late alloc_block play_block 90000
           aout_cold_start aout_after_first (pcm_block 100000 900000) []
           ltac:(vm_compute; reflexivity)).
Defined.

(** ** The blocks a call frees, and its destination *)

Lemma heads_removed_refl p : heads_removed p p [].
Proof. repeat split. Qed.

Lemma heads_removed_flag p v : heads_removed p (input_with_invalid p v) [].
Proof. repeat split. Qed.

Lemma heads_removed_trans p p1 p2 d1 d2 :
  heads_removed p p1 d1 -> heads_removed p1 p2 d2 ->
  heads_removed p p2 (d1 ++ d2).
Proof.
  intros (He1 & Hp1 & Hq1 & Hl1 & Hd1) (He2 & Hp2 & Hq2 & Hl2 & Hd2).
  repeat split; try congruence.
  - rewrite Hq1, Hq2. rewrite app_assoc. reflexivity.
  - rewrite Hl2, Hl1, Hq2. unfold tail_after.
    destruct d1, d2, (p_first (fifo (mixer p2))); reflexivity.
Qed.

Lemma heads_removed_all_refl ins :
  Forall3 heads_removed ins ins (map (fun _ => []) ins).
Proof.
  induction ins; simpl; constructor; auto using heads_removed_refl.
Qed.

Lemma concat_nils {A B} (l : list A) :
  concat (map (fun _ => @nil B) l) = [].
Proof. induction l; simpl; auto. Qed.

Lemma heads_removed_all_trans ins : forall ins1 ins2 ds1 ds2,
  Forall3 heads_removed ins ins1 ds1 ->
  Forall3 heads_removed ins1 ins2 ds2 ->
  Forall3 heads_removed ins ins2 (zip_with app ds1 ds2)
  /\ concat (zip_with app ds1 ds2) ≡ₚ concat ds1 ++ concat ds2.
Proof.
  induction ins as [|p rest IH]; intros ins1 ins2 ds1 ds2 H1 H2.
  - inversion H1; subst. inversion H2; subst. simpl. split; constructor.
  - inversion H1 as [|? ? ? ? ? ? Hh1 Ht1]; subst.
    inversion H2 as [|? ? ? ? ? ? Hh2 Ht2]; subst.
    destruct (IH _ _ _ _ Ht1 Ht2) as (Hall & Hperm).
    simpl. split.
    + constructor; [eapply heads_removed_trans; eauto | exact Hall].
    + rewrite Hperm. rewrite <- !app_assoc. apply Permutation_app_head.
      rewrite !app_assoc. apply Permutation_app_tail.
      apply Permutation_app_comm.
Qed.

Lemma trash_late_heads now chain : forall l bg,
  let '(q, l', _, fr) := trash_late now chain l bg in
  chain = fr ++ q /\ l' = tail_after l fr q.
Proof.
  induction chain as [|buf p_next IH]; intros l bg; simpl; [auto|].
  destruct (i_pts buf <? now); [|auto].
  specialize (IH (pop_last p_next l) None).
  destruct (trash_late now p_next (pop_last p_next l) None)
    as [[[q l'] bg'] fr].
  destruct IH as (Hq & Hl). split; [simpl; congruence|].
  rewrite Hl, Hq. unfold tail_after, pop_last.
  destruct fr, q; reflexivity.
Qed.

Lemma find_start_date_heads now ins : forall sd ex,
  exists ds,
    Forall3 heads_removed ins (ss_inputs (find_start_date now sd ex ins)) ds
    /\ ss_freed (find_start_date now sd ex ins) = concat ds.
Proof.
  induction ins as [|p rest IH]; intros sd ex; simpl.
  - exists []. split; constructor.
  - destruct (b_error p || b_paused p).
    + destruct (IH sd ex) as (ds & Hall & Hfr).
      exists ([] :: ds). simpl.
      split; [constructor; auto using heads_removed_refl | exact Hfr].
    + pose proof (trash_late_heads now (p_first (fifo (mixer p)))
                    (pp_last (fifo (mixer p))) (begin (mixer p))) as Ht.
      destruct (trash_late now _ _ _) as [[[q l'] bg'] fr].
      destruct Ht as (Hq & Hl).
      assert (Hp : heads_removed p (input_with_stream p q l' bg') fr)
        by (repeat split; assumption).
      destruct q as [|buf q'].
      * exists (fr :: map (fun _ => []) rest). simpl.
        split; [constructor; auto using heads_removed_all_refl|].
        rewrite concat_nils, app_nil_r. reflexivity.
      * match goal with
        | |- context [find_start_date now ?s ?e rest] =>
          destruct (IH s e) as (ds & Hall & Hfr)
        end.
        exists (fr :: ds). simpl.
        split; [constructor; assumption | rewrite Hfr; reflexivity].
Qed.

Lemma cover_input_heads start_date end_date p_input :
  match cover_input start_date end_date p_input with
  | Cover_stop p fr => heads_removed p_input p fr
  | Cover_ok buf p_next bg fr =>
    heads_removed p_input
      (input_with_stream p_input (buf :: p_next)
                         (pp_last (fifo (mixer p_input))) bg) fr
  end.
Proof.
  unfold cover_input.
  destruct (p_first (fifo (mixer p_input))) as [|b t] eqn:Hq.
  - repeat split; rewrite ?Hq; reflexivity.
  - destruct (past_drop_spec start_date (b :: t) (begin (mixer p_input)))
      as (dropped & kept & Hpd & Hsplit & _).
    rewrite Hpd.
    destruct kept as [|b1 q1].
    + repeat split; simpl.
      * rewrite Hq, Hsplit. reflexivity.
      * destruct dropped; [discriminate | reflexivity].
    + pose proof (enough_samples_spec end_date (b1 :: q1) dropped) as Hspec.
      pose proof (enough_samples_keeps_head end_date (b1 :: q1) dropped
                    ltac:(discriminate)) as Hhead.
      destruct (enough_samples end_date (b1 :: q1) dropped)
        as [[q2 stop] fr2].
      destruct Hspec as (d & Hq1 & Hfr & _). simpl in Hhead.
      destruct q2 as [|buf q2]; [contradiction|].
      assert (Hgo : forall bg,
        heads_removed p_input
          (input_with_stream p_input (buf :: q2)
                             (pp_last (fifo (mixer p_input))) bg) fr2).
      { intros bg. repeat split; simpl.
        - rewrite Hq, Hsplit, Hq1, Hfr, app_assoc. reflexivity.
        - destruct fr2; reflexivity. }
      destruct stop; apply Hgo.
Qed.

Lemma scan_input_heads f start_date end_date p_input :
  match scan_input f start_date end_date p_input with
  | Scan_next p fr | Scan_stop p fr _ => heads_removed p_input p fr
  end.
Proof.
  unfold scan_input.
  pose proof (cover_input_heads start_date end_date p_input) as Hc.
  destruct (cover_input start_date end_date p_input)
    as [p fr | buf p_next bg fr]; [exact Hc|].
  assert (Hgo : forall bg',
    heads_removed p_input
      (input_with_stream p_input (buf :: p_next)
                         (pp_last (fifo (mixer p_input))) bg') fr).
  { intros bg'. destruct Hc as (H1 & H2 & H3 & H4 & H5).
    repeat split; assumption. }
  destruct (AOUT_FMT_NON_LINEAR f); [apply Hgo|].
  destruct (place_begin f start_date buf bg); apply Hgo.
Qed.

Lemma scan_inputs_heads f sd ed ins : forall i k,
  exists ds,
    Forall3 heads_removed ins (sl_inputs (scan_inputs f sd ed i k ins)) ds
    /\ sl_freed (scan_inputs f sd ed i k ins) = concat ds.
Proof.
  induction ins as [|p rest IH]; intros i k; simpl.
  - exists []. split; constructor.
  - destruct (b_error p || b_paused p) eqn:Hinv; simpl.
    + match goal with
      | |- context [scan_inputs f sd ed ?a ?b rest] =>
        destruct (IH a b) as (ds & Hall & Hfr)
      end.
      exists ([] :: ds). simpl.
      split; [constructor; auto using heads_removed_flag | exact Hfr].
    + pose proof (scan_input_heads f sd ed (input_with_invalid p false))
        as Hs.
      destruct (scan_input f sd ed (input_with_invalid p false))
        as [p' fr | p' fr c].
      * destruct (IH (S i) k) as (ds & Hall & Hfr).
        exists (fr :: ds). simpl.
        split; [constructor; [exact Hs | exact Hall]
               | rewrite Hfr; reflexivity].
      * exists (fr :: map (fun _ => []) rest). simpl.
        split; [constructor; [exact Hs | apply heads_removed_all_refl]|].
        rewrite concat_nils, app_nil_r. reflexivity.
Qed.

Lemma read_output_clock_freed now out :
  let '(_, _, out', fr) := read_output_clock now out in
  let late :=
    negb (date_Get (end_date (output_fifo out)) =? 0)
    && (date_Get (end_date (output_fifo out)) <? now) in
  fr = (if late then p_first (output_fifo out) else [])
  /\ (if late then p_first (output_fifo out') = [] else out' = out).
Proof.
  unfold read_output_clock. destruct (negb _ && _); simpl; auto.
Qed.

(** X8. What a call frees.  With a mixer bound, [MixBuffer] takes blocks
    only from the head of the input queues: each queue is afterwards a
    tail of the queue before, the flags and the date of the FIFO are as
    before, and the tail pointer is as before unless the queue was emptied,
    in which case it is rewound.  The blocks freed are, up to their order,
    the blocks taken from the queues, and the blocks of the output FIFO
    when the call reset the clock: no other block is freed, and none
    twice.  When the call returns [-1] these queues are the ones it
    leaves. *)
Theorem freed_blocks_are_removed_heads
  (alloc : Z -> option aout_buffer_t)
  (play : aout_output_t -> aout_buffer_t -> aout_output_t)
  (now : mtime_t) (p_aout p_aout' : aout_instance_t) (m : aout_mixer_t)
  (t : tick_t) (freed : list aout_buffer_t) :
  p_mixer p_aout = Some m ->
  MixBuffer alloc play now p_aout = Some (t, p_aout', freed) ->
  exists ins' ds,
    Forall3 heads_removed (pp_inputs p_aout) ins' ds
    /\ freed ≡ₚ concat ds
                ++ (if clock_reset now p_aout
                    then p_first (output_fifo (output p_aout)) else [])
    /\ (t = NotReady -> pp_inputs p_aout' = ins').
Proof.
  intros Hm Hrun. unfold clock_reset. rewrite Hm.
  unfold MixBuffer in Hrun. rewrite Hm in Hrun.
  unfold output_clock.
  assert (Hstart : exists ds1 fr0,
    match start_of_tick now p_aout with
    | Start_break ins out fr | Start_at _ _ ins out fr =>
      Forall3 heads_removed (pp_inputs p_aout) ins ds1
      /\ fr = fr0 ++ concat ds1
      /\ let late :=
           negb (date_Get (end_date (output_fifo (output p_aout))) =? 0)
           && (date_Get (end_date (output_fifo (output p_aout))) <? now) in
         fr0 = (if late then p_first (output_fifo (output p_aout)) else [])
         /\ (if late then p_first (output_fifo out) = []
             else out = output p_aout)
    end).
  { unfold start_of_tick.
    pose proof (read_output_clock_freed now (output p_aout)) as Hc.
    destruct (read_output_clock now (output p_aout)) as [[[sd0 ex0] out0] fr].
    cbv zeta in Hc.
    destruct (sd0 =? 0).
    - destruct (find_start_date_heads now (pp_inputs p_aout) sd0 ex0)
        as (ds1 & Hall & Hfr).
      exists ds1, fr. rewrite Hfr.
      destruct (ss_break _); (split; [exact Hall|]); (split; [reflexivity|]);
        exact Hc.
    - exists (map (fun _ => []) (pp_inputs p_aout)), fr.
      split; [apply heads_removed_all_refl|].
      rewrite concat_nils, app_nil_r. split; [reflexivity | exact Hc]. }
  destruct Hstart as (ds1 & fr0 & Hstart).
  destruct (start_of_tick now p_aout) as [ins out fr | sd ex ins out fr].
  - destruct Hstart as (Hall & -> & Hfr0 & _).
    inversion Hrun; subst t p_aout' freed; clear Hrun.
    exists ins, ds1. split; [exact Hall|]. rewrite orb_false_r.
    split; [|reflexivity].
    cbv zeta in Hfr0. rewrite <- Hfr0. apply Permutation_app_comm.
  - destruct Hstart as (Hall & -> & Hfr0 & Hout). cbv zeta in Hfr0, Hout.
    unfold mix_from in Hrun.
    set (r := scan_inputs (fmt m) sd
                (date_Get (date_Increment ex (output_i_nb_samples out)))
                0 0 ins) in *.
    destruct (scan_inputs_heads (fmt m) sd
                (date_Get (date_Increment ex (output_i_nb_samples out)))
                ins 0%nat 0%nat) as (ds2 & Hall2 & Hfr2).
    fold r in Hall2, Hfr2.
    destruct (heads_removed_all_trans _ _ _ _ _ Hall Hall2)
      as (Hall3 & Hperm).
    exists (sl_inputs r), (zip_with app ds1 ds2).
    split; [exact Hall3|].
    assert (Hfreed :
      (fr0 ++ concat ds1)
        ++ sl_freed r
        ++ (if sl_cleared r then p_first (output_fifo out) else [])
      ≡ₚ concat (zip_with app ds1 ds2)
           ++ (if negb (date_Get (end_date (output_fifo (output p_aout)))
                        =? 0)
                  && (date_Get (end_date (output_fifo (output p_aout)))
                      <? now)
                  || sl_cleared r
               then p_first (output_fifo (output p_aout)) else [])).
    { rewrite Hperm, Hfr2.
      destruct (negb _ && _); simpl.
      - rewrite Hout. rewrite Hfr0.
        destruct (sl_cleared r); rewrite app_nil_r;
          rewrite <- app_assoc; apply Permutation_app_comm.
      - rewrite Hout, Hfr0. simpl. rewrite <- app_assoc. reflexivity. }
    destruct (if sl_cleared r then _ else _) as [out1 fr_out] eqn:Hcl.
    assert (Hfr_out :
      fr_out = if sl_cleared r then p_first (output_fifo out) else []).
    { destruct (sl_cleared r); simpl in Hcl; inversion Hcl; reflexivity. }
    subst fr_out.
    destruct (sl_break r || Nat.eqb (sl_first_input r) (length ins)).
    + inversion Hrun; subst t p_aout' freed; clear Hrun.
      split; [exact Hfreed | reflexivity].
    + unfold run_mixer in Hrun.
      destruct (destination alloc m out1 _ _).
      * destruct (mix m); [|discriminate].
        inversion Hrun; subst t p_aout' freed; clear Hrun.
        split; [exact Hfreed | discriminate].
      * inversion Hrun; subst t p_aout' freed; clear Hrun.
        split; [exact Hfreed | reflexivity].
Qed.

Lemma freed_blocks_are_removed_heads_witness :
  exists ins' ds,
    Forall3 heads_removed (pp_inputs aout_stale_head) ins' ds
    /\ [pcm_block 50000 10000; pcm_block 200000 20000]
       ≡ₚ concat ds
          ++ (if clock_reset 300000 aout_stale_head
              then p_first (output_fifo (output aout_stale_head)) else [])
    /\ (NotReady = NotReady
        -> pp_inputs
             (aout_of (Some (mixer_of fmt_pcm true))
                      [input_of false false [] None] (output_at 0))
           = ins').
Proof.
  exact (freed_blocks_are_removed_heads alloc_block play_block 300000
           aout_stale_head
           (aout_of (Some (mixer_of fmt_pcm true))
                    [input_of false false [] None] (output_at 0))
           (mixer_of fmt_pcm true) NotReady
           [pcm_block 50000 10000; pcm_block 200000 20000]
           eq_refl ltac:(vm_compute; reflexivity)).
Defined.

Lemma start_of_tick_heads now p_aout :
  match start_of_tick now p_aout with
  | Start_break ins out _ | Start_at _ _ ins out _ =>
    output_i_nb_samples out = output_i_nb_samples (output p_aout)
    /\ exists ds, Forall3 heads_removed (pp_inputs p_aout) ins ds
  end.
Proof.
  unfold start_of_tick.
  pose proof (read_output_clock_cases now (output p_aout)) as Hc.
  destruct (read_output_clock now (output p_aout)) as [[[sd0 ex0] out0] fr].
  destruct Hc as (Hn & _).
  destruct (sd0 =? 0).
  - destruct (find_start_date_heads now (pp_inputs p_aout) sd0 ex0)
      as (ds1 & Hall & _).
    destruct (ss_break _); (split; [exact Hn | exists ds1; exact Hall]).
  - split; [exact Hn|]. eexists. apply heads_removed_all_refl.
Qed.

Lemma scan_inputs_first_skips f sd ed ins : forall i j p_input,
  let r := scan_inputs f sd ed i i ins in
  sl_break r = false ->
  (j < sl_first_input r - i)%nat ->
  ins !! j = Some p_input ->
  valid_input p_input = false.
Proof.
  induction ins as [|p rest IH]; intros i j q; simpl.
  - intros _ _ H. rewrite lookup_nil in H. discriminate.
  - unfold valid_input.
    destruct (b_error p || b_paused p) eqn:Hinv; simpl.
    + rewrite Nat.eqb_refl. intros Hb Hlt Hj.
      destruct j as [|j]; simpl in Hj.
      * inversion Hj; subst q. rewrite Hinv. reflexivity.
      * apply (IH (S i) j q Hb); [lia | exact Hj].
    + destruct (scan_input f sd ed (input_with_invalid p false))
        as [p' fr | p' fr c]; simpl; [|discriminate].
      intros Hb Hlt.
      destruct (scan_inputs_first f sd ed rest (S i) i Hb) as (H1 & _).
      rewrite (H1 ltac:(lia)) in Hlt. lia.
Qed.

(** X9. Where the samples go.  When the kernel asks for an allocation
    ([b_alloc]), the block handed to the output comes from [block_Alloc],
    asked for [i_nb_samples * i_bytes_per_frame / i_frame_length] bytes
    (the product in 32 bits), and its sample count is that of the output.
    Otherwise it is a block that was queued in the first input that is
    neither in error nor paused: it has the payload and the sample count
    of that block, only its dates are written, and [mix] is given that
    input with the block, dates written, at the head of its queue. *)
Theorem destination_of_emitted_block
  (alloc : Z -> option aout_buffer_t)
  (play : aout_output_t -> aout_buffer_t -> aout_output_t)
  (now : mtime_t) (p_aout p_aout' : aout_instance_t)
  (p_outbuf : aout_buffer_t) (freed : list aout_buffer_t) :
  MixBuffer alloc play now p_aout = Some (Ready p_outbuf, p_aout', freed) ->
  exists m,
    p_mixer p_aout = Some m
    /\ if b_alloc m then
         exists blk,
           alloc (Z.quot ((output_i_nb_samples (output p_aout)
                           * i_bytes_per_frame (fmt m)) mod UINT32_MOD)
                         (i_frame_length (fmt m)))
           = Some blk
           /\ i_nb_samples p_outbuf = output_i_nb_samples (output p_aout)
           /\ p_buffer p_outbuf = p_buffer blk
           /\ i_buffer p_outbuf = i_buffer blk
       else
         exists j p_input buf,
           pp_inputs p_aout !! j = Some p_input
           /\ valid_input p_input = true
           /\ (forall i q, (i < j)%nat -> pp_inputs p_aout !! i = Some q ->
                           valid_input q = false)
           /\ buf ∈ p_first (fifo (mixer p_input))
           /\ i_nb_samples p_outbuf = i_nb_samples buf
           /\ p_buffer p_outbuf = p_buffer buf
           /\ i_buffer p_outbuf = i_buffer buf
           /\ exists kernel ins p_input' p_next,
                mix m = Some kernel
                /\ pp_inputs p_aout' = kernel ins p_outbuf
                /\ ins !! j = Some p_input'
                /\ p_first (fifo (mixer p_input')) = p_outbuf :: p_next.
Proof.
  intros Hrun.
  destruct (MixBuffer_Ready_inv _ _ _ _ _ _ _ Hrun)
    as (m & sd & ex & ins & out & fr0 & blk & kernel & Hm & Hs & Hk & Hr).
  cbv zeta in Hr.
  destruct Hr as (Hb & _ & Hfirst & Hdest & -> & _ & _ & Hins).
  exists m. split; [exact Hm|].
  pose proof (start_of_tick_heads now p_aout) as Hh. rewrite Hs in Hh.
  destruct Hh as (Hn & ds1 & Hall1).
  set (ed := date_Get (date_Increment ex (output_i_nb_samples out))) in *.
  set (r := scan_inputs (fmt m) sd ed 0 0 ins) in *.
  unfold destination in Hdest.
  destruct (b_alloc m).
  - rewrite Hn in Hdest.
    destruct (alloc _) as [blk0|]; [|discriminate].
    injection Hdest as <-. exists blk0. repeat split; reflexivity.
  - destruct (sl_inputs r !! sl_first_input r) as [p2|] eqn:Hj;
      [|discriminate].
    destruct (p_first (fifo (mixer p2))) as [|hd tl] eqn:Hq2;
      [discriminate|].
    simpl in Hdest. injection Hdest as ->.
    destruct (scan_inputs_heads (fmt m) sd ed ins 0%nat 0%nat)
      as (ds2 & Hall2 & _). fold r in Hall2.
    destruct (heads_removed_all_trans _ _ _ _ _ Hall1 Hall2) as (Hall & _).
    destruct (Forall3_lookup_m _ _ _ _ _ _ Hall Hj)
      as (p0 & d & Hj0 & _ & He & Hp & Hq & _).
    destruct (scan_inputs_first (fmt m) sd ed ins 0%nat 0%nat Hb)
      as (_ & Hf).
    destruct (Hf eq_refl) as (_ & Hflag). fold r in Hflag.
    rewrite Nat.sub_0_r in Hflag. specialize (Hflag p2 Hj).
    exists (sl_first_input r), p0, blk.
    split; [exact Hj0|].
    assert (Hvalid : forall i q q', pp_inputs p_aout !! i = Some q ->
                       ins !! i = Some q' -> valid_input q = valid_input q').
    { intros i q q' Hi Hi'.
      destruct (Forall3_lookup_l _ _ _ _ _ _ Hall1 Hi)
        as (q1 & d1 & Hi1 & _ & He1 & Hp1 & _).
      rewrite Hi' in Hi1. injection Hi1 as <-.
      unfold valid_input. rewrite He1, Hp1. reflexivity. }
    split; [|split; [|split; [|split; [|split; [|split]]]]];
      try reflexivity.
    + destruct (scan_inputs_turn _ _ _ _ _ _ _ _ Hb Hj)
        as (p1 & Hj1 & [(_ & Heq) | (Hv & _)]).
      * rewrite Heq in Hflag. simpl in Hflag. discriminate.
      * rewrite (Hvalid _ _ _ Hj0 Hj1). exact Hv.
    + intros i q Hlt Hi.
      destruct (Forall3_lookup_l _ _ _ _ _ _ Hall1 Hi)
        as (q1 & d1 & Hi1 & _).
      rewrite (Hvalid _ _ _ Hi Hi1).
      apply (scan_inputs_first_skips (fmt m) sd ed ins 0%nat i q1 Hb);
        [fold r; lia | exact Hi1].
    + rewrite Hq, Hq2. apply elem_of_app. right. apply elem_of_cons. auto.
    + cbv iota in Hins.
      eexists kernel, _, _, tl. split; [exact Hk|].
      split; [exact Hins|]. split.
      * apply list_lookup_insert_eq. apply (lookup_lt_Some _ _ _ Hj).
      * unfold stamp_head. rewrite Hq2. reflexivity.
Qed.

Lemma destination_of_emitted_block_witness :
  exists m,
    p_mixer aout_cold_start = Some m
    /\ if b_alloc m then
         exists blk,
           alloc_block
             (Z.quot ((output_i_nb_samples (output aout_cold_start)
                       * i_bytes_per_frame (fmt m)) mod UINT32_MOD)
                     (i_frame_length (fmt m)))
           = Some blk
           /\ i_nb_samples (pcm_block 100000 900000)
              = output_i_nb_samples (output aout_cold_start)
           /\ p_buffer (pcm_block 100000 900000) = p_buffer blk
           /\ i_buffer (pcm_block 100000 900000) = i_buffer blk
       else
         exists j p_input buf,
           pp_inputs aout_cold_start !! j = Some p_input
           /\ valid_input p_input = true
           /\ (forall i q, (i < j)%nat ->
                           pp_inputs aout_cold_start !! i = Some q ->
                           valid_input q = false)
           /\ buf ∈ p_first (fifo (mixer p_input))
           /\ i_nb_samples (pcm_block 100000 900000) = i_nb_samples buf
           /\ p_buffer (pcm_block 100000 900000) = p_buffer buf
           /\ i_buffer (pcm_block 100000 900000) = i_buffer buf
           /\ exists kernel ins p_input' p_next,
                mix m = Some kernel
                /\ pp_inputs aout_after_first
                   = kernel ins (pcm_block 100000 900000)
                /\ ins !! j = Some p_input'
                /\ p_first (fifo (mixer p_input'))
                   = pcm_block 100000 900000 :: p_next.
Proof.
  exact (destination_of_emitted_block alloc_block play_block 90000
           aout_cold_start aout_after_first (pcm_block 100000 900000) []
           ltac:(vm_compute; reflexivity)).
Defined.

Lemma fmt_pcm_divides : format_divides fmt_pcm.
Proof. split; [|intros _]; simpl; lia. Qed.

(** X10. A failed allocation.  When the kernel asks for an allocation
    and [block_Alloc] fails, [MixBuffer] returns [-1], [mix] is not called
    and the mixer stays bound, for a format whose divisors are above [0].
    The call leaves what a call with a working allocator hands to the
    kernel: the same blocks are freed, and the inputs are those [mix]
    would have been given. *)
Theorem failed_allocation_gives_no_block
  (alloc : Z -> option aout_buffer_t)
  (play : aout_output_t -> aout_buffer_t -> aout_output_t)
  (now : mtime_t) (p_aout : aout_instance_t) (m : aout_mixer_t) :
  p_mixer p_aout = Some m ->
  format_divides (fmt m) ->
  b_alloc m = true ->
  alloc (Z.quot ((output_i_nb_samples (output p_aout)
                  * i_bytes_per_frame (fmt m)) mod UINT32_MOD)
                (i_frame_length (fmt m))) = None ->
  exists p_aout' freed,
    MixBuffer alloc play now p_aout = Some (NotReady, p_aout', freed)
    /\ p_mixer p_aout' = Some m
    /\ forall alloc2 p_outbuf p_aout2 freed2,
         MixBuffer alloc2 play now p_aout
         = Some (Ready p_outbuf, p_aout2, freed2) ->
         freed2 = freed
         /\ exists kernel,
              mix m = Some kernel
              /\ pp_inputs p_aout2 = kernel (pp_inputs p_aout') p_outbuf.
Proof.
  intros Hm _ Halloc Hnone.
  assert (Hinv : forall alloc2 p_outbuf p_aout2 freed2,
    MixBuffer alloc2 play now p_aout = Some (Ready p_outbuf, p_aout2, freed2)
    -> exists sd ex ins out fr0 kernel,
         start_of_tick now p_aout = Start_at sd ex ins out fr0
         /\ mix m = Some kernel
         /\ let r := scan_inputs (fmt m) sd
                       (date_Get (date_Increment ex (output_i_nb_samples out)))
                       0 0 ins in
            sl_break r = false /\ sl_cleared r = false
            /\ sl_first_input r <> length ins
            /\ freed2 = fr0 ++ sl_freed r
            /\ pp_inputs p_aout2 = kernel (sl_inputs r) p_outbuf).
  { intros alloc2 b p2 fr2 H2.
    destruct (MixBuffer_Ready_inv _ _ _ _ _ _ _ H2)
      as (m' & sd & ex & ins & out & fr0 & blk & kernel & Hm' & Hs & Hk & Hr).
    rewrite Hm in Hm'. injection Hm' as <-. cbv zeta in Hr.
    destruct Hr as (Hb & Hc & Hf & _ & _ & Hfr & _ & Hins).
    rewrite Halloc in Hins.
    exists sd, ex, ins, out, fr0, kernel. cbv zeta. auto 10. }
  unfold MixBuffer at 1. rewrite Hm.
  pose proof (start_of_tick_heads now p_aout) as Hh.
  destruct (start_of_tick now p_aout) as [ins out fr | sd ex ins out fr]
    eqn:Hs; destruct Hh as (Hn & _).
  - eexists _, _. split; [reflexivity|]. split; [exact Hm|].
    intros alloc2 b p2 fr2 H2.
    destruct (Hinv _ _ _ _ H2) as (? & ? & ? & ? & ? & ? & Hs' & _).
    discriminate.
  - unfold mix_from.
    set (r := scan_inputs (fmt m) sd _ 0 0 ins).
    destruct (sl_cleared r) eqn:Hc.
    { assert (Hb : sl_break r = true) by (apply sl_cleared_break; exact Hc).
      rewrite Hb. simpl.
      eexists _, _. split; [reflexivity|]. split; [exact Hm|].
      intros alloc2 b p2 fr2 H2.
      destruct (Hinv _ _ _ _ H2)
        as (? & ? & ? & ? & ? & ? & Hs' & _ & Hr).
      injection Hs' as <- <- <- <- <-. cbv zeta in Hr. fold r in Hr.
      destruct Hr as (_ & Hc' & _). congruence. }
    destruct (sl_break r || Nat.eqb (sl_first_input r) (length ins)) eqn:Hbf.
    + eexists _, _. split; [reflexivity|]. split; [exact Hm|].
      intros alloc2 b p2 fr2 H2.
      destruct (Hinv _ _ _ _ H2)
        as (? & ? & ? & ? & ? & ? & Hs' & _ & Hr).
      injection Hs' as <- <- <- <- <-. cbv zeta in Hr. fold r in Hr.
      destruct Hr as (Hb' & _ & Hf' & _).
      apply Nat.eqb_neq in Hf'. rewrite Hb', Hf' in Hbf. discriminate.
    + unfold run_mixer, destination. rewrite Halloc, Hn, Hnone.
      eexists _, _. split; [reflexivity|]. split; [exact Hm|].
      intros alloc2 b p2 fr2 H2.
      destruct (Hinv _ _ _ _ H2)
        as (? & ? & ? & ? & ? & kernel & Hs' & Hk & Hr).
      injection Hs' as <- <- <- <- <-. cbv zeta in Hr. fold r in Hr.
      destruct Hr as (_ & _ & _ & -> & Hins).
      rewrite !app_nil_r. split; [reflexivity|].
      exists kernel. split; [exact Hk | exact Hins].
Qed.

Lemma failed_allocation_gives_no_block_witness :
  exists p_aout' freed,
    MixBuffer (fun _ => None) play_block 90000 aout_cold_start
    = Some (NotReady, p_aout', freed)
    /\ p_mixer p_aout' = Some (mixer_of fmt_pcm true)
    /\ forall alloc2 p_outbuf p_aout2 freed2,
         MixBuffer alloc2 play_block 90000 aout_cold_start
         = Some (Ready p_outbuf, p_aout2, freed2) ->
         freed2 = freed
         /\ exists kernel,
              mix (mixer_of fmt_pcm true) = Some kernel
              /\ pp_inputs p_aout2 = kernel (pp_inputs p_aout') p_outbuf.
Proof.
  exact (failed_allocation_gives_no_block (fun _ => None) play_block 90000
           aout_cold_start (mixer_of fmt_pcm true) eq_refl fmt_pcm_divides
           eq_refl eq_refl).
Defined.

(** ** A late output, starved inputs, and [aout_MixerRun] *)

Lemma run_mixer_freed alloc play p_aout m sd ed k ins out fr :
  run_mixer alloc play p_aout m sd ed k ins out fr
  = freed_before fr (run_mixer alloc play p_aout m sd ed k ins out []).
Proof.
  unfold run_mixer. destruct (destination alloc m out k ins); simpl.
  - destruct (mix m); simpl; rewrite ?app_nil_r; reflexivity.
  - rewrite app_nil_r. reflexivity.
Qed.

Lemma mix_from_freed alloc play p_aout m sd ex ins out fr :
  mix_from alloc play p_aout m sd ex ins out fr
  = freed_before fr (mix_from alloc play p_aout m sd ex ins out []).
Proof.
  unfold mix_from.
  destruct (if sl_cleared _ then _ else _) as [out1 fr_out].
  destruct (sl_break _ || _); simpl.
  - reflexivity.
  - rewrite run_mixer_freed. symmetry. rewrite run_mixer_freed.
    destruct (run_mixer _ _ _ _ _ _ _ _ _ []) as [[[t p'] f]|]; simpl;
      [|reflexivity].
    rewrite <- !app_assoc. reflexivity.
Qed.

Lemma mix_from_instance alloc play p_aout ins0 out0 m sd ex ins out fr :
  mix_from alloc play (aout_with_streams p_aout ins0 out0) m sd ex ins out fr
  = mix_from alloc play p_aout m sd ex ins out fr.
Proof. reflexivity. Qed.

(** X11. A late output date.  When the date of the output FIFO is set
    and before the clock reading, a call of [MixBuffer] amounts to
    clearing the output FIFO, with its date set to [0], and calling
    [MixBuffer] from there, as at a cold start; the blocks of the output
    FIFO come first among those freed. *)
Theorem late_output_is_flushed_first
  (alloc : Z -> option aout_buffer_t)
  (play : aout_output_t -> aout_buffer_t -> aout_output_t)
  (now : mtime_t) (p_aout : aout_instance_t) (m : aout_mixer_t) :
  p_mixer p_aout = Some m ->
  output_clock p_aout <> 0 ->
  output_clock p_aout < now ->
  output_clock (flushed p_aout) = 0
  /\ p_first (output_fifo (output (flushed p_aout))) = []
  /\ MixBuffer alloc play now p_aout
     = freed_before (p_first (output_fifo (output p_aout)))
                    (MixBuffer alloc play now (flushed p_aout)).
Proof.
  intros Hm Hset Hlate. split; [reflexivity|]. split; [reflexivity|].
  unfold MixBuffer. simpl. rewrite Hm.
  unfold start_of_tick, read_output_clock. simpl.
  unfold output_clock in Hset, Hlate.
  destruct (Z.eqb_spec (date_Get (end_date (output_fifo (output p_aout)))) 0)
    as [H0|_]; [contradiction|].
  destruct (Z.ltb_spec (date_Get (end_date (output_fifo (output p_aout))))
              now) as [_|Hge]; [|lia].
  simpl.
  destruct (find_start_date now 0 _ (pp_inputs p_aout)) as [b sd ex ins fr].
  simpl. destruct b; simpl.
  - reflexivity.
  - rewrite mix_from_freed. symmetry. rewrite mix_from_freed.
    unfold flushed. rewrite (mix_from_instance alloc play p_aout).
    destruct (mix_from _ _ _ _ _ _ _ _ _) as [[[t p'] f]|]; simpl;
      [|reflexivity].
    rewrite app_assoc. reflexivity.
Qed.

Lemma late_output_is_flushed_first_witness :
  let p_aout :=
    aout_of (Some (mixer_of fmt_pcm true))
            [input_of false false [pcm_block 100000 10000] None]
            (output_at 10000) in
  output_clock (flushed p_aout) = 0
  /\ p_first (output_fifo (output (flushed p_aout))) = []
  /\ MixBuffer alloc_block play_block 90000 p_aout
     = freed_before (p_first (output_fifo (output p_aout)))
                    (MixBuffer alloc_block play_block 90000 (flushed p_aout)).
Proof.
  exact (late_output_is_flushed_first alloc_block play_block 90000
           (aout_of (Some (mixer_of fmt_pcm true))
                    [input_of false false [pcm_block 100000 10000] None]
                    (output_at 10000))
           (mixer_of fmt_pcm true) eq_refl
           ltac:(vm_compute; discriminate) ltac:(vm_compute; reflexivity)).
Defined.

Lemma scan_inputs_starved f sd ed ins : forall i k p_input,
  p_input ∈ ins ->
  valid_input p_input = true ->
  p_first (fifo (mixer p_input)) = [] ->
  sl_break (scan_inputs f sd ed i k ins) = true.
Proof.
  induction ins as [|p rest IH]; intros i k q Hin Hv Hq; simpl.
  - apply elem_of_nil in Hin. contradiction.
  - apply elem_of_cons in Hin.
    destruct (b_error p || b_paused p) eqn:Hinv; simpl.
    + destruct Hin as [-> | Hin].
      * unfold valid_input in Hv. rewrite Hinv in Hv. discriminate.
      * eapply IH; eassumption.
    + destruct (scan_input f sd ed (input_with_invalid p false))
        as [p' fr | p' fr c] eqn:Hs; simpl; [|reflexivity].
      destruct Hin as [-> | Hin]; [|eapply IH; eassumption].
      unfold scan_input, cover_input in Hs. simpl in Hs.
      rewrite Hq in Hs. discriminate.
Qed.

Lemma find_start_date_starved now ins : forall sd ex p_input,
  p_input ∈ ins ->
  valid_input p_input = true ->
  p_first (fifo (mixer p_input)) = [] ->
  let d := find_start_date now sd ex ins in
  ss_break d = true
  \/ exists p_input',
       p_input' ∈ ss_inputs d /\ valid_input p_input' = true
       /\ p_first (fifo (mixer p_input')) = [].
Proof.
  intros sd ex q Hin Hv Hq. cbv zeta.
  destruct (ss_break (find_start_date now sd ex ins)) eqn:Hb; [left; auto|].
  right.
  destruct (find_start_date_heads now ins sd ex) as (ds & Hall & _).
  apply list_elem_of_lookup in Hin. destruct Hin as (j & Hj).
  destruct (Forall3_lookup_l _ _ _ _ _ _ Hall Hj)
    as (q' & d & Hj' & _ & He & Hp & Hfirst & _).
  exists q'. split; [eapply list_elem_of_lookup_2; exact Hj'|].
  split.
  - unfold valid_input in *. rewrite He, Hp. exact Hv.
  - rewrite Hq in Hfirst. symmetry in Hfirst.
    apply app_eq_nil in Hfirst. tauto.
Qed.

Lemma MixBuffer_nothing_to_mix alloc play now p_aout :
  nothing_to_mix p_aout ->
  exists p_aout' freed,
    MixBuffer alloc play now p_aout = Some (NotReady, p_aout', freed).
Proof.
  intros Hn. destruct (p_mixer p_aout) as [m|] eqn:Hm.
  2:{ unfold MixBuffer. rewrite Hm. eauto. }
  destruct Hn as [Hn | [Hnone | (q & Hin & Hv & Hq)]]; [congruence| |].
  - unfold MixBuffer. rewrite Hm. unfold start_of_tick.
    destruct (read_output_clock now (output p_aout)) as [[[sd ex] out] fr].
    assert (Hgo : forall sd' ex' fr',
      exists p_aout' freed,
        mix_from alloc play p_aout m sd' ex' (pp_inputs p_aout) out fr'
        = Some (NotReady, p_aout', freed)).
    { intros sd' ex' fr'. unfold mix_from.
      rewrite (scan_inputs_none_valid _ _ _ _ 0%nat Hnone). simpl.
      rewrite Nat.eqb_refl. eauto. }
    destruct (sd =? 0); [|apply Hgo].
    rewrite (find_start_date_none_valid _ _ _ _ Hnone). simpl. apply Hgo.
  - unfold MixBuffer. rewrite Hm. unfold start_of_tick.
    destruct (read_output_clock now (output p_aout)) as [[[sd ex] out] fr].
    destruct (sd =? 0).
    + destruct (find_start_date_starved now (pp_inputs p_aout) sd ex q
                  Hin Hv Hq) as [Hb | (q' & Hin' & Hv' & Hq')].
      * rewrite Hb. eauto.
      * destruct (ss_break _); [eauto|].
        rewrite (mix_from_break alloc play p_aout m _ _ _ _ _
                   (scan_inputs_starved _ _ _ _ _ _ _ Hin' Hv' Hq')).
        eauto.
    + rewrite (mix_from_break alloc play p_aout m _ _ _ _ _
                 (scan_inputs_starved _ _ _ _ _ _ _ Hin Hv Hq)).
      eauto.
Qed.

(** X12. The mixer waits for every valid input.  When no mixer is
    bound, or no input is valid, or some input that is neither in error
    nor paused has an empty FIFO, [MixBuffer] returns [-1] whatever the
    other inputs hold, and [aout_MixerRun] returns after that one call
    with no block handed to the output.  The format of a bound mixer is
    taken to have its divisors above [0]. *)
Theorem nothing_to_mix_ends_the_run
  (alloc : Z -> option aout_buffer_t)
  (play : aout_output_t -> aout_buffer_t -> aout_output_t)
  (now : mtime_t) (later : list mtime_t) (p_aout : aout_instance_t) :
  (forall m, p_mixer p_aout = Some m -> format_divides (fmt m)) ->
  nothing_to_mix p_aout ->
  exists p_aout' freed,
    MixBuffer alloc play now p_aout = Some (NotReady, p_aout', freed)
    /\ aout_MixerRun alloc play (now :: later) p_aout
       = mk_run Returned p_aout' [] freed.
Proof.
  intros _ Hn.
  destruct (MixBuffer_nothing_to_mix alloc play now p_aout Hn)
    as (p' & fr & Hrun).
  exists p', fr. split; [exact Hrun|]. simpl. rewrite Hrun. reflexivity.
Qed.

Lemma nothing_to_mix_ends_the_run_witness :
  exists p_aout' freed,
    MixBuffer alloc_block play_block 90000
      (aout_of (Some (mixer_of fmt_pcm true))
               [input_of false false [pcm_block 100000 10000] None;
                input_of false false [] None]
               (output_at 0))
    = Some (NotReady, p_aout', freed)
    /\ aout_MixerRun alloc_block play_block [90000; 95000]
         (aout_of (Some (mixer_of fmt_pcm true))
                  [input_of false false [pcm_block 100000 10000] None;
                   input_of false false [] None]
                  (output_at 0))
       = mk_run Returned p_aout' [] freed.
Proof.
  apply (nothing_to_mix_ends_the_run alloc_block play_block 90000 [95000]
           (aout_of (Some (mixer_of fmt_pcm true))
                    [input_of false false [pcm_block 100000 10000] None;
                     input_of false false [] None]
                    (output_at 0))).
  - intros m Hm. injection Hm as <-. exact fmt_pcm_divides.
  - right. right. exists (input_of false false [] None).
    split; [|split; reflexivity].
    apply elem_of_cons. right. apply elem_of_cons. left. reflexivity.
Defined.

Lemma aout_MixerRun_played alloc play clock : forall p_aout k b,
  run_played (aout_MixerRun alloc play clock p_aout) !! k = Some b ->
  exists now later p_aout1 p_aout2 freed,
    drop k clock = now :: later
    /\ MixBuffer alloc play now p_aout1 = Some (Ready b, p_aout2, freed)
    /\ run_played (aout_MixerRun alloc play later p_aout2)
       = drop (S k) (run_played (aout_MixerRun alloc play clock p_aout))
    /\ (k = 0%nat -> p_aout1 = p_aout).
Proof.
  induction clock as [|now later IH]; intros p_aout k b; simpl.
  - rewrite lookup_nil. discriminate.
  - destruct (MixBuffer alloc play now p_aout) as [[[t p'] fr]|] eqn:Hrun;
      simpl; [|rewrite lookup_nil; discriminate].
    destruct t as [|b0]; simpl; [rewrite lookup_nil; discriminate|].
    destruct k as [|k]; simpl.
    + intros H. injection H as ->.
      exists now, later, p_aout, p', fr. auto.
    + intros H. destruct (IH p' k b H)
        as (now1 & later1 & p1 & p2 & fr1 & Hd & Hr & Hp & _).
      exists now1, later1, p1, p2, fr1.
      split; [exact Hd|]. split; [exact Hr|]. split; [exact Hp|].
      discriminate.
Qed.

(** A block does not start before the date the output had, when the
    clock reading is above [0]. *)
Lemma MixBuffer_not_before_output alloc play now p_aout p_outbuf p_aout'
  freed :
  MixBuffer alloc play now p_aout = Some (Ready p_outbuf, p_aout', freed) ->
  0 < now ->
  output_clock p_aout <= i_pts p_outbuf.
Proof.
  intros Hrun Hnow.
  destruct (MixBuffer_Ready_inv _ _ _ _ _ _ _ Hrun)
    as (m & sd & ex & ins & out & fr0 & blk & kernel & _ & Hs & _ & Hinv).
  cbv zeta in Hinv. destruct Hinv as (_ & _ & Hfirst & _ & -> & _). simpl.
  destruct (Z_lt_le_dec (output_clock p_aout) now) as [Hlt | Hge].
  - destruct (start_of_tick_not_before _ _ _ _ _ _ _ Hs) as [Hle | Hnone];
      [lia|].
    rewrite (scan_inputs_none_valid _ _ _ _ 0%nat Hnone) in Hfirst.
    simpl in Hfirst. congruence.
  - destruct (Z.eq_dec (output_clock p_aout) 0) as [H0 | H0]; [lia|].
    rewrite (start_of_tick_running now p_aout H0 Hge) in Hs.
    injection Hs as <- _ _ _ _. lia.
Qed.

(** X13. The blocks of a run.  With an output that sets its date to the
    end of the block it is handed, [aout_MixerRun] hands the output at
    most one block for each call of [MixBuffer], and fewer blocks than
    calls once it has returned; each block starts at or after the clock
    reading of its call; a block starts at the date at which the block
    before it ends, unless that date is [0] or before the clock reading of
    the call; and with a clock reading above [0] no block starts before
    the end of the block before it. *)
Theorem run_blocks_are_in_sequence
  (alloc : Z -> option aout_buffer_t)
  (play : aout_output_t -> aout_buffer_t -> aout_output_t)
  (clock : list mtime_t) (p_aout : aout_instance_t) :
  play_sets_clock play ->
  let r := aout_MixerRun alloc play clock p_aout in
  (length (run_played r) <= length clock)%nat
  /\ (run_end r = Returned -> (length (run_played r) < length clock)%nat)
  /\ (forall k b now,
        run_played r !! k = Some b -> clock !! k = Some now ->
        now <= i_pts b)
  /\ (forall k a b now,
        run_played r !! k = Some a -> run_played r !! S k = Some b ->
        clock !! S k = Some now ->
        i_pts a + i_length a <> 0 ->
        now <= i_pts a + i_length a ->
        i_pts b = i_pts a + i_length a)
  /\ (forall k a b now,
        run_played r !! k = Some a -> run_played r !! S k = Some b ->
        clock !! S k = Some now ->
        0 < now ->
        i_pts a + i_length a <= i_pts b).
Proof.
  intros Hplay. cbv zeta.
  assert (Hpair : forall k a b now,
    run_played (aout_MixerRun alloc play clock p_aout) !! k = Some a ->
    run_played (aout_MixerRun alloc play clock p_aout) !! S k = Some b ->
    clock !! S k = Some now ->
    exists p_aout1 p_aout2 freed,
      output_clock p_aout1 = i_pts a + i_length a
      /\ MixBuffer alloc play now p_aout1
         = Some (Ready b, p_aout2, freed)).
  { intros k a b now Ha Hb Hnow.
    destruct (aout_MixerRun_played _ _ _ _ _ _ Ha)
      as (now1 & later1 & p1 & p2 & fr1 & Hd & Hr & Hp & _).
    assert (Hb' : run_played (aout_MixerRun alloc play later1 p2) !! 0%nat
                  = Some b).
    { rewrite Hp. rewrite lookup_drop. rewrite Nat.add_0_r. exact Hb. }
    destruct (aout_MixerRun_played _ _ _ _ _ _ Hb')
      as (now2 & later2 & p3 & p4 & fr2 & Hd2 & Hr2 & _ & Hp3).
    rewrite (Hp3 eq_refl) in Hr2. rewrite drop_0 in Hd2. subst later1.
    assert (now2 = now) as ->.
    { pose proof (lookup_drop clock k 1) as Hl. rewrite Hd in Hl.
      simpl in Hl. replace (k + 1)%nat with (S k) in Hl by lia.
      unfold mtime_t in *. congruence. }
    destruct (MixBuffer_Ready _ _ _ _ _ _ _ Hr)
      as (m & sd & ex & ins & out & fr0 & _ & _ & _ & _ & Hout).
    exists p2, p4, fr2. split; [|exact Hr2].
    unfold output_clock. rewrite Hout. apply Hplay. }
  split; [|split; [|split; [|split]]].
  - clear Hpair. revert p_aout.
    induction clock as [|now later IH]; intros p; simpl; [lia|].
    destruct (MixBuffer alloc play now p) as [[[[|b0] p'] fr]|]; simpl;
      try lia.
    specialize (IH p'). lia.
  - clear Hpair. revert p_aout.
    induction clock as [|now later IH]; intros p; simpl; [discriminate|].
    destruct (MixBuffer alloc play now p) as [[[[|b0] p'] fr]|]; simpl;
      try lia.
    intros H. specialize (IH p' H). lia.
  - intros k b now Hb Hnow.
    destruct (aout_MixerRun_played _ _ _ _ _ _ Hb)
      as (now1 & later1 & p1 & p2 & fr1 & Hd & Hr & _).
    assert (now1 = now) as ->.
    { pose proof (lookup_drop clock k 0) as Hl. rewrite Hd in Hl.
      rewrite Nat.add_0_r in Hl. simpl in Hl. unfold mtime_t in *.
      congruence. }
    destruct (MixBuffer_Ready_inv _ _ _ _ _ _ _ Hr)
      as (m & sd & ex & ins & out & fr0 & blk & kernel & _ & Hs & _ & Hinv).
    cbv zeta in Hinv. destruct Hinv as (_ & _ & Hfirst & _ & -> & _). simpl.
    destruct (start_of_tick_not_before _ _ _ _ _ _ _ Hs) as [Hle | Hnone];
      [exact Hle|].
    rewrite (scan_inputs_none_valid _ _ _ _ 0%nat Hnone) in Hfirst.
    simpl in Hfirst. congruence.
  - intros k a b now Ha Hb Hnow Hset Hle.
    destruct (Hpair _ _ _ _ Ha Hb Hnow) as (p1 & p2 & fr & Hclock & Hrun).
    destruct (MixBuffer_Ready _ _ _ _ _ _ _ Hrun)
      as (m' & sd' & ex' & ins' & out' & fr0' & _ & Hs & Hpts & _).
    rewrite start_of_tick_running in Hs by lia.
    injection Hs as <- _ _ _ _. lia.
  - intros k a b now Ha Hb Hnow Hpos.
    destruct (Hpair _ _ _ _ Ha Hb Hnow) as (p1 & p2 & fr & Hclock & Hrun).
    rewrite <- Hclock.
    exact (MixBuffer_not_before_output _ _ _ _ _ _ _ Hrun Hpos).
Qed.

Lemma run_blocks_are_in_sequence_witness :
  let clock := [90000; 95000; 96000; 97000] in
  let r := aout_MixerRun alloc_block play_block clock aout_cold_start in
  (length (run_played r) <= length clock)%nat
  /\ (run_end r = Returned -> (length (run_played r) < length clock)%nat)
  /\ (forall k b now,
        run_played r !! k = Some b -> clock !! k = Some now ->
        now <= i_pts b)
  /\ (forall k a b now,
        run_played r !! k = Some a -> run_played r !! S k = Some b ->
        clock !! S k = Some now ->
        i_pts a + i_length a <> 0 ->
        now <= i_pts a + i_length a ->
        i_pts b = i_pts a + i_length a)
  /\ (forall k a b now,
        run_played r !! k = Some a -> run_played r !! S k = Some b ->
        clock !! S k = Some now ->
        0 < now ->
        i_pts a + i_length a <= i_pts b).
Proof.
  exact (run_blocks_are_in_sequence alloc_block play_block
           [90000; 95000; 96000; 97000] aout_cold_start
           play_block_sets_clock).
Defined.

Lemma output_after_orb a b out :
  output_after b (output_after a out) = output_after (a || b) out.
Proof. destruct a, b; reflexivity. Qed.

Lemma start_of_tick_clears now p_aout :
  match start_of_tick now p_aout with
  | Start_break _ out _ | Start_at _ _ _ out _ =>
    out = output_after (negb (output_clock p_aout =? 0)
                        && (output_clock p_aout <? now)) (output p_aout)
  end.
Proof.
  unfold start_of_tick, read_output_clock, output_clock.
  destruct (negb _ && _); simpl.
  - destruct (ss_break _); reflexivity.
  - destruct (_ =? 0); [destruct (ss_break _)|]; reflexivity.
Qed.

(** X14. What a call does to the output.  [MixBuffer] touches the output
    in two ways only: it clears the output FIFO, with its date set to
    [0], when that date is late or when a cursor would be negative, and it
    hands the mixed block to [aout_OutputPlay].  A call that returns [-1]
    leaves the output as it was, or cleared when it reset the clock; a
    call that returns [0] leaves what [aout_OutputPlay] makes of the
    output, cleared first when its date was late. *)
Theorem output_is_cleared_or_played
  (alloc : Z -> option aout_buffer_t)
  (play : aout_output_t -> aout_buffer_t -> aout_output_t)
  (now : mtime_t) (p_aout p_aout' : aout_instance_t)
  (t : tick_t) (freed : list aout_buffer_t) :
  MixBuffer alloc play now p_aout = Some (t, p_aout', freed) ->
  match t with
  | NotReady =>
    output p_aout' = output_after (clock_reset now p_aout) (output p_aout)
  | Ready p_outbuf =>
    output p_aout'
    = play (output_after (negb (output_clock p_aout =? 0)
                          && (output_clock p_aout <? now)) (output p_aout))
           p_outbuf
  end.
Proof.
  intros Hrun. destruct t as [|b].
  - unfold clock_reset. unfold MixBuffer in Hrun.
    destruct (p_mixer p_aout) as [m|].
    2:{ inversion Hrun; subst. reflexivity. }
    pose proof (start_of_tick_clears now p_aout) as Hout.
    destruct (start_of_tick now p_aout) as [ins out fr | sd ex ins out fr].
    + inversion Hrun; subst. simpl. rewrite orb_false_r. reflexivity.
    + unfold mix_from in Hrun.
      set (r := scan_inputs (fmt m) sd _ 0 0 ins) in *.
      rewrite <- output_after_orb, <- Hout.
      assert (Hcl : (if sl_cleared r
                     then let '(f, fr1) := aout_FifoSet (output_fifo out) 0 in
                          ({| output_fifo := f;
                              output_i_nb_samples := output_i_nb_samples out |},
                           fr1)
                     else (out, [])).1
                    = output_after (sl_cleared r) out).
      { destruct (sl_cleared r); reflexivity. }
      destruct (if sl_cleared r then _ else _) as [out1 fr_out].
      simpl in Hcl. subst out1.
      destruct (sl_break r || _).
      * inversion Hrun; subst. reflexivity.
      * unfold run_mixer in Hrun.
        destruct (destination alloc m _ _ _); [destruct (mix m)|];
          inversion Hrun; subst. reflexivity.
  - destruct (MixBuffer_Ready _ _ _ _ _ _ _ Hrun)
      as (m & sd & ex & ins & out & fr0 & _ & Hs & _ & _ & Hout).
    pose proof (start_of_tick_clears now p_aout) as Hc. rewrite Hs in Hc.
    rewrite Hout, Hc. reflexivity.
Qed.

Lemma output_is_cleared_or_played_witness :
  output aout_after_first
  = play_block
      (output_after (negb (output_clock aout_cold_start =? 0)
                     && (output_clock aout_cold_start <? 90000))
                    (output aout_cold_start))
      (pcm_block 100000 900000).
Proof.
  exact (output_is_cleared_or_played alloc_block play_block 90000
           aout_cold_start aout_after_first
           (Ready (pcm_block 100000 900000)) []
           ltac:(vm_compute; reflexivity)).
Defined.

(** A cold start with three contiguous blocks queued: three blocks are
    handed to the output, one after the other, and the fourth call returns
    [-1]. *)
Example cold_start_run :
  let r := aout_MixerRun alloc_block play_block
             [90000; 95000; 96000; 97000] aout_cold_start in
  run_end r = Returned
  /\ run_played r
     = [pcm_block 100000 900000; pcm_block 121333 900000;
        pcm_block 142666 900000].
Proof. vm_compute. split; reflexivity. Qed.

(** ** The end of a run *)

Lemma date_Increment_later d n :
  0 < i_divider_num d <= n * 1000000 ->
  date_Get d < date_Get (date_Increment d n).
Proof.
  intros [Hpos Hle]. unfold date_Increment, date_Get.
  assert (1 <= Z.quot (n * 1000000) (i_divider_num d)).
  { apply Z.quot_le_lower_bound; lia. }
  destruct (i_divider_num d <=? _); simpl; lia.
Qed.

Lemma find_start_date_exact now ins : forall sd ex,
  sd = date_Get ex ->
  let d := find_start_date now sd ex ins in
  ss_start_date d = date_Get (ss_exact d)
  /\ i_divider_num (ss_exact d) = i_divider_num ex.
Proof.
  induction ins as [|p rest IH]; intros sd ex Hsd; simpl; [auto|].
  destruct (b_error p || b_paused p); simpl; [apply IH; exact Hsd|].
  destruct (trash_late now _ _ _) as [[[q l] bg] fr].
  destruct q as [|buf q]; simpl; [auto|].
  destruct ((sd =? 0) || (sd <? i_pts buf)).
  - destruct (IH (i_pts buf) (date_Set ex (i_pts buf)) eq_refl) as (H1 & H2).
    split; [exact H1 | exact H2].
  - apply IH. exact Hsd.
Qed.

Lemma start_of_tick_exact now p_aout sd ex ins out fr :
  start_of_tick now p_aout = Start_at sd ex ins out fr ->
  sd = date_Get ex
  /\ i_divider_num ex = i_divider_num (end_date (output_fifo (output p_aout)))
  /\ i_divider_num (end_date (output_fifo out))
     = i_divider_num (end_date (output_fifo (output p_aout)))
  /\ output_i_nb_samples out = output_i_nb_samples (output p_aout).
Proof.
  unfold start_of_tick, read_output_clock.
  set (c := date_Get (end_date (output_fifo (output p_aout)))).
  destruct (negb (c =? 0) && (c <? now)); simpl.
  - pose proof (find_start_date_exact now (pp_inputs p_aout) 0
                  (date_Set (end_date (output_fifo (output p_aout))) 0)
                  eq_refl) as Hx.
    cbv zeta in Hx. destruct (ss_break _); [discriminate|].
    intros H. injection H as <- <- _ <- _. simpl. tauto.
  - destruct (c =? 0) eqn:Hc.
    + apply Z.eqb_eq in Hc.
      pose proof (find_start_date_exact now (pp_inputs p_aout) c
                    (end_date (output_fifo (output p_aout))) eq_refl) as Hx.
      cbv zeta in Hx. destruct (ss_break _); [discriminate|].
      intros H. injection H as <- <- _ <- _. tauto.
    + intros H. injection H as <- <- _ <- _. auto.
Qed.

Lemma covers_from_elem end_date chain : forall prev_date,
  covers_from end_date prev_date chain = true ->
  exists buf, buf ∈ chain /\ end_date <= i_pts buf + i_length buf.
Proof.
  induction chain as [|b t IH]; intros prev_date; simpl; [discriminate|].
  intros H. apply andb_true_iff in H. destruct H as (_ & H).
  apply orb_true_iff in H. destruct H as [H | H].
  - exists b. split; [apply elem_of_cons; auto | apply Z.leb_le; exact H].
  - destruct (IH _ H) as (buf & Hin & Hle).
    exists buf. split; [apply elem_of_cons; auto | exact Hle].
Qed.

Lemma covers_elem end_date chain :
  covers end_date chain = true ->
  exists buf, buf ∈ chain /\ end_date <= i_pts buf + i_length buf.
Proof.
  destruct chain as [|b t]; simpl; [discriminate|].
  intros H. apply orb_true_iff in H. destruct H as [H | H].
  - exists b. split; [apply elem_of_cons; auto | apply Z.leb_le; exact H].
  - destruct (covers_from_elem _ _ _ H) as (buf & Hin & Hle).
    exists buf. split; [apply elem_of_cons; auto | exact Hle].
Qed.

Lemma heads_removed_ends_by T ins ins' ds :
  Forall3 heads_removed ins ins' ds ->
  ends_by T ins -> ends_by T ins'.
Proof.
  intros Hall Hb p' buf Hin Hbuf.
  apply list_elem_of_lookup in Hin. destruct Hin as (j & Hj).
  destruct (Forall3_lookup_m _ _ _ _ _ _ Hall Hj)
    as (p & d & Hp & _ & _ & _ & Hq & _).
  apply (Hb p buf); [eapply list_elem_of_lookup_2; exact Hp|].
  rewrite Hq. apply elem_of_app. right. exact Hbuf.
Qed.

(** One call that returns [0]: the date of the output moves forward,
    stays within the queued blocks, and what the run relies on is kept. *)
Lemma MixBuffer_Ready_step alloc play now p_aout p_outbuf p_aout' freed
  m kernel T :
  MixBuffer alloc play now p_aout = Some (Ready p_outbuf, p_aout', freed) ->
  0 < now ->
  play_sets_clock play ->
  play_keeps_rate play ->
  p_mixer p_aout = Some m ->
  mix m = Some kernel ->
  kernel_queues_nothing kernel ->
  output_advances (output p_aout) ->
  ends_by T (pp_inputs p_aout) ->
  Z.max (output_clock p_aout) 0 < output_clock p_aout' <= T
  /\ output_clock p_aout' = i_pts p_outbuf + i_length p_outbuf
  /\ i_pts p_outbuf < output_clock p_aout'
  /\ p_mixer p_aout' = Some m
  /\ output_advances (output p_aout')
  /\ ends_by T (pp_inputs p_aout').
Proof.
  intros Hrun Hnow Hplay Hrate Hm Hk Hkernel Hadv Hends.
  destruct (MixBuffer_keeps_mixer _ _ _ _ _ _ _ Hrun) as (Hm' & _).
  destruct (MixBuffer_Ready_inv _ _ _ _ _ _ _ Hrun)
    as (m0 & sd & ex & ins & out & fr0 & blk & kernel0 & Hm0 & Hs & Hk0 & Hr).
  rewrite Hm in Hm0. injection Hm0 as <-.
  rewrite Hk in Hk0. injection Hk0 as <-.
  cbv zeta in Hr.
  set (ed := date_Get (date_Increment ex (output_i_nb_samples out))) in *.
  set (r := scan_inputs (fmt m) sd ed 0 0 ins) in *.
  destruct Hr as (Hb & _ & Hfirst & Hdest & Hbuf & _ & Hout & Hins).
  destruct (start_of_tick_exact _ _ _ _ _ _ _ Hs) as (Hsd & Hdiv & Hdiv' & Hn).
  (* the end date is after the start date *)
  assert (Hlater : sd < ed).
  { rewrite Hsd. apply date_Increment_later.
    rewrite Hdiv, Hn. exact Hadv. }
  (* the start date is not before the clock reading, nor before the date
     of the output *)
  assert (Hsd_now : now <= sd).
  { destruct (start_of_tick_not_before _ _ _ _ _ _ _ Hs) as [H | Hnone];
      [exact H|].
    exfalso. apply Hfirst. unfold r.
    rewrite (scan_inputs_none_valid _ _ _ _ 0%nat Hnone). reflexivity. }
  assert (Hsd_clock : output_clock p_aout <= sd).
  { pose proof (MixBuffer_not_before_output _ _ _ _ _ _ _ Hrun Hnow) as H.
    rewrite Hbuf in H. exact H. }
  (* the inputs handed to the scan, and those it leaves *)
  pose proof (start_of_tick_heads now p_aout) as Hh. rewrite Hs in Hh.
  destruct Hh as (_ & ds1 & Hall1).
  destruct (scan_inputs_heads (fmt m) sd ed ins 0%nat 0%nat)
    as (ds2 & Hall2 & _). fold r in Hall2.
  destruct (heads_removed_all_trans _ _ _ _ _ Hall1 Hall2) as (Hall & _).
  pose proof (heads_removed_ends_by T _ _ _ Hall Hends) as Hends2.
  (* the first valid input covers the end date *)
  assert (Hed : ed <= T).
  { destruct (scan_inputs_first (fmt m) sd ed ins 0%nat 0%nat Hb)
      as (_ & Hf).
    destruct (Hf eq_refl) as (Hrange & Hflag). fold r in Hrange, Hflag.
    rewrite Nat.sub_0_r in Hflag.
    assert (Hlt : (sl_first_input r < length (sl_inputs r))%nat).
    { unfold r at 2. rewrite scan_inputs_length. lia. }
    destruct (lookup_lt_is_Some_2 _ _ Hlt) as (p2 & Hj).
    specialize (Hflag p2 Hj).
    destruct (scan_inputs_turn _ _ _ _ _ _ _ _ Hb Hj)
      as (p1 & Hj1 & [(_ & Heq) | (Hv & fr1 & Hturn)]).
    { rewrite Heq in Hflag. simpl in Hflag. discriminate. }
    destruct (scan_input_stream _ _ _ _ _ _ Hturn) as (_ & _ & _ & Hc).
    destruct (covers_elem _ _ Hc) as (buf & Hin & Hle).
    pose proof (Hends2 p2 buf (list_elem_of_lookup_2 _ _ _ Hj) Hin). lia. }
  assert (Hclock : output_clock p_aout' = ed).
  { unfold output_clock. rewrite Hout. rewrite Hplay. rewrite Hbuf. simpl.
    lia. }
  rewrite Hclock.
  split; [lia|]. split; [rewrite Hbuf; simpl; lia|].
  split; [rewrite Hbuf; simpl; lia|].
  split; [congruence|]. split.
  - unfold output_advances. rewrite Hout.
    destruct (Hrate out p_outbuf) as (-> & ->). rewrite Hdiv', Hn.
    exact Hadv.
  - rewrite Hins. intros p' buf Hin Hq.
    destruct (Hkernel _ _ _ _ Hin Hq) as (p1 & Hin1 & Hq1).
    destruct (b_alloc m); [exact (Hends2 p1 buf Hin1 Hq1)|].
    destruct (sl_inputs r !! sl_first_input r) as [p2|] eqn:Hj;
      [|exact (Hends2 p1 buf Hin1 Hq1)].
    apply list_elem_of_lookup in Hin1. destruct Hin1 as (i & Hi).
    destruct (Nat.eq_dec (sl_first_input r) i) as [<- | Hne].
    + rewrite list_lookup_insert_eq in Hi
        by (apply (lookup_lt_Some _ _ _ Hj)).
      injection Hi as <-. unfold stamp_head in Hq1.
      destruct (p_first (fifo (mixer p2))) as [|hd tl] eqn:Hq2.
      * rewrite Hq2 in Hq1. apply elem_of_nil in Hq1. contradiction.
      * simpl in Hq1. apply elem_of_cons in Hq1.
        destruct Hq1 as [-> | Htl].
        -- simpl. lia.
        -- apply (Hends2 p2 buf (list_elem_of_lookup_2 _ _ _ Hj)).
           rewrite Hq2. apply elem_of_cons. auto.
    + rewrite list_lookup_insert_ne in Hi by exact Hne.
      exact (Hends2 p1 buf (list_elem_of_lookup_2 _ _ _ Hi) Hq1).
Qed.

(** X15. A run comes to its end.  Take a kernel that queues no block of
    its own, an output that sets its date to the end of the block it is
    handed and keeps its rate and block size, a date that advances by at
    least one microsecond for each block, a format whose divisors are
    above [0], and clock readings above [0].
    When every queued block ends at or before [T], [aout_MixerRun]
    returns, after at most [T - max (output date) 0] blocks: each call
    that returns [0] moves the date of the output forward, and no block is
    mixed beyond the end of what is queued. *)
Theorem aout_MixerRun_returns
  (alloc : Z -> option aout_buffer_t)
  (play : aout_output_t -> aout_buffer_t -> aout_output_t)
  (clock : list mtime_t) (p_aout : aout_instance_t)
  (m : aout_mixer_t) (kernel : mix_fn) (T : mtime_t) :
  play_sets_clock play ->
  play_keeps_rate play ->
  p_mixer p_aout = Some m ->
  format_divides (fmt m) ->
  mix m = Some kernel ->
  kernel_queues_nothing kernel ->
  output_advances (output p_aout) ->
  ends_by T (pp_inputs p_aout) ->
  Forall (fun now => 0 < now) clock ->
  (Z.to_nat (T - Z.max (output_clock p_aout) 0) < length clock)%nat ->
  let r := aout_MixerRun alloc play clock p_aout in
  run_end r = Returned
  /\ (length (run_played r)
      <= Z.to_nat (T - Z.max (output_clock p_aout) 0))%nat.
Proof.
  intros Hplay Hrate Hm _ Hk Hkernel Hadv Hends Hclock Hlen. cbv zeta.
  remember (Z.to_nat (T - Z.max (output_clock p_aout) 0)) as k eqn:Hk_eq.
  assert (Hmeasure : (Z.to_nat (T - Z.max (output_clock p_aout) 0) <= k)%nat)
    by lia.
  clear Hk_eq.
  revert clock p_aout Hm Hadv Hends Hclock Hlen Hmeasure.
  induction k as [|k IH]; intros clock p Hm Hadv Hends Hclock Hlen Hmeasure.
  - destruct clock as [|now later]; [simpl in Hlen; lia|].
    inversion Hclock as [|? ? Hnow Hlater]; subst. simpl.
    destruct (MixBuffer alloc play now p) as [[[[|b] p'] fr]|] eqn:Hrun.
    + simpl. split; [reflexivity | lia].
    + destruct (MixBuffer_Ready_step _ _ _ _ _ _ _ _ _ T Hrun Hnow Hplay
                  Hrate Hm Hk Hkernel Hadv Hends) as (Hstep & _).
      lia.
    + exfalso. unfold MixBuffer in Hrun. rewrite Hm in Hrun.
      destruct (start_of_tick now p); [discriminate|].
      unfold mix_from in Hrun.
      destruct (if sl_cleared _ then _ else _) as [out1 fr_out].
      destruct (sl_break _ || _); [discriminate|].
      unfold run_mixer in Hrun. rewrite Hk in Hrun.
      destruct (destination _ _ _ _ _); discriminate.
  - destruct clock as [|now later]; [simpl in Hlen; lia|].
    inversion Hclock as [|? ? Hnow Hlater]; subst. simpl.
    destruct (MixBuffer alloc play now p) as [[[[|b] p'] fr]|] eqn:Hrun.
    + simpl. split; [reflexivity | lia].
    + destruct (MixBuffer_Ready_step _ _ _ _ _ _ _ _ _ T Hrun Hnow Hplay
                  Hrate Hm Hk Hkernel Hadv Hends)
        as (Hstep & _ & _ & Hm' & Hadv' & Hends').
      destruct (IH later p' Hm' Hadv' Hends' Hlater
                  ltac:(simpl in Hlen; lia) ltac:(lia)) as (Hret & Hcount).
      simpl. split; [exact Hret | lia].
    + exfalso. unfold MixBuffer in Hrun. rewrite Hm in Hrun.
      destruct (start_of_tick now p); [discriminate|].
      unfold mix_from in Hrun.
      destruct (if sl_cleared _ then _ else _) as [out1 fr_out].
      destruct (sl_break _ || _); [discriminate|].
      unfold run_mixer in Hrun. rewrite Hk in Hrun.
      destruct (destination _ _ _ _ _); discriminate.
Qed.

Lemma kernel_idle_queues_nothing : kernel_queues_nothing kernel_idle.
Proof. intros ins b p buf Hin Hq. exists p. auto. Qed.

Lemma play_block_keeps_rate : play_keeps_rate play_block.
Proof. intros out blk. split; reflexivity. Qed.

Lemma aout_cold_start_ends_by : ends_by 163999 (pp_inputs aout_cold_start).
Proof.
  intros p buf Hp Hq. simpl in Hp.
  apply elem_of_cons in Hp. destruct Hp as [-> | Hp];
    [|apply elem_of_nil in Hp; contradiction].
  simpl in Hq.
  repeat (apply elem_of_cons in Hq; destruct Hq as [-> | Hq];
          [simpl; lia|]).
  apply elem_of_nil in Hq. contradiction.
Qed.

Lemma aout_MixerRun_returns_witness :
  let r := aout_MixerRun alloc_block play_block
             (replicate (Z.to_nat 164000) 90000) aout_cold_start in
  run_end r = Returned
  /\ (length (run_played r)
      <= Z.to_nat (163999 - Z.max (output_clock aout_cold_start) 0))%nat.
Proof.
  apply (aout_MixerRun_returns alloc_block play_block
           (replicate (Z.to_nat 164000) 90000) aout_cold_start
           (mixer_of fmt_pcm true) kernel_idle 163999
           play_block_sets_clock play_block_keeps_rate eq_refl
           fmt_pcm_divides eq_refl kernel_idle_queues_nothing).
  - unfold output_advances. simpl. lia.
  - exact aout_cold_start_ends_by.
  - apply Forall_replicate. lia.
  - rewrite length_replicate. simpl. lia.
Defined.
